(** * reltab-local: the in-memory relational query engine

    A shallow embedding of [src/reltab-local.js]: the JavaScript values the
    engine manipulates, the table operators ([projectImpl], [groupByImpl],
    [filterImpl], [mapColumnsImpl], [mapColumnsByIndexImpl], [extendImpl],
    [concatImpl], [sortImpl]), the aggregation accumulators, the filter
    and sort compilers, the table loader and the common-subexpression
    evaluator [CSEEvaluator]; and of the state and event handlers of the
    filter editor, [src/components/FilterEditor.js]. *)

From stdpp Require Import gmap strings list pretty.
From Stdlib Require Import ZArith Ascii Permutation Sorted Lia.
From Stdlib Require OrderedTypeEx.

Set Warnings "-register-all,-clear-no-such-hyp".

Local Open Scope Z_scope.

(** ** JavaScript values

    Table cells hold primitive values.  Numbers are modelled as unbounded
    integers together with [NaN]: IEEE-754 rounding, infinities,
    non-integer reals and integers beyond the exactly representable range
    are outside the model.  Strings are sequences of 8-bit code units. *)

Inductive Prim :=
  | PUndefined
  | PNull
  | PBool (b : bool)
  | PNum (n : Z)
  | PNaN
  | PStr (s : string).

Global Instance Prim_eq_dec : EqDecision Prim.
Proof. solve_decision. Defined.

(** [a === b].  [NaN] is not equal to itself. *)
Definition strict_eq (a b : Prim) : bool :=
  match a, b with
  | PNaN, _ | _, PNaN => false
  | _, _ => bool_decide (a = b)
  end.

(** [a !== b] *)
Definition strict_ne (a b : Prim) : bool := negb (strict_eq a b).

(** ToNumber; [None] stands for [NaN].  StringToNumber is not modelled:
    a string operand is taken to be non-numeric, so statements that
    compare cells numerically are made for cells that are not strings. *)
Definition ToNumber (v : Prim) : option Z :=
  match v with
  | PUndefined => None
  | PNull => Some 0
  | PBool b => Some (if b then 1 else 0)
  | PNum n => Some n
  | PNaN => None
  | PStr _ => None
  end.

Definition ToString (v : Prim) : string :=
  match v with
  | PUndefined => "undefined"
  | PNull => "null"
  | PBool b => if b then "true" else "false"
  | PNum n => pretty n
  | PNaN => "NaN"
  | PStr s => s
  end.

(** [a + b]: string concatenation as soon as one operand is a string,
    numeric addition otherwise. *)
Definition js_add (a b : Prim) : Prim :=
  match a, b with
  | PStr s, _ => PStr (s +:+ ToString b)
  | _, PStr s => PStr (ToString a +:+ s)
  | _, _ =>
      match ToNumber a, ToNumber b with
      | Some x, Some y => PNum (x + y)
      | _, _ => PNaN
      end
  end.

(** [a - b] *)
Definition js_sub (a b : Prim) : Prim :=
  match ToNumber a, ToNumber b with
  | Some x, Some y => PNum (x - y)
  | _, _ => PNaN
  end.

(** The abstract relational comparison behind [<], [>], [<=], [>=]:
    [None] is the "undefined" outcome obtained when an operand is [NaN]. *)
Definition js_compare_lt (a b : Prim) : option bool :=
  match a, b with
  | PStr s1, PStr s2 => Some (String.ltb s1 s2)
  | _, _ =>
      match ToNumber a, ToNumber b with
      | Some x, Some y => Some (x <? y)%Z
      | _, _ => None
      end
  end.

Definition js_lt (a b : Prim) : bool :=
  match js_compare_lt a b with Some true => true | _ => false end.
Definition js_gt (a b : Prim) : bool := js_lt b a.
Definition js_le (a b : Prim) : bool :=
  match js_compare_lt b a with Some false => true | _ => false end.
Definition js_ge (a b : Prim) : bool :=
  match js_compare_lt a b with Some false => true | _ => false end.

(** Literal operator arguments are arbitrary JavaScript values: primitives,
    functions (an object identity and the source text), arrays and
    objects (own enumerable properties in enumeration order). *)
Inductive JsVal :=
  | JPrim (p : Prim)
  | JFun (fid : nat) (src : string)
  | JArr (elems : list JsVal)
  | JObj (props : list (string * JsVal)).

(** *** JSON.stringify *)

Definition hex_digit (n : N) : ascii :=
  match n with
  | 0%N => "0" | 1%N => "1" | 2%N => "2" | 3%N => "3" | 4%N => "4"
  | 5%N => "5" | 6%N => "6" | 7%N => "7" | 8%N => "8" | 9%N => "9"
  | 10%N => "a" | 11%N => "b" | 12%N => "c" | 13%N => "d" | 14%N => "e"
  | _ => "f"
  end%char.

Definition dquote : string := String (ascii_of_N 34) "".

(** One code unit of QuoteJSONString. *)
Definition quote_char (c : ascii) : string :=
  let n := N_of_ascii c in
  if (n =? 34)%N then "\" +:+ dquote
  else if (n =? 92)%N then "\\"
  else if (n =? 8)%N then "\b"
  else if (n =? 9)%N then "\t"
  else if (n =? 10)%N then "\n"
  else if (n =? 12)%N then "\f"
  else if (n =? 13)%N then "\r"
  else if (n <? 32)%N then
    "\u00" +:+ String (hex_digit (n / 16)) (String (hex_digit (n mod 16)) "")
  else String c "".

Fixpoint quote_body (s : string) : string :=
  match s with
  | EmptyString => ""
  | String c s' => quote_char c +:+ quote_body s'
  end.

Definition QuoteJSONString (s : string) : string :=
  dquote +:+ quote_body s +:+ dquote.

Fixpoint join (sep : string) (l : list string) : string :=
  match l with
  | [] => ""
  | [x] => x
  | x :: l' => x +:+ sep +:+ join sep l'
  end.

Definition stringify_prim (p : Prim) : option string :=
  match p with
  | PUndefined => None
  | PNull => Some "null"
  | PBool b => Some (if b then "true" else "false")
  | PNum n => Some (pretty n)
  | PNaN => Some "null"
  | PStr s => Some (QuoteJSONString s)
  end.

(** SerializeJSONProperty: [None] is the [undefined] result that
    [undefined] and functions have.  Inside an array such an element is
    written [null]; inside an object the property is left out. *)
Fixpoint JSON_stringify (v : JsVal) : option string :=
  match v with
  | JPrim p => stringify_prim p
  | JFun _ _ => None
  | JArr elems =>
      Some ("[" +:+
        join "," ((fix elts (l : list JsVal) : list string :=
                     match l with
                     | [] => []
                     | x :: l' => default "null" (JSON_stringify x) :: elts l'
                     end) elems) +:+ "]")
  | JObj props =>
      Some ("{" +:+
        join "," ((fix members (l : list (string * JsVal)) : list string :=
                     match l with
                     | [] => []
                     | (k, x) :: l' =>
                         match JSON_stringify x with
                         | Some s => (QuoteJSONString k +:+ ":" +:+ s) :: members l'
                         | None => members l'
                         end
                     end) props) +:+ "}")
  end.

(** ToString of an arbitrary value, as applied to a property key: an
    array joins its elements, [null] and [undefined] elements giving the
    empty string; a plain object gives a fixed text; a function its
    source. *)
Fixpoint JsVal_toString (v : JsVal) : string :=
  match v with
  | JPrim p => ToString p
  | JFun _ src => src
  | JArr elems =>
      join "," ((fix elts (l : list JsVal) : list string :=
                   match l with
                   | [] => []
                   | JPrim PUndefined :: l' => "" :: elts l'
                   | JPrim PNull :: l' => "" :: elts l'
                   | x :: l' => JsVal_toString x :: elts l'
                   end) elems)
  | JObj _ => "[object Object]"
  end.

(** [JSON.stringify] of an array value always yields a string. *)
Definition stringify_array (l : list JsVal) : string :=
  default "null" (JSON_stringify (JArr l)).

(** [Array.prototype.toString] on an array of non-negative integers. *)
Definition nums_toString (l : list nat) : string :=
  join "," (pretty <$> l).

(** ** Exceptions *)

Inductive JsError :=
  | Error (msg : string)
  | TypeError.

Inductive Res (A : Type) :=
  | Ok (a : A)
  | Throw (e : JsError).
Arguments Ok {A} a.
Arguments Throw {A} e.

Global Instance Res_ret : MRet Res := λ A a, Ok a.
Global Instance Res_bind : MBind Res := λ A B f m,
  match m with Ok a => f a | Throw e => Throw e end.

(** [l.map(f)] for an [f] that may throw: the first exception aborts. *)
Fixpoint mapM_res {A B} (f : A → Res B) (l : list A) : Res (list B) :=
  match l with
  | [] => Ok []
  | x :: l' => y ← f x; ys ← mapM_res f l'; Ok (y :: ys)
  end.

(** ** Aggregation accumulators *)

Module SumAgg.
Record t := mk { sum : Prim }.
Definition new : t := mk (PNum 0).
Definition mplus (x : Prim) (acc : t) : t :=
  if strict_ne x PNull then mk (js_add (sum acc) x) else acc.
Definition finalize (acc : t) : Prim := sum acc.
End SumAgg.

Module UniqAgg.
Record t := mk { initial : bool; str : Prim }.
Definition new : t := mk true PNull.
Definition mplus (val : Prim) (acc : t) : t :=
  if initial acc && strict_ne val PNull then
    mk false val
  else if strict_ne (str acc) val then
    mk (initial acc) PNull
  else acc.
Definition finalize (acc : t) : Prim := str acc.

(** Feeding a sequence of values, in order, to a fresh accumulator. *)
Definition run (vals : list Prim) : Prim :=
  finalize (foldl (λ acc v, mplus v acc) new vals).
End UniqAgg.

(** ** Schema and tables *)

(** Modelled from the spec: the metadata of a column, its declared type
    ([integer], [real] or [text]) and an optional display name. *)
Record ColumnMetadata := mkColumnMetadata {
  type : string;
  displayName : option string
}.

Global Instance ColumnMetadata_eq_dec : EqDecision ColumnMetadata.
Proof. solve_decision. Defined.

(** Modelled from the spec: the [Schema] class of the [reltab] module, an
    ordered sequence of column identifiers together with a mapping from
    identifier to metadata.  It provides position lookup by identifier
    ([columnIndex], [undefined] for an identifier that is not a column)
    and type lookup by identifier ([columnType], which reads the [type]
    field of the metadata entry). *)
Record Schema := mkSchema {
  columns : list string;
  columnMetadata : gmap string ColumnMetadata
}.

Fixpoint index_of (colId : string) (cols : list string) : option nat :=
  match cols with
  | [] => None
  | c :: cols' => if decide (c = colId) then Some 0%nat else S <$> index_of colId cols'
  end.

Definition columnIndex (s : Schema) (colId : string) : option nat :=
  index_of colId (columns s).

Definition columnType (s : Schema) (colId : string) : Res string :=
  match columnMetadata s !! colId with
  | Some m => Ok (type m)
  | None => Throw TypeError
  end.

(** The invariant the spec puts on a schema: identifiers are unique and
    each has a metadata entry. *)
Definition schema_wf (s : Schema) : Prop :=
  NoDup (columns s) ∧ ∀ c, c ∈ columns s → is_Some (columnMetadata s !! c).

Definition Row := list Prim.

Record TableRep := mkTableRep {
  schema : Schema;
  rowData : list Row
}.

(** Rows are positionally aligned with the schema's columns. *)
Definition table_wf (t : TableRep) : Prop :=
  schema_wf (schema t) ∧
  Forall (λ r : Row, length r = length (columns (schema t))) (rowData t).

(** [row[idx]], where [idx] may itself be [undefined]. *)
Definition row_get (row : Row) (idx : option nat) : Prim :=
  match idx with
  | Some i => default PUndefined (row !! i)
  | None => PUndefined
  end.

(** [d3a.permute(array, indexes)]: the array of [array[i]] for each [i] of
    [indexes], in order. *)
Definition permute (row : Row) (indexes : list (option nat)) : Row :=
  row_get row <$> indexes.

(** [subTables[0]]; reading a field of the result throws when it is
    [undefined]. *)
Definition first_table {A} (subTables : list A) : Res A :=
  match subTables with
  | t :: _ => Ok t
  | [] => Throw TypeError
  end.

(** ** project *)

Definition calcProjectionPermutation (inSchema : Schema) (projectCols : list string)
  : Res (list (option nat)) :=
  mapM_res (λ colId,
    match columnMetadata inSchema !! colId with
    | None => Throw (Error ("project: unknown column Id " +:+ dquote +:+ colId +:+ dquote))
    | Some _ => Ok (columnIndex inSchema colId)
    end) projectCols.

Definition projectImpl (projectCols : list string) (subTables : list TableRep)
  : Res TableRep :=
  tableData ← first_table subTables;
  perm ← calcProjectionPermutation (schema tableData) projectCols;
  let ns := mkSchema projectCols (columnMetadata (schema tableData)) in
  Ok (mkTableRep ns ((λ row, permute row perm) <$> rowData tableData)).

(** ** groupBy *)

(** An accumulator object: one of the two classes behind the [AggAcc]
    interface, with its hidden state. *)
Inductive AggAcc :=
  | AccSum (a : SumAgg.t)
  | AccUniq (a : UniqAgg.t).

Definition mplus (x : Prim) (acc : AggAcc) : AggAcc :=
  match acc with
  | AccSum a => AccSum (SumAgg.mplus x a)
  | AccUniq a => AccUniq (UniqAgg.mplus x a)
  end.

Definition finalize (acc : AggAcc) : Prim :=
  match acc with
  | AccSum a => SumAgg.finalize a
  | AccUniq a => UniqAgg.finalize a
  end.

(** [defaultAggs]: from column type to a freshly constructed accumulator. *)
Definition defaultAggs (aggColType : string) : option AggAcc :=
  if decide (aggColType = "integer") then Some (AccSum SumAgg.new)
  else if decide (aggColType = "real") then Some (AccSum SumAgg.new)
  else if decide (aggColType = "text") then Some (AccUniq UniqAgg.new)
  else None.

Definition mkAggAccs (inSchema : Schema) (aggCols : list string) : Res (list AggAcc) :=
  mapM_res (λ colId,
    match columnMetadata inSchema !! colId with
    | None => Throw TypeError
    | Some m =>
        match defaultAggs (type m) with
        | None => Throw (Error ("could not find aggregator for column " +:+ colId))
        | Some accObj => Ok accObj
        end
    end) aggCols.

(** A group row is the key values followed by one accumulator per
    aggregated column; the code keeps both in one array and splits it at
    [keyData.length]. *)
Definition GroupRow : Type := Row * list AggAcc.

(** [groupMap] is an object used as a dictionary.  Its keys are JSON
    encodings of arrays, which start with a bracket and so are never array
    indices: enumeration follows insertion order, which an association
    list in insertion order records. *)
Definition GroupMap : Type := list (string * GroupRow).

Fixpoint gm_lookup (keyStr : string) (groupMap : GroupMap) : option GroupRow :=
  match groupMap with
  | [] => None
  | (k, g) :: rest => if decide (k = keyStr) then Some g else gm_lookup keyStr rest
  end.

(** [groupMap[keyStr] = groupRow]: in place for a known key, at the end
    for a new one. *)
Fixpoint gm_store (keyStr : string) (g : GroupRow) (groupMap : GroupMap) : GroupMap :=
  match groupMap with
  | [] => [(keyStr, g)]
  | (k, g') :: rest =>
      if decide (k = keyStr) then (k, g) :: rest else (k, g') :: gm_store keyStr g rest
  end.

(** The inner loop over [j]: each accumulator receives the value of its
    aggregated column. *)
Definition feed (aggInData : Row) (accs : list AggAcc) : list AggAcc :=
  imap (λ j acc, mplus (row_get aggInData (Some j)) acc) accs.

Definition key_string (keyData : Row) : string :=
  stringify_array (JPrim <$> keyData).

(** One iteration of the loop over the input rows. *)
Definition groupBy_step (inSchema : Schema) (aggCols : list string)
    (keyPerm aggColsPerm : list (option nat))
    (groupMap : GroupMap) (inRow : Row) : Res GroupMap :=
  let keyData := permute inRow keyPerm in
  let aggInData := permute inRow aggColsPerm in
  let keyStr := key_string keyData in
  groupRow ← match gm_lookup keyStr groupMap with
             | Some g => Ok g
             | None => aggAccs ← mkAggAccs inSchema aggCols; Ok (keyData, aggAccs)
             end;
  Ok (gm_store keyStr (groupRow.1, feed aggInData groupRow.2) groupMap).

Fixpoint foldM_res {A B} (f : B → A → Res B) (b : B) (l : list A) : Res B :=
  match l with
  | [] => Ok b
  | x :: l' => b' ← f b x; foldM_res f b' l'
  end.

Definition groupByImpl (cols aggs : list string) (subTables : list TableRep)
  : Res TableRep :=
  tableData ← first_table subTables;
  let inSchema := schema tableData in
  let outSchema := mkSchema (cols ++ aggs) (columnMetadata inSchema) in
  keyPerm ← calcProjectionPermutation inSchema cols;
  aggColsPerm ← calcProjectionPermutation inSchema aggs;
  groupMap ← foldM_res (groupBy_step inSchema aggs keyPerm aggColsPerm) []
                       (rowData tableData);
  Ok (mkTableRep outSchema
        ((λ kg : string * GroupRow, kg.2.1 ++ (finalize <$> kg.2.2)) <$> groupMap)).

(** *** groupBy as the spec words it

    One output row per distinct encoded key, in order of first encounter:
    the key values of the group's first row, then the finalized
    accumulators fed with the group's rows in input order. *)

Fixpoint first_occurrences (l : list string) : list string :=
  match l with
  | [] => []
  | k :: l' => k :: filter (λ k', k' ≠ k) (first_occurrences l')
  end.

Definition row_key (keyPerm : list (option nat)) (r : Row) : string :=
  key_string (permute r keyPerm).

Definition group_members (keyPerm : list (option nat)) (rows : list Row) (k : string)
  : list Row :=
  filter (λ r, row_key keyPerm r = k) rows.

Definition group_output (keyPerm aggColsPerm : list (option nat))
    (accs0 : list AggAcc) (rows : list Row) (k : string) : Row :=
  let members := group_members keyPerm rows k in
  permute (default [] (head members)) keyPerm ++
  (finalize <$> foldl (λ accs r, feed (permute r aggColsPerm) accs) accs0 members).

Definition groupBy_spec_rows (keyPerm aggColsPerm : list (option nat))
    (accs0 : list AggAcc) (rows : list Row) : list Row :=
  group_output keyPerm aggColsPerm accs0 rows <$>
    first_occurrences (row_key keyPerm <$> rows).

(** The group map holding the entry [F k] for each key of [keys], in
    that order. *)
Definition gm_table (F : string → GroupRow) (keys : list string) : GroupMap :=
  (λ k, (k, F k)) <$> keys.

(** The grouping example of the spec: rows [x,1], [x,2], [y,5] over
    columns [k] (text) and [v] (integer). *)
Definition example_groupBy_input : TableRep :=
  mkTableRep
    (mkSchema ["k"; "v"]
       (<["k" := mkColumnMetadata "text" None]>
          (<["v" := mkColumnMetadata "integer" None]> ∅)))
    [[PStr "x"; PNum 1]; [PStr "x"; PNum 2]; [PStr "y"; PNum 5]].

(** ** filter *)

(** Modelled from the spec: the filter expressions of the [reltab]
    module.  A value expression is a column reference or a constant; a
    relational comparison applies one of five operators to two value
    expressions; a filter expression applies a boolean operator, given
    by its name, to a list of sub-expressions. *)
Inductive ValExp :=
  | ColRef (colName : string)
  | ConstVal (val : Prim).

Inductive RelOp := EQ | GT | GE | LE | LT.

(** A sub-expression is told apart by its [expType] field: a relational
    comparison, a nested boolean combinator, or anything else (kept as
    its JSON text, which the error message quotes). *)
Inductive SubExp :=
  | SRelExp (op : RelOp) (lhs rhs : ValExp)
  | SFilterExp (op : string) (opArgs : list SubExp)
  | SUnknown (json : string).

Record FilterExp := mkFilterExp {
  op : string;
  opArgs : list SubExp
}.

Definition RowPred := Row → bool.
Definition RowEval := Row → Prim.

Definition compileAccessor (schema : Schema) (vexp : ValExp) : Res RowEval :=
  match vexp with
  | ColRef colName =>
      match columnIndex schema colName with
      | None =>
          Throw (Error ("compiling filter expression: Unknown column identifier "
                        +:+ dquote +:+ colName +:+ dquote))
      | Some idx => Ok (λ row, row_get row (Some idx))
      end
  | ConstVal val => Ok (λ _, val)
  end.

Definition relOpFnMap (o : RelOp) : Prim → Prim → bool :=
  match o with
  | EQ => strict_eq
  | GT => js_gt
  | GE => js_ge
  | LE => js_le
  | LT => js_lt
  end.

Definition compileRelOp (schema : Schema) (o : RelOp) (lhs rhs : ValExp) : Res RowPred :=
  lhsef ← compileAccessor schema lhs;
  rhsef ← compileAccessor schema rhs;
  let cmpFn := relOpFnMap o in
  Ok (λ row, cmpFn (lhsef row) (rhsef row)).

(** The predicate [cf] built by [compileAndExp]: every compiled argument
    must hold, tried in order, stopping at the first that does not. *)
Definition and_pred (argCFs : list RowPred) : RowPred :=
  λ row, forallb (λ acf, acf row) argCFs.

Definition compileOrExp (argExps : list SubExp) : Res RowPred :=
  Throw (Error "OR expressions - not yet implemented").

(** [compileSubExp], with [compileExp] and [compileAndExp] unfolded at
    the nested combinator so that the recursion is structural. *)
Fixpoint compileSubExp (schema : Schema) (se : SubExp) : Res RowPred :=
  match se with
  | SRelExp o lhs rhs => compileRelOp schema o lhs rhs
  | SFilterExp o args =>
      if decide (o = "AND") then
        argCFs ← (fix map_compile (l : list SubExp) : Res (list RowPred) :=
                    match l with
                    | [] => Ok []
                    | a :: l' =>
                        acf ← compileSubExp schema a;
                        acfs ← map_compile l';
                        Ok (acf :: acfs)
                    end) args;
        Ok (and_pred argCFs)
      else compileOrExp args
  | SUnknown json =>
      Throw (Error ("error compile simple expression " +:+ json +:+ ": unknown expr type"))
  end.

Definition compileAndExp (schema : Schema) (argExps : list SubExp) : Res RowPred :=
  argCFs ← mapM_res (compileSubExp schema) argExps;
  Ok (and_pred argCFs).

Definition compileExp (schema : Schema) (exp : FilterExp) : Res RowPred :=
  if decide (op exp = "AND") then compileAndExp schema (opArgs exp)
  else compileOrExp (opArgs exp).

Definition compileFilterExp (schema : Schema) (fexp : FilterExp) : Res RowPred :=
  compileExp schema fexp.

Definition filterImpl (fexp : FilterExp) (subTables : list TableRep) : Res TableRep :=
  tableData ← first_table subTables;
  evalFilterExp ← compileFilterExp (schema tableData) fexp;
  Ok (mkTableRep (schema tableData) (filter (λ row, evalFilterExp row = true) (rowData tableData))).

(** ** mapColumns

    Modelled from the spec: [ColumnMapInfo], what a column mapping gives
    for a column: a new identifier and values for the metadata fields,
    each of them optional. *)
Record ColumnMapInfo := mkColumnMapInfo {
  cm_id : option string;
  cm_type : option string;
  cm_displayName : option string
}.

(** What [mapColumnsImpl] and [mapColumnsByIndexImpl] end with: a table,
    an exception of the kinds above, or the [SyntaxError] of
    [JSON.parse]. *)
Inductive MapColumnsResult :=
  | Mapped (t : TableRep)
  | MapThrows (e : JsError)
  | MapSyntaxError.

(** The copy [JSON.parse(JSON.stringify(inColumnInfo))] of the input's
    entry with every field of [cmapColumnInfo] other than [id] written
    over it. *)
Definition overlay (inColumnInfo : ColumnMetadata) (cmapColumnInfo : ColumnMapInfo)
  : ColumnMetadata :=
  mkColumnMetadata
    (default (type inColumnInfo) (cm_type cmapColumnInfo))
    (match cm_displayName cmapColumnInfo with
     | Some d => Some d
     | None => displayName inColumnInfo
     end).

(** The body of the loop over the input columns, which the two variants
    share word for word; they differ in the key under which
    [cmapColumnInfo] was looked up.  [None] is the [SyntaxError] that
    copying the entry of a column without metadata throws:
    [JSON.stringify(undefined)] is [undefined], which [JSON.parse] does
    not accept.  An entry set to [undefined] is modelled as no entry. *)
Definition mapColumn_step (inSchema : Schema) (inColumnId : string)
    (cmapColumnInfo : option ColumnMapInfo)
    (acc : list string * gmap string ColumnMetadata)
  : option (list string * gmap string ColumnMetadata) :=
  let '(outColumns, outMetadata) := acc in
  let inColumnInfo := columnMetadata inSchema !! inColumnId in
  match cmapColumnInfo with
  | None =>
      Some (outColumns ++ [inColumnId],
            match inColumnInfo with
            | Some m => <[inColumnId := m]> outMetadata
            | None => delete inColumnId outMetadata
            end)
  | Some info =>
      let outColumnId := default inColumnId (cm_id info) in
      match inColumnInfo with
      | None => None
      | Some m =>
          Some (outColumns ++ [outColumnId],
                <[outColumnId := overlay m info]> outMetadata)
      end
  end.

(** The result object built from what the loop returned. *)
Definition mapColumns_result (tableData : TableRep)
    (out : option (list string * gmap string ColumnMetadata)) : MapColumnsResult :=
  match out with
  | None => MapSyntaxError
  | Some (outColumns, outMetadata) =>
      Mapped (mkTableRep (mkSchema outColumns outMetadata) (rowData tableData))
  end.

(** The mapping is looked up by column identifier: [cmap[inColumnId]]. *)
Definition mapColumnsImpl (cmap : gmap string ColumnMapInfo)
    (subTables : list TableRep) : MapColumnsResult :=
  match first_table subTables with
  | Throw e => MapThrows e
  | Ok tableData =>
      let inSchema := schema tableData in
      mapColumns_result tableData
        (foldl (λ acc inColumnId,
                  acc ≫= mapColumn_step inSchema inColumnId (cmap !! inColumnId))
               (Some ([], ∅)) (columns inSchema))
  end.

(** The mapping is looked up by position: [cmap[inIndex.toString()]]. *)
Definition mapColumnsByIndexImpl (cmap : gmap string ColumnMapInfo)
    (subTables : list TableRep) : MapColumnsResult :=
  match first_table subTables with
  | Throw e => MapThrows e
  | Ok tableData =>
      let inSchema := schema tableData in
      mapColumns_result tableData
        (foldl (λ acc (ic : nat * string),
                  acc ≫= mapColumn_step inSchema ic.2 (cmap !! pretty ic.1))
               (Some ([], ∅))
               (imap (λ inIndex inColumnId, (inIndex, inColumnId)) (columns inSchema)))
  end.

(** The identifier a mapping gives a column. *)
Definition mapped_id (cmapColumnInfo : option ColumnMapInfo) (inColumnId : string)
  : string :=
  default inColumnId (cmapColumnInfo ≫= cm_id).

(** The metadata a mapping gives a column with entry [m]. *)
Definition mapped_info (cmapColumnInfo : option ColumnMapInfo) (m : ColumnMetadata)
  : ColumnMetadata :=
  match cmapColumnInfo with
  | Some info => overlay m info
  | None => m
  end.

(** ** extend *)

(** Modelled from the spec: the row object that [Schema.rowMapFromRow]
    hands to a generator, addressable both positionally and by column
    identifier. *)
Record RowObject := mkRowObject {
  by_position : Row;
  by_columnId : gmap string Prim
}.

Definition rowMapFromRow (s : Schema) (row : Row) : RowObject :=
  mkRowObject row
    (foldl (λ m cv, <[cv.1 := cv.2]> m) ∅ (zip (columns s) row)).

(** [ColumnExtendVal]: a generator function ([typeof ev === 'function'])
    or a constant. *)
Inductive ColumnExtendVal :=
  | EvFunction (f : RowObject → Prim)
  | EvConstant (v : Prim).

(** [_.extend(cMap, inSchema.columnMetadata)] copies the entries of the
    input's metadata onto the object holding the new column's entry, so
    an entry of the input wins over the new one. *)
Definition extendImpl (colId : string) (columnMetadata' : ColumnMetadata)
    (ev : ColumnExtendVal) (subTables : list TableRep) : Res TableRep :=
  tableData ← first_table subTables;
  let inSchema := schema tableData in
  let outCols := columns inSchema ++ [colId] in
  let cMap : gmap string ColumnMetadata := {[ colId := columnMetadata' ]} in
  let outMetadata := columnMetadata inSchema ∪ cMap in
  let outSchema := mkSchema outCols outMetadata in
  let outRows :=
    (λ inRow : Row,
       let outVal :=
         match ev with
         | EvFunction f => f (rowMapFromRow (schema tableData) inRow)
         | EvConstant v => v
         end in
       inRow ++ [outVal]) <$> rowData tableData in
  Ok (mkTableRep outSchema outRows).

(** ** concat *)

(** [Schema.compatCheck] belongs to the [reltab] module and is taken as a
    parameter: it returns normally or throws. *)
Definition concatImpl (compatCheck : Schema → Schema → Res unit)
    (subTables : list TableRep) : Res TableRep :=
  tbl ← first_table subTables;
  foldM_res (λ res tbl,
               _ ← compatCheck (schema res) (schema tbl);
               Ok (mkTableRep (schema res) (rowData res ++ rowData tbl)))
            (mkTableRep (schema tbl) (rowData tbl)) (tail subTables).

(** A schema as [project] leaves it: one column [a], while the metadata
    mapping still carries the entry of a dropped column [b]. *)
Definition example_extend_input : TableRep :=
  mkTableRep
    (mkSchema ["a"]
       (<["a" := mkColumnMetadata "integer" None]>
          (<["b" := mkColumnMetadata "text" None]> ∅)))
    [[PNum 1]; [PNum 2]].

(** ** sort *)

Definition strcmp (s1 s2 : Prim) : Prim :=
  if js_lt s1 s2 then PNum (-1) else if js_gt s1 s2 then PNum 1 else PNum 0.

Definition numcmp (i1 i2 : Prim) : Prim := js_sub i1 i2.

Definition cmpFnMap (colType : string) : option (Prim → Prim → Prim) :=
  if decide (colType = "text") then Some strcmp
  else if decide (colType = "integer") then Some numcmp
  else if decide (colType = "real") then Some numcmp
  else None.

(** A value comparator as looked up in [cmpFnMap]: calling the
    [undefined] that an unknown column type yields throws. *)
Definition ValCmpFn := Prim → Prim → Res Prim.

Definition lookup_cmpFn (colType : string) : ValCmpFn :=
  match cmpFnMap colType with
  | Some f => λ va vb, Ok (f va vb)
  | None => λ _ _, Throw TypeError
  end.

Definition RowCmpFn := Row → Row → Res Prim.

Definition mkRowCompFn (valCmpFn : ValCmpFn) (idx : option nat) (nextFunc : RowCmpFn)
  : RowCmpFn :=
  λ rowa rowb,
    let va := row_get rowa idx in
    let vb := row_get rowb idx in
    ret ← valCmpFn va vb;
    if strict_eq ret (PNum 0) then nextFunc rowa rowb else Ok ret.

Definition reverseArgs (cfn : ValCmpFn) : ValCmpFn := λ v1 v2, cfn v2 v1.

(** The loop runs from the last key to the first, wrapping the comparator
    built so far: a right fold over the keys. *)
Definition compileSortFunc (schema : Schema) (keys : list (string * bool))
  : Res RowCmpFn :=
  foldr (λ (key : string * bool) (acc : Res RowCmpFn),
           rowCmpFn ← acc;
           let colId := key.1 in
           let asc := key.2 in
           let idx := columnIndex schema colId in
           colType ← columnType schema colId;
           let valCmpFn := lookup_cmpFn colType in
           let valCmpFn := if asc then valCmpFn else reverseArgs valCmpFn in
           Ok (mkRowCompFn valCmpFn idx rowCmpFn))
        (Ok (λ _ _, Ok (PNum 0))) keys.

(** [sortImpl] copies the row array and sorts the copy in place.  To
    state what happens to the input's array, row arrays live in a heap
    and a table refers to its array by location. *)
Definition ArrayHeap := list (list Row).

Record TableRef := mkTableRef {
  ref_schema : Schema;
  ref_rowData : nat
}.


(** [Array.prototype.sort] is the engine's; it is a parameter
    [Array_sort] of [sortImpl], called with the comparator and the
    contents of the array, and returning the new contents. *)
Definition sortImpl (Array_sort : RowCmpFn → list Row → Res (list Row))
    (sortKeys : list (string * bool)) (h : ArrayHeap) (subTables : list TableRef)
  : Res (ArrayHeap * TableRef) :=
  tableData ← first_table subTables;
  rsf ← compileSortFunc (ref_schema tableData) sortKeys;
  rows ← match h !! ref_rowData tableData with
         | Some rows => Ok rows
         | None => Throw TypeError
         end;
  let outRows := length h in
  let h1 := h ++ [rows] in
  sorted ← Array_sort rsf rows;
  Ok (<[outRows := sorted]> h1, mkTableRef (ref_schema tableData) outRows).

(** *** What ECMAScript promises of [Array.prototype.sort]

    The sort reads a comparator result [v] as a number, [NaN] counting as
    zero: negative puts the first argument first, positive the second. *)
Definition cmp_value (v : Prim) : Z := default 0 (ToNumber v).

Definition order_of (cmp : RowCmpFn) (a b : Row) : comparison :=
  match cmp a b with
  | Ok v => (cmp_value v ?= 0)%Z
  | Throw _ => Eq
  end.

(** A consistent comparator on the elements of [l]: it returns normally,
    and the relations "compares equal", "compares less" and "compares
    greater" it induces are reflexive, symmetric and transitive as the
    language specification lists them. *)
Record consistent_comparator (cmp : RowCmpFn) (l : list Row) : Prop := {
  cc_total : ∀ a b, a ∈ l → b ∈ l → ∃ v, cmp a b = Ok v;
  cc_refl : ∀ a, a ∈ l → order_of cmp a a = Eq;
  cc_sym : ∀ a b, a ∈ l → b ∈ l → order_of cmp a b = Eq → order_of cmp b a = Eq;
  cc_trans_eq : ∀ a b c, a ∈ l → b ∈ l → c ∈ l →
    order_of cmp a b = Eq → order_of cmp b c = Eq → order_of cmp a c = Eq;
  cc_trans_lt : ∀ a b c, a ∈ l → b ∈ l → c ∈ l →
    order_of cmp a b = Lt → order_of cmp b c = Lt → order_of cmp a c = Lt;
  cc_trans_gt : ∀ a b c, a ∈ l → b ∈ l → c ∈ l →
    order_of cmp a b = Gt → order_of cmp b c = Gt → order_of cmp a c = Gt
}.

(** [l'] is [l] sorted by [ord], stably: a permutation in which no
    element is followed by one that compares less, and in which the
    elements that compare equal to any given one keep their order. *)
Definition stable_sort_of (ord : Row → Row → comparison) (l l' : list Row) : Prop :=
  l ≡ₚ l' ∧
  (∀ i j a b, (i < j)%nat → l' !! i = Some a → l' !! j = Some b → ord a b ≠ Gt) ∧
  (∀ x, x ∈ l → filter (λ y, ord x y = Eq) l' = filter (λ y, ord x y = Eq) l).

Definition sort_contract (Array_sort : RowCmpFn → list Row → Res (list Row)) : Prop :=
  ∀ cmp l, consistent_comparator cmp l →
    ∃ l', Array_sort cmp l = Ok l' ∧ stable_sort_of (order_of cmp) l l'.

(** An engine that meets the contract: insertion from the right, a row
    going before the first row it does not compare greater than. *)
Fixpoint insert_row (cmp : RowCmpFn) (x : Row) (s : list Row) : Res (list Row) :=
  match s with
  | [] => Ok [x]
  | y :: s' =>
      v ← cmp x y;
      if (cmp_value v <=? 0)%Z then Ok (x :: y :: s')
      else r ← insert_row cmp x s'; Ok (y :: r)
  end.

Fixpoint insertion_sort (cmp : RowCmpFn) (l : list Row) : Res (list Row) :=
  match l with
  | [] => Ok []
  | x :: l' => s ← insertion_sort cmp l'; insert_row cmp x s
  end.

(** *** The order the compiled comparator implements *)

Definition cell_compare (va vb : Prim) : comparison :=
  match va, vb with
  | PStr s1, PStr s2 => String.compare s1 s2
  | _, _ => (default 0 (ToNumber va) ?= default 0 (ToNumber vb))%Z
  end.

Definition key_compare (schema : Schema) (key : string * bool) (a b : Row) : comparison :=
  let idx := columnIndex schema key.1 in
  let r := cell_compare (row_get a idx) (row_get b idx) in
  if key.2 then r else CompOpp r.

(** Lexicographic: the first key on which the rows differ decides. *)
Fixpoint row_compare (schema : Schema) (keys : list (string * bool)) (a b : Row)
  : comparison :=
  match keys with
  | [] => Eq
  | key :: keys' =>
      match key_compare schema key a b with
      | Eq => row_compare schema keys' a b
      | r => r
      end
  end.

(** A cell fits its column's declared type: a string in a text column, a
    value with a numeric reading in an integer or real column. *)
Definition cell_typed (colType : string) (v : Prim) : Prop :=
  (colType = "text" ∧ ∃ s, v = PStr s) ∨
  ((colType = "integer" ∨ colType = "real") ∧ is_Some (ToNumber v)).

Definition key_typed (schema : Schema) (key : string * bool) (r : Row) : Prop :=
  ∃ m, columnMetadata schema !! key.1 = Some m ∧
       cell_typed (type m) (row_get r (columnIndex schema key.1)).

Definition row_typed (schema : Schema) (keys : list (string * bool)) (r : Row) : Prop :=
  Forall (λ key, key_typed schema key r) keys.

(** A comparison that is a total preorder on the domain [D]. *)
Record preorder_cmp {A} (D : A → Prop) (f : A → A → comparison) : Prop := {
  pc_opp : ∀ a b, D a → D b → f b a = CompOpp (f a b);
  pc_trans : ∀ a b c, D a → D b → D c → f a b ≠ Gt → f b c ≠ Gt → f a c ≠ Gt
}.

(** Every sort key names a column that the schema has metadata for. *)
Definition keys_known (s : Schema) (keys : list (string * bool)) : Prop :=
  Forall (λ key : string * bool, is_Some (columnMetadata s !! key.1)) keys.

(** [a] may come before [b]. *)
Definition not_after (ord : Row → Row → comparison) (a b : Row) : Prop :=
  ord a b ≠ Gt.

(** The sorting example of the spec: keys (col1 ascending, col2
    descending), with rows that agree on both. *)
Definition example_sort_schema : Schema :=
  mkSchema ["col1"; "col2"; "tag"]
    (<["col1" := mkColumnMetadata "text" None]>
       (<["col2" := mkColumnMetadata "integer" None]>
          (<["tag" := mkColumnMetadata "text" None]> ∅))).

Definition example_sort_rows : list Row :=
  [ [PStr "b"; PNum 1; PStr "r0"];
    [PStr "a"; PNum 1; PStr "r1"];
    [PStr "a"; PNum 2; PStr "r2"];
    [PStr "a"; PNum 1; PStr "r3"];
    [PStr "b"; PNum 1; PStr "r4"] ].

Definition example_sort_keys : list (string * bool) :=
  [("col1", true); ("col2", false)].

(** ** Promises

    A promise is identified by a handle into a heap of promise objects;
    what it settles to is computed afterwards from the heap ([settle]).
    Objects used as dictionaries are modelled by their own properties:
    names inherited from [Object.prototype] used as table names,
    operator tags or column types are outside the model. *)

Inductive Settled (A : Type) :=
  | Fulfilled (v : A)
  | Rejected (e : JsError)
  | Pending.
Arguments Fulfilled {A} v.
Arguments Rejected {A} e.
Arguments Pending {A}.

(** The value a table promise is fulfilled with: a table, or [undefined]. *)
Abbreviation TableVal := (option TableRep).
Abbreviation Outcome := (Settled (option TableRep)).

(** ** Loading tables *)

(** The payload [[schemaData, {rowData}]] that [fetch] delivers. *)
Record JsonTable := mkJsonTable {
  json_columns : list string;
  json_columnMetadata : gmap string ColumnMetadata;
  json_rowData : list Row
}.

(** [fetch] is the network: for each URL the promise it returns is
    fulfilled with a payload of the expected shape ([Some]) or of another
    shape ([None]), is rejected, or stays pending. *)
Definition Fetch := string → Settled (option JsonTable).

(** What the promise returned by [loadTable] settles to.  The rejection
    handler logs the error and returns nothing, which fulfils the promise
    with [undefined]. *)
Definition loadTable (fetch : Fetch) (tableName : string) : Outcome :=
  match fetch tableName with
  | Fulfilled (Some jsonData) =>
      let schema := mkSchema (json_columns jsonData) (json_columnMetadata jsonData) in
      Fulfilled (Some (mkTableRep schema (json_rowData jsonData)))
  | Fulfilled None => Rejected TypeError
  | Rejected error => Fulfilled None
  | Pending => Pending
  end.

(** ** Query expressions *)

(** Modelled from the spec: the [QueryExp] class of the [reltab] module,
    an operator tag, the literal arguments [valArgs] and the child
    expressions [tableArgs]. *)
Inductive QueryExp :=
  | mkQueryExp (operator : string) (valArgs : list JsVal) (tableArgs : list QueryExp).

Definition operator (q : QueryExp) : string :=
  match q with mkQueryExp o _ _ => o end.
Definition valArgs (q : QueryExp) : list JsVal :=
  match q with mkQueryExp _ vs _ => vs end.
Definition tableArgs (q : QueryExp) : list QueryExp :=
  match q with mkQueryExp _ _ ts => ts end.

(** The promise objects the engine creates: the one [loadTable] returns
    for a table name, and the [Promise.all(subTables).then(...)] of an
    interior node, whose callback applies [evalInteriorExp] to [e].  The
    value number [tableId] the latter was created for is kept for
    reference. *)
Inductive PromiseNode :=
  | PLoad (tableName : string)
  | PAllThen (tableId : nat) (subTables : list nat) (e : QueryExp).

(** The module-level state: [tableCache] and the promises created so far. *)
Record World := mkWorld {
  tableCache : gmap string nat;
  promiseHeap : list PromiseNode
}.

Definition alloc (nd : PromiseNode) (w : World) : nat * World :=
  (length (promiseHeap w), mkWorld (tableCache w) (promiseHeap w ++ [nd])).

Definition tableRefImpl (tableName : JsVal) (w : World) : nat * World :=
  let key := JsVal_toString tableName in
  match tableCache w !! key with
  | Some tcp => (tcp, w)
  | None =>
      let '(tcp, w1) := alloc (PLoad key) w in
      (tcp, mkWorld (<[key := tcp]> (tableCache w1)) (promiseHeap w1))
  end.

(** [baseOpImplMap] has the single entry [table]. *)
Definition evalBaseExp (e : QueryExp) (w : World) : Res (nat * World) :=
  if decide (operator e = "table") then
    Ok (tableRefImpl (default (JPrim PUndefined) (head (valArgs e))) w)
  else
    Throw (Error ("evalBaseExp: unknown primitive table operator "
                  +:+ dquote +:+ operator e +:+ dquote)).

(** ** The common-subexpression evaluator *)

Record NumberedExp := mkNumberedExp {
  exp : QueryExp;
  tableNums : list nat
}.

Record CSEEvaluator := mkCSEEvaluator {
  invMap : gmap string nat;
  valExps : list NumberedExp;
  promises : gmap nat nat
}.

Definition new_CSEEvaluator : CSEEvaluator := mkCSEEvaluator ∅ [] ∅.

Definition expKey (operator : string) (tableNums : list nat) (valArgs : list JsVal)
  : string :=
  operator +:+ "( [ " +:+ nums_toString tableNums +:+ " ], "
           +:+ stringify_array valArgs +:+ " )".

Fixpoint buildCSEMap (query : QueryExp) (ev : CSEEvaluator) : nat * CSEEvaluator :=
  match query with
  | mkQueryExp operator valArgs tableArgs =>
      let '(tableNums, ev1) :=
        (fix map_build (es : list QueryExp) (ev : CSEEvaluator)
           : list nat * CSEEvaluator :=
           match es with
           | [] => ([], ev)
           | e :: es' =>
               let '(n, ev') := buildCSEMap e ev in
               let '(ns, ev'') := map_build es' ev' in
               (n :: ns, ev'')
           end) tableArgs ev in
      let expKey := expKey operator tableNums valArgs in
      match invMap ev1 !! expKey with
      | Some valNum => (valNum, ev1)
      | None =>
          let numExp := mkNumberedExp query tableNums in
          let valNum := length (valExps ev1) in
          (valNum,
           mkCSEEvaluator (<[expKey := valNum]> (invMap ev1))
                          (valExps ev1 ++ [numExp]) (promises ev1))
      end
  end.

(** [query.tableArgs.map(e => this.buildCSEMap(e))] *)
Fixpoint buildCSEMap_list (es : list QueryExp) (ev : CSEEvaluator)
  : list nat * CSEEvaluator :=
  match es with
  | [] => ([], ev)
  | e :: es' =>
      let '(n, ev') := buildCSEMap e ev in
      let '(ns, ev'') := buildCSEMap_list es' ev' in
      (n :: ns, ev'')
  end.

(** The same traversal, also listing every call of [buildCSEMap] with
    the value number it returned, in order of return. *)
Fixpoint buildCSEMap_log (query : QueryExp) (ev : CSEEvaluator)
  : nat * CSEEvaluator * list (QueryExp * nat) :=
  match query with
  | mkQueryExp operator valArgs tableArgs =>
      let '(tableNums, ev1, log) :=
        (fix map_build (es : list QueryExp) (ev : CSEEvaluator)
           : list nat * CSEEvaluator * list (QueryExp * nat) :=
           match es with
           | [] => ([], ev, [])
           | e :: es' =>
               let '(n, ev', log1) := buildCSEMap_log e ev in
               let '(ns, ev'', log2) := map_build es' ev' in
               (n :: ns, ev'', log1 ++ log2)
           end) tableArgs ev in
      let expKey := expKey operator tableNums valArgs in
      match invMap ev1 !! expKey with
      | Some valNum => (valNum, ev1, log ++ [(query, valNum)])
      | None =>
          let numExp := mkNumberedExp query tableNums in
          let valNum := length (valExps ev1) in
          (valNum,
           mkCSEEvaluator (<[expKey := valNum]> (invMap ev1))
                          (valExps ev1 ++ [numExp]) (promises ev1),
           log ++ [(query, valNum)])
      end
  end.

Fixpoint buildCSEMap_log_list (es : list QueryExp) (ev : CSEEvaluator)
  : list nat * CSEEvaluator * list (QueryExp * nat) :=
  match es with
  | [] => ([], ev, [])
  | e :: es' =>
      let '(n, ev', log1) := buildCSEMap_log e ev in
      let '(ns, ev'', log2) := buildCSEMap_log_list es' ev' in
      (n :: ns, ev'', log1 ++ log2)
  end.

(** *** evalTable

    The evaluator and the module state are threaded through; a call may
    throw, and the recursion through [tableNums] is bounded by fuel
    ([None]: fuel exhausted). *)
Definition EvalState : Type := CSEEvaluator * World.

Definition Eval (A : Type) : Type := EvalState → option (Res A * EvalState).

Definition eval_ret {A} (a : A) : Eval A := λ st, Some (Ok a, st).

Definition eval_bind {A B} (m : Eval A) (k : A → Eval B) : Eval B :=
  λ st,
    match m st with
    | None => None
    | Some (Throw e, st') => Some (Throw e, st')
    | Some (Ok a, st') => k a st'
    end.

Global Instance Eval_ret : MRet Eval := @eval_ret.
Global Instance Eval_bind : MBind Eval := λ A B k m, eval_bind m k.

(** [l.map(f)] for an [f] that runs in the evaluator. *)
Fixpoint eval_map {A B} (f : A → Eval B) (l : list A) : Eval (list B) :=
  match l with
  | [] => eval_ret []
  | x :: l' => y ← f x; ys ← eval_map f l'; eval_ret (y :: ys)
  end.

Definition set_promise (tableId resp : nat) (ev : CSEEvaluator) : CSEEvaluator :=
  mkCSEEvaluator (invMap ev) (valExps ev) (<[tableId := resp]> (promises ev)).

(** [Promise.all(subTables).then(...)]: a new promise object. *)
Definition new_promise (nd : PromiseNode) : Eval nat :=
  λ st, let '(resp, w1) := alloc nd st.2 in Some (Ok resp, (st.1, w1)).

Definition call_evalBaseExp (e : QueryExp) : Eval nat :=
  λ st,
    match evalBaseExp e st.2 with
    | Throw err => Some (Throw err, st)
    | Ok (resp, w1) => Some (Ok resp, (st.1, w1))
    end.

(** [this.promises[tableId] = resp; return resp] *)
Definition store_promise (tableId resp : nat) : Eval nat :=
  λ st, Some (Ok resp, (set_promise tableId resp st.1, st.2)).

Fixpoint evalTable (fuel : nat) (tableId : nat) : Eval nat :=
  match fuel with
  | O => λ _, None
  | S fuel' => λ st,
      match promises st.1 !! tableId with
      | Some resp => Some (Ok resp, st)
      | None =>
          match valExps st.1 !! tableId with
          | None => Some (Throw TypeError, st)
          | Some numExp =>
              (resp ←
                 (if bool_decide (0 < length (tableNums numExp))%nat then
                    subTables ← eval_map (evalTable fuel') (tableNums numExp);
                    new_promise (PAllThen tableId subTables (exp numExp))
                  else
                    call_evalBaseExp (exp numExp));
               store_promise tableId resp) st
          end
      end
  end.

(** [localEvalQuery]: a fresh evaluator per query.  The fuel is the
    number of numbered expressions, which bounds the depth. *)
Definition localEvalQuery (query : QueryExp) (w : World)
  : option (Res nat * EvalState) :=
  let evaluator := new_CSEEvaluator in
  let '(tableId, evaluator) := buildCSEMap query evaluator in
  evalTable (length (valExps evaluator)) tableId (evaluator, w).

(** *** Settling the promises

    [simpleOpImplMap] maps an operator tag to its implementation, which
    is applied to the literal arguments and then to the child tables. *)
Definition OpImplMap : Type :=
  string → option (list JsVal → list TableVal → Res TableRep).

Definition evalInteriorExp (simpleOpImplMap : OpImplMap) (e : QueryExp)
    (subTables : list TableVal) : Res TableRep :=
  match simpleOpImplMap (operator e) with
  | None =>
      Throw (Error ("reltab query evaluation: unsupported operator "
                    +:+ dquote +:+ operator e +:+ dquote))
  | Some opImpl => opImpl (valArgs e) subTables
  end.

(** [Promise.all]: the values when every input is fulfilled, the reason
    of a rejected input otherwise (the first in argument order is taken
    here), pending while none is rejected and one is pending.  A handle
    that names no promise never settles. *)
Fixpoint promise_all (outs : list Outcome) (subTables : list nat)
  : Settled (list TableVal) :=
  match subTables with
  | [] => Fulfilled []
  | p :: ps =>
      match default Pending (outs !! p), promise_all outs ps with
      | Rejected e, _ => Rejected e
      | _, Rejected e => Rejected e
      | Fulfilled v, Fulfilled vs => Fulfilled (v :: vs)
      | _, _ => Pending
      end
  end.

Definition settle_node (fetch : Fetch) (simpleOpImplMap : OpImplMap)
    (outs : list Outcome) (nd : PromiseNode) : Outcome :=
  match nd with
  | PLoad tableName => loadTable fetch tableName
  | PAllThen _ subTables e =>
      match promise_all outs subTables with
      | Fulfilled tvals =>
          match evalInteriorExp simpleOpImplMap e tvals with
          | Ok tres => Fulfilled (Some tres)
          | Throw err => Rejected err
          end
      | Rejected err => Rejected err
      | Pending => Pending
      end
  end.

(** The outcome of every promise of the heap, by handle. *)
Definition settle (fetch : Fetch) (simpleOpImplMap : OpImplMap)
    (heap : list PromiseNode) : list Outcome :=
  foldl (λ outs nd, outs ++ [settle_node fetch simpleOpImplMap outs nd]) [] heap.


(** What the caller of [localEvalQuery] observes: an exception, or the
    outcome of the promise returned. *)
Definition observe (fetch : Fetch) (simpleOpImplMap : OpImplMap)
    (r : option (Res nat * EvalState)) : option (Res Outcome) :=
  match r with
  | None => None
  | Some (Throw e, _) => Some (Throw e)
  | Some (Ok p, st) =>
      Some (Ok (default Pending
                  (settle fetch simpleOpImplMap (promiseHeap st.2) !! p)))
  end.

(** *** A dispatch table

    The entries of [simpleOpImplMap] for [project] and [concat], reading
    their literal arguments from JavaScript values.  Calls whose literal
    arguments do not have the declared type are outside the model and
    are represented by a [TypeError]. *)
Definition decode_strings (v : JsVal) : option (list string) :=
  match v with
  | JArr elems =>
      mapM (λ x, match x with JPrim (PStr s) => Some s | _ => None end) elems
  | _ => None
  end.

(** Modelled from the spec: [Schema.compatCheck], which accepts a schema
    describing the same columns, with the same types, as this one, and
    throws otherwise. *)
Definition compatCheck (sa sb : Schema) : Res unit :=
  if decide (columns sa = columns sb ∧
             Forall (λ c, type <$> columnMetadata sa !! c = type <$> columnMetadata sb !! c)
                    (columns sa))
  then Ok () else Throw (Error "incompatible schema").

(** The tables an operator reads must not be [undefined]. *)
Fixpoint defined_tables (subTables : list TableVal) : Res (list TableRep) :=
  match subTables with
  | [] => Ok []
  | Some t :: rest => ts ← defined_tables rest; Ok (t :: ts)
  | None :: _ => Throw TypeError
  end.

Definition project_concat_OpImplMap : OpImplMap :=
  λ operator,
    if decide (operator = "project") then
      Some (λ valArgs subTables,
              match decode_strings <$> head valArgs, head subTables with
              | Some (Some projectCols), Some (Some t) => projectImpl projectCols [t]
              | _, _ => Throw TypeError
              end)
    else if decide (operator = "concat") then
      Some (λ valArgs subTables,
              ts ← defined_tables subTables; concatImpl compatCheck ts)
    else None.

(** Example queries. *)
Definition table_query (name : string) : QueryExp :=
  mkQueryExp "table" [JPrim (PStr name)] [].

Definition project_query (cols : list string) (q : QueryExp) : QueryExp :=
  mkQueryExp "project" [JArr ((λ c, JPrim (PStr c)) <$> cols)] [q].

Definition extend_query (colId : string) (colType : string) (ev : JsVal) (q : QueryExp)
  : QueryExp :=
  mkQueryExp "extend"
    [JPrim (PStr colId); JObj [("type", JPrim (PStr colType))]; ev] [q].

Definition concat_query (q1 q2 : QueryExp) : QueryExp :=
  mkQueryExp "concat" [] [q1; q2].

(** A diamond: the same projection of the same table, twice. *)
Definition example_diamond : QueryExp :=
  concat_query (project_query ["k"] (table_query "t"))
               (project_query ["k"] (table_query "t")).

(** Two extensions of one table that differ only in the generator. *)
Definition example_two_generators : QueryExp :=
  concat_query
    (extend_query "c" "integer" (JFun 1 "row => row.v + 1") (table_query "t"))
    (extend_query "c" "integer" (JFun 2 "row => row.v * 2") (table_query "t")).

Definition empty_World : World := mkWorld ∅ [].

(** A network that serves the grouping example's table as [t] and fails
    for every other name. *)
Definition example_fetch : Fetch :=
  λ url,
    if decide (url = "t") then
      Fulfilled (Some (mkJsonTable (columns (schema example_groupBy_input))
                                   (columnMetadata (schema example_groupBy_input))
                                   (rowData example_groupBy_input)))
    else Rejected (Error "404").

(** *** Notions used to state the evaluator's properties *)

(** [e] occurs in [q], at the root or below. *)
Inductive subexp (e : QueryExp) : QueryExp → Prop :=
  | subexp_refl : subexp e e
  | subexp_arg operator valArgs tableArgs q :
      q ∈ tableArgs → subexp e q → subexp e (mkQueryExp operator valArgs tableArgs).

(** [n] is the value number that the signature map of [ev] gives [q],
    its children being numbered the same way. *)
Inductive numbered (ev : CSEEvaluator) : QueryExp → nat → Prop :=
  | numbered_intro operator valArgs tableArgs tableNums valNum :
      Forall2 (numbered ev) tableArgs tableNums →
      invMap ev !! expKey operator tableNums valArgs = Some valNum →
      numbered ev (mkQueryExp operator valArgs tableArgs) valNum.

(** The signature under which a numbered expression is recorded. *)
Definition key_of (numExp : NumberedExp) : string :=
  expKey (operator (exp numExp)) (tableNums numExp) (valArgs (exp numExp)).

(** The evaluator's tables are consistent: a signature maps to an entry
    recorded under that signature, and an entry refers to earlier
    entries only. *)
Record cse_wf (ev : CSEEvaluator) : Prop := {
  wf_invMap : ∀ k n, invMap ev !! k = Some n →
    ∃ numExp, valExps ev !! n = Some numExp ∧ key_of numExp = k;
  wf_valExps : ∀ n numExp, valExps ev !! n = Some numExp →
    Forall (λ c, c < n)%nat (tableNums numExp)
}.

(** The evaluator has only grown. *)
Definition cse_le (ev ev' : CSEEvaluator) : Prop :=
  invMap ev ⊆ invMap ev' ∧ valExps ev `prefix_of` valExps ev' ∧
  promises ev = promises ev'.

(** The module state is well formed: the cache holds handles of existing
    promises, and a [Promise.all] waits on promises created before it. *)
Record world_wf (w : World) : Prop := {
  wf_cache : ∀ k h, tableCache w !! k = Some h → (h < length (promiseHeap w))%nat;
  wf_heap : ∀ h n subs e, promiseHeap w !! h = Some (PAllThen n subs e) →
    Forall (λ p, p < h)%nat subs
}.

(** What holds of the evaluator between two calls of [evalTable], for an
    evaluation that started when the heap had [len0] promises: the
    memoized promise of a value number is the one promise created for it,
    over the memoized promises of its children. *)
Record eval_inv (len0 : nat) (st : EvalState) : Prop := {
  inv_valExps : ∀ n numExp, valExps st.1 !! n = Some numExp →
    Forall (λ c, c < n)%nat (tableNums numExp);
  inv_world : world_wf st.2;
  inv_len : (len0 ≤ length (promiseHeap st.2))%nat;
  inv_promises : ∀ n h, promises st.1 !! n = Some h →
    (h < length (promiseHeap st.2))%nat ∧
    ∃ numExp subs,
      valExps st.1 !! n = Some numExp ∧
      Forall2 (λ c p, promises st.1 !! c = Some p) (tableNums numExp) subs ∧
      (tableNums numExp ≠ [] →
         (len0 ≤ h)%nat ∧
         promiseHeap st.2 !! h = Some (PAllThen n subs (exp numExp)));
  inv_created : ∀ h n subs e, (len0 ≤ h)%nat →
    promiseHeap st.2 !! h = Some (PAllThen n subs e) →
    promises st.1 !! n = Some h
}.

(** A later state of the same evaluation. *)
Record eval_le (st st' : EvalState) : Prop := {
  le_invMap : invMap st'.1 = invMap st.1;
  le_valExps : valExps st'.1 = valExps st.1;
  le_promises : promises st.1 ⊆ promises st'.1;
  le_heap : promiseHeap st.2 `prefix_of` promiseHeap st'.2;
  le_cache : tableCache st.2 ⊆ tableCache st'.2
}.

(** The table cache is exact: a name is cached exactly when a load
    promise for it exists, and the cached handle is that promise.  So no
    name has two load promises. *)
Definition cache_exact (w : World) : Prop :=
  ∀ k h, tableCache w !! k = Some h ↔ promiseHeap w !! h = Some (PLoad k).

(** [c] occurs in [s]. *)
Fixpoint occurs (c : ascii) (s : string) : bool :=
  match s with
  | EmptyString => false
  | String a s' => if Ascii.eqb a c then true else occurs c s'
  end.

Definition is_digit (c : ascii) : bool :=
  (48 <=? N_of_ascii c)%N && (N_of_ascii c <=? 57)%N.

Fixpoint all_digits (s : string) : bool :=
  match s with
  | EmptyString => true
  | String a s' => is_digit a && all_digits s'
  end.


(** ** Notions used to state further properties of the operators *)

(** A value expression refers only to columns of the schema. *)
Definition known_valexp (s : Schema) (vexp : ValExp) : bool :=
  match vexp with
  | ColRef colName => bool_decide (is_Some (columnIndex s colName))
  | ConstVal _ => true
  end.

(** A sub-expression the compiler accepts: conjunctions only, of
    comparisons over columns of the schema. *)
Fixpoint compilable (s : Schema) (se : SubExp) : bool :=
  match se with
  | SRelExp _ lhs rhs => known_valexp s lhs && known_valexp s rhs
  | SFilterExp o args =>
      bool_decide (o = "AND") &&
      (fix all_compilable (l : list SubExp) : bool :=
         match l with
         | [] => true
         | a :: l' => compilable s a && all_compilable l'
         end) args
  | SUnknown _ => false
  end.

(** The comparison on integers that a relational operator stands for. *)
Definition relop_Z (o : RelOp) (x y : Z) : bool :=
  match o with
  | EQ => (x =? y)%Z
  | GT => (y <? x)%Z
  | GE => (y <=? x)%Z
  | LE => (x <=? y)%Z
  | LT => (x <? y)%Z
  end.

(** * The filter editor (components/FilterEditor.js)

    The state of the component and its event handlers, as functions on
    the state.  [setState] replaces the fields it is given; rendering is
    reduced to the list of rows with their React keys, and the scheduling
    of state updates is not modelled. *)

(** An element of the [opArgs] array: a hole left by [delete], [null] for
    a row not filled in yet, or a sub-expression. *)
Inductive Slot :=
  | SlotHole
  | SlotNull
  | SlotExp (re : SubExp).

Record FilterEditorState := mkFilterEditorState {
  state_op : string;
  state_opArgs : list Slot
}.

(** The constructor: the expression given in the props, or an [AND] with
    one empty row. *)
Definition FilterEditor_new (filterExp : option FilterExp) : FilterEditorState :=
  match filterExp with
  | Some fe => mkFilterEditorState (op fe) (SlotExp <$> opArgs fe)
  | None => mkFilterEditorState "AND" [SlotNull]
  end.

(** [opArgs.map(...)]: one row per element that is not a hole, with its
    key ['fe-row-' + idx] and the [relExp] it shows. *)
Definition renderFilterRows (s : FilterEditorState) : list (string * Slot) :=
  omap id
    (imap (λ idx re,
             match re with
             | SlotHole => None
             | _ => Some ("fe-row-" +:+ pretty idx, re)
             end) (state_opArgs s)).

(** [opArgs.concat(null)] *)
Definition handleAddRow (s : FilterEditorState) : FilterEditorState :=
  mkFilterEditorState (state_op s) (state_opArgs s ++ [SlotNull]).

(** [delete opArgs[idx]] on a copy: a hole at [idx], nothing at an index
    past the end. *)
Definition handleDeleteRow (idx : nat) (s : FilterEditorState) : FilterEditorState :=
  mkFilterEditorState (state_op s) (<[idx := SlotHole]> (state_opArgs s)).

Definition handleOpChange (op : string) (s : FilterEditorState) : FilterEditorState :=
  mkFilterEditorState op (state_opArgs s).

(** [opArgs[idx] = re] on a copy; an index past the end extends the array
    with holes. *)
Definition handleUpdateRow (idx : nat) (re : SubExp) (s : FilterEditorState)
  : FilterEditorState :=
  let prevArgs := state_opArgs s in
  mkFilterEditorState (state_op s)
    (if decide (idx < length prevArgs)%nat then <[idx := SlotExp re]> prevArgs
     else prevArgs ++ replicate (idx - length prevArgs) SlotHole ++ [SlotExp re]).

(** The expression [handleApply] hands to [props.onApply]:
    [opArgs.filter(r => r != null)] skips holes and drops [null]. *)
Definition handleApply (s : FilterEditorState) : FilterExp :=
  let nnOpArgs :=
    omap (λ r, match r with SlotExp re => Some re | _ => None end) (state_opArgs s) in
  mkFilterExp (state_op s) nnOpArgs.

(** * Properties *)

(** ** project *)

Lemma index_of_lookup (cols : list string) (i : nat) (c : string) :
  NoDup cols → cols !! i = Some c → index_of c cols = Some i.
Proof.
  intros Hnd. revert i. induction Hnd as [|x l Hx Hnd IH]; intros i Hi; [done|].
  destruct i as [|i]; simpl in *.
  - simplify_eq. by rewrite decide_True.
  - rewrite decide_False.
    + by rewrite (IH i Hi).
    + intros ->. apply Hx. by eapply list_elem_of_lookup_2.
Qed.

Lemma mapM_res_ok {A B} (f : A → Res B) (g : A → B) (l : list A) :
  (∀ x, x ∈ l → f x = Ok (g x)) → mapM_res f l = Ok (g <$> l).
Proof.
  induction l as [|x l IH]; intros Hf; [done|]. simpl.
  rewrite Hf by set_solver. simpl. rewrite IH by set_solver. done.
Qed.

Lemma calcProjectionPermutation_ok (s : Schema) (cols : list string) :
  (∀ c, c ∈ cols → is_Some (columnMetadata s !! c)) →
  calcProjectionPermutation s cols = Ok (columnIndex s <$> cols).
Proof.
  intros Hmd. apply mapM_res_ok. intros c Hc.
  by destruct (Hmd c Hc) as [m ->].
Qed.

Lemma columnIndex_columns (s : Schema) :
  NoDup (columns s) →
  columnIndex s <$> columns s = Some <$> seq 0 (length (columns s)).
Proof.
  intros Hnd. apply list_eq. intros i. rewrite !list_lookup_fmap.
  destruct (columns s !! i) as [c|] eqn:Hc; simpl.
  - rewrite lookup_seq_lt by (by eapply lookup_lt_Some). simpl.
    f_equal. by apply index_of_lookup.
  - rewrite lookup_seq_ge; [done|]. by apply lookup_ge_None.
Qed.

Lemma permute_seq (row : Row) :
  permute row (Some <$> seq 0 (length row)) = row.
Proof.
  apply list_eq. intros i. unfold permute. rewrite !list_lookup_fmap.
  destruct (row !! i) as [v|] eqn:Hv.
  - rewrite lookup_seq_lt by (by eapply lookup_lt_Some). simpl. by rewrite Hv.
  - rewrite lookup_seq_ge; [done|]. by apply lookup_ge_None.
Qed.

(** C7: projecting a well-formed table onto its own column list, in the
    existing order, returns that table: same schema, same row data. *)
Theorem project_all_columns_identity (t : TableRep) :
  table_wf t → projectImpl (columns (schema t)) [t] = Ok t.
Proof.
  intros [[Hnd Hmd] Hrows]. unfold projectImpl. simpl.
  rewrite calcProjectionPermutation_ok by done. simpl.
  rewrite columnIndex_columns by done.
  destruct t as [[cols md] rows]. simpl in *. do 2 f_equal.
  induction Hrows as [|r rows Hr _ IH]; [done|].
  rewrite fmap_cons, IH. f_equal. rewrite <- Hr. apply permute_seq.
Qed.

(** ** groupBy *)

Lemma first_occurrences_elem (l : list string) (k : string) :
  k ∈ first_occurrences l ↔ k ∈ l.
Proof.
  induction l as [|x l IH]; simpl; [done|].
  rewrite !elem_of_cons, list_elem_of_filter, IH.
  destruct (decide (k = x)); naive_solver.
Qed.

Lemma first_occurrences_NoDup (l : list string) : NoDup (first_occurrences l).
Proof.
  induction l as [|x l IH]; simpl; [constructor|].
  constructor.
  - rewrite list_elem_of_filter. naive_solver.
  - by apply NoDup_filter.
Qed.

Lemma first_occurrences_snoc (l : list string) (k : string) :
  first_occurrences (l ++ [k]) =
  if decide (k ∈ l) then first_occurrences l else first_occurrences l ++ [k].
Proof.
  induction l as [|x l IH]; simpl; [done|].
  rewrite IH. destruct (decide (k ∈ l)) as [Hin|Hin].
  - rewrite decide_True by set_solver. done.
  - rewrite filter_app. simpl. destruct (decide (k = x)) as [->|Hne].
    + rewrite decide_True by set_solver.
      rewrite filter_cons_False by naive_solver. simpl. by rewrite app_nil_r.
    + rewrite decide_False by set_solver.
      rewrite filter_cons_True by done. done.
Qed.

Section group_map.
Context (F : string → GroupRow).

Lemma gm_lookup_table (keys : list string) (k : string) :
  gm_lookup k (gm_table F keys) = if decide (k ∈ keys) then Some (F k) else None.
Proof.
  induction keys as [|x keys IH]; simpl; [done|].
  destruct (decide (x = k)) as [->|Hne].
  - by rewrite decide_True by set_solver.
  - rewrite IH. destruct (decide (k ∈ keys)).
    + by rewrite decide_True by set_solver.
    + by rewrite decide_False by set_solver.
Qed.

Lemma gm_table_ext (G : string → GroupRow) (keys : list string) :
  (∀ k, k ∈ keys → F k = G k) → gm_table F keys = gm_table G keys.
Proof.
  intros H. unfold gm_table. apply list_fmap_ext. intros i k Hk.
  rewrite H; [done|]. by eapply list_elem_of_lookup_2.
Qed.

Lemma gm_store_table (keys : list string) (k : string) (g : GroupRow) :
  NoDup keys →
  gm_store k g (gm_table F keys) =
  if decide (k ∈ keys)
  then gm_table (λ k', if decide (k' = k) then g else F k') keys
  else gm_table (λ k', if decide (k' = k) then g else F k') (keys ++ [k]).
Proof.
  induction 1 as [|x keys Hx Hnd IH].
  - cbn. rewrite decide_False by set_solver. cbn. by rewrite decide_True.
  - cbn. fold (gm_table F keys). destruct (decide (x = k)) as [->|Hne].
    + rewrite decide_True by set_solver. cbn.
      rewrite ?decide_True by done. f_equal.
      apply list_fmap_ext. intros i k' Hk'. rewrite decide_False; [done|].
      intros ->. apply Hx. by eapply list_elem_of_lookup_2.
    + rewrite IH. destruct (decide (k ∈ keys)).
      * rewrite decide_True by set_solver. cbn.
        by rewrite ?decide_False by done.
      * rewrite decide_False by set_solver. cbn.
        by rewrite ?decide_False by done.
Qed.
End group_map.

Section group_by.
Context (inSchema : Schema) (aggCols : list string).
Context (kp ap : list (option nat)) (accs0 : list AggAcc).
Hypothesis Haccs : mkAggAccs inSchema aggCols = Ok accs0.

Let step (gm : GroupMap) (r : Row) : GroupMap :=
  let k := row_key kp r in
  let g := default (permute r kp, accs0) (gm_lookup k gm) in
  gm_store k (g.1, feed (permute r ap) g.2) gm.

Let entry (rows : list Row) (k : string) : GroupRow :=
  let members := group_members kp rows k in
  (permute (default [] (head members)) kp,
   foldl (λ accs r, feed (permute r ap) accs) accs0 members).

Lemma groupBy_step_pure (gm : GroupMap) (r : Row) :
  groupBy_step inSchema aggCols kp ap gm r = Ok (step gm r).
Proof.
  unfold groupBy_step, step. fold (row_key kp r).
  destruct (gm_lookup (row_key kp r) gm) as [g|]; simpl; [done|].
  by rewrite Haccs.
Qed.

Lemma groupBy_fold_pure (rows : list Row) (gm : GroupMap) :
  foldM_res (groupBy_step inSchema aggCols kp ap) gm rows = Ok (foldl step gm rows).
Proof.
  revert gm. induction rows as [|r rows IH]; intros gm; simpl; [done|].
  rewrite groupBy_step_pure. simpl. apply IH.
Qed.

Lemma group_members_snoc (rows : list Row) (r : Row) (k : string) :
  group_members kp (rows ++ [r]) k =
  group_members kp rows k ++ (if decide (row_key kp r = k) then [r] else []).
Proof.
  unfold group_members. by rewrite filter_app.
Qed.

Lemma group_members_nil (rows : list Row) (k : string) :
  k ∉ row_key kp <$> rows → group_members kp rows k = [].
Proof.
  intros Hk. unfold group_members.
  induction rows as [|r rows IH]; [done|].
  rewrite fmap_cons, not_elem_of_cons in Hk. destruct Hk as [Hne Hk].
  rewrite filter_cons_False by done. by apply IH.
Qed.

Lemma group_members_cons (rows : list Row) (k : string) :
  k ∈ row_key kp <$> rows → ∃ r rs, group_members kp rows k = r :: rs.
Proof.
  intros Hk. apply list_elem_of_fmap in Hk as (r & -> & Hr).
  destruct (group_members kp rows (row_key kp r)) as [|r' rs] eqn:E; [|eauto].
  exfalso. assert (r ∈ group_members kp rows (row_key kp r)) as Hin.
  { unfold group_members. by apply list_elem_of_filter. }
  rewrite E in Hin. by apply not_elem_of_nil in Hin.
Qed.

Lemma groupBy_fold_table (rows : list Row) :
  foldl step [] rows =
  gm_table (entry rows) (first_occurrences (row_key kp <$> rows)).
Proof.
  induction rows as [|r rows IH] using rev_ind; [done|].
  rewrite foldl_snoc, IH, fmap_app. simpl. rewrite first_occurrences_snoc.
  unfold step. rewrite gm_lookup_table.
  rewrite gm_store_table by apply first_occurrences_NoDup.
  set (k := row_key kp r).
  destruct (decide (k ∈ row_key kp <$> rows)) as [Hin|Hin].
  - rewrite !decide_True by (by apply first_occurrences_elem).
    apply gm_table_ext. intros k' _. unfold entry.
    rewrite group_members_snoc. fold k.
    destruct (decide (k' = k)) as [->|Hne].
    + rewrite decide_True by done. simpl. rewrite foldl_snoc.
      destruct (group_members_cons rows k Hin) as (r0 & rs & ->). done.
    + rewrite decide_False by done. by rewrite app_nil_r.
  - rewrite !decide_False by (by rewrite first_occurrences_elem).
    simpl. unfold gm_table. rewrite !fmap_app. simpl. f_equal.
    + apply list_fmap_ext. intros i k' Hk'.
      assert (k' ≠ k) as Hne.
      { intros ->. apply Hin, first_occurrences_elem.
        by eapply list_elem_of_lookup_2. }
      rewrite decide_False by done. unfold entry.
      rewrite group_members_snoc. fold k.
      rewrite decide_False by done. by rewrite app_nil_r.
    + rewrite decide_True by done. unfold entry.
      rewrite group_members_snoc. fold k. rewrite decide_True by done.
      rewrite group_members_nil by done. done.
Qed.

Lemma groupBy_fold_rows (rows : list Row) :
  (λ kg : string * GroupRow, kg.2.1 ++ (finalize <$> kg.2.2)) <$> foldl step [] rows =
  groupBy_spec_rows kp ap accs0 rows.
Proof.
  rewrite groupBy_fold_table. unfold gm_table, groupBy_spec_rows.
  rewrite <- list_fmap_compose. done.
Qed.
End group_by.

Lemma first_occurrences_prefix (l1 l2 : list string) :
  first_occurrences l1 `prefix_of` first_occurrences (l1 ++ l2).
Proof.
  induction l2 as [|k l2 IH] using rev_ind.
  - by rewrite app_nil_r.
  - rewrite app_assoc, first_occurrences_snoc. case_decide; [done|].
    by apply prefix_app_r.
Qed.

(** C6: on a table whose schema knows the key and aggregate columns, and
    whose aggregate columns have a type with a default accumulator,
    [groupByImpl] returns a table whose columns are the key columns
    followed by the aggregate columns, with one row per distinct encoded
    key in order of first encounter: the group's key values followed by
    its finalized accumulators. *)
Theorem groupBy_one_row_per_key (cols aggs : list string) (t : TableRep)
    (accs0 : list AggAcc) :
  (∀ c, c ∈ cols ++ aggs → is_Some (columnMetadata (schema t) !! c)) →
  mkAggAccs (schema t) aggs = Ok accs0 →
  let keyPerm := columnIndex (schema t) <$> cols in
  let aggColsPerm := columnIndex (schema t) <$> aggs in
  let keys := row_key keyPerm <$> rowData t in
  ∃ out,
    groupByImpl cols aggs [t] = Ok out ∧
    columns (schema out) = cols ++ aggs ∧
    rowData out =
      group_output keyPerm aggColsPerm accs0 (rowData t) <$> first_occurrences keys ∧
    NoDup (first_occurrences keys) ∧
    (∀ k, k ∈ first_occurrences keys ↔ k ∈ keys).
Proof.
  intros Hmd Haccs keyPerm aggColsPerm keys. eexists. split; [|split; [|split]].
  - unfold groupByImpl. simpl.
    rewrite !calcProjectionPermutation_ok by (intros c Hc; apply Hmd; set_solver).
    simpl. rewrite (groupBy_fold_pure _ _ _ _ _ Haccs). simpl. reflexivity.
  - done.
  - simpl. apply (groupBy_fold_rows _ _ accs0).
  - split; [apply first_occurrences_NoDup|apply first_occurrences_elem].
Qed.

Lemma groupBy_one_row_per_key_witness :
  ∃ out,
    groupByImpl ["k"] ["v"] [example_groupBy_input] = Ok out ∧
    columns (schema out) = ["k"; "v"] ∧
    rowData out = [[PStr "x"; PNum 3]; [PStr "y"; PNum 5]].
Proof.
  destruct (groupBy_one_row_per_key ["k"] ["v"] example_groupBy_input
              [AccSum SumAgg.new]) as (out & Hout & Hcols & Hrows & _).
  - intros c Hc. apply list_elem_of_In in Hc. simpl in Hc.
    destruct Hc as [<-|[<-|[]]]; vm_compute; eauto.
  - reflexivity.
  - exists out. split; [exact Hout|]. split; [exact Hcols|].
    rewrite Hrows. vm_compute. reflexivity.
Defined.

(** ** The agreement accumulator *)

Lemma UniqAgg_agree : UniqAgg.run [PStr "a"; PStr "a"; PStr "a"] = PStr "a".
Proof. reflexivity. Qed.

Lemma UniqAgg_disagree : UniqAgg.run [PStr "a"; PStr "b"] = PNull.
Proof. reflexivity. Qed.

(** Before any candidate is recorded an absent value changes nothing. *)
Lemma UniqAgg_mplus_null_initial (s : Prim) :
  UniqAgg.mplus PNull (UniqAgg.mk true s) =
  if strict_ne s PNull then UniqAgg.mk true PNull else UniqAgg.mk true s.
Proof. reflexivity. Qed.

Lemma UniqAgg_leading_nulls (n : nat) (vals : list Prim) :
  UniqAgg.run (replicate n PNull ++ vals) = UniqAgg.run vals.
Proof.
  unfold UniqAgg.run. rewrite foldl_app. f_equal. f_equal.
  induction n as [|n IH]; [done|]. simpl. exact IH.
Qed.

(** Once a candidate was recorded, an absent value is compared with it
    like any other value and so discards it. *)
Lemma UniqAgg_mplus_null_candidate (s : string) :
  UniqAgg.mplus PNull (UniqAgg.mk false (PStr s)) = UniqAgg.mk false PNull.
Proof. reflexivity. Qed.

(** After the first candidate the accumulator never leaves the collapsed
    state. *)
Lemma UniqAgg_collapse_permanent (vals : list Prim) :
  UniqAgg.finalize (foldl (λ acc v, UniqAgg.mplus v acc) (UniqAgg.mk false PNull) vals)
  = PNull.
Proof.
  induction vals as [|v vals IH]; [done|]. simpl.
  unfold UniqAgg.mplus at 2. simpl.
  destruct (strict_ne PNull v); exact IH.
Qed.

(** C4: an absent value that arrives after a present candidate discards
    the candidate, while the same values in the other order keep it. *)
Theorem UniqAgg_null_after_candidate :
  UniqAgg.run [PStr "a"; PNull] = PNull ∧
  UniqAgg.run [PNull; PStr "a"] = PStr "a".
Proof. split; reflexivity. Qed.

(** ** filter *)

(** C8: a filter expression whose combinator is OR does not compile: the
    compiler throws, for every schema and argument list, and [filterImpl]
    throws for every input table, whatever its rows. *)
Theorem compile_or_not_implemented (s : Schema) (args : list SubExp)
    (t : TableRep) (ts : list TableRep) :
  compileFilterExp s (mkFilterExp "OR" args)
    = Throw (Error "OR expressions - not yet implemented") ∧
  compileSubExp s (SFilterExp "OR" args)
    = Throw (Error "OR expressions - not yet implemented") ∧
  filterImpl (mkFilterExp "OR" args) (t :: ts)
    = Throw (Error "OR expressions - not yet implemented").
Proof. repeat split. Qed.

(** ** extend *)

(** C3 as stated fails: the metadata entry of the new column is not the
    supplied one when the input's metadata mapping already has an entry
    under that identifier. *)
Lemma extend_supplied_metadata_counterexample :
  ¬ (∀ colId md ev t out,
       extendImpl colId md ev [t] = Ok out →
       columnMetadata (schema out) !! colId = Some md).
Proof.
  intros H.
  specialize (H "b" (mkColumnMetadata "integer" None) (EvConstant (PNum 0))
                example_extend_input _ eq_refl).
  vm_compute in H. discriminate H.
Qed.

(** C3: [extendImpl] appends exactly the new column to the column list
    and one cell to every row; the metadata entry under the new
    identifier is the input's entry when the input has one and the
    supplied metadata otherwise; the other entries are the input's. *)
Theorem extend_schema (colId : string) (md : ColumnMetadata)
    (ev : ColumnExtendVal) (t : TableRep) :
  ∃ out,
    extendImpl colId md ev [t] = Ok out ∧
    columns (schema out) = columns (schema t) ++ [colId] ∧
    columnMetadata (schema out) !! colId
      = Some (default md (columnMetadata (schema t) !! colId)) ∧
    (∀ c, c ≠ colId →
       columnMetadata (schema out) !! c = columnMetadata (schema t) !! c) ∧
    Forall2 (λ inRow outRow : Row, ∃ v, outRow = inRow ++ [v]) (rowData t) (rowData out).
Proof.
  eexists. split; [reflexivity|]. simpl. repeat split.
  - rewrite lookup_union. destruct (columnMetadata (schema t) !! colId) eqn:E.
    + by rewrite lookup_singleton_eq.
    + by rewrite lookup_singleton_eq.
  - intros c Hc. rewrite lookup_union, lookup_singleton_ne by done.
    by destruct (columnMetadata (schema t) !! c).
  - apply Forall2_fmap_r, Forall_Forall2_diag, Forall_forall. eauto.
Qed.

(** ** concat *)

(** C10: on a single table [concatImpl] returns that table, whatever the
    compatibility check does: the check is not called. *)
Theorem concat_singleton_identity (compatCheck : Schema → Schema → Res unit)
    (t : TableRep) :
  concatImpl compatCheck [t] = Ok t.
Proof. by destruct t. Qed.

(** ** sort *)

Section preorder_facts.
Context {A : Type} (D : A → Prop) (f : A → A → comparison).
Hypothesis Hf : preorder_cmp D f.

Lemma pc_refl (a : A) : D a → f a a = Eq.
Proof.
  intros Ha. pose proof (pc_opp D f Hf a a Ha Ha) as H.
  destruct (f a a); simpl in H; congruence.
Qed.

Lemma pc_le_lt (a b c : A) :
  D a → D b → D c → f a b ≠ Gt → f b c = Lt → f a c = Lt.
Proof.
  intros Ha Hb Hc Hab Hbc.
  assert (f a c ≠ Gt) as Hac by (apply (pc_trans D f Hf a b c); congruence).
  destruct (f a c) eqn:E; [|done|done]. exfalso.
  assert (f c a ≠ Gt) as Hca.
  { rewrite (pc_opp D f Hf a c), E by done. done. }
  pose proof (pc_trans D f Hf c a b Hc Ha Hb Hca Hab) as Hcb.
  rewrite (pc_opp D f Hf b c), Hbc in Hcb by done. by apply Hcb.
Qed.

Lemma pc_lt_le (a b c : A) :
  D a → D b → D c → f a b = Lt → f b c ≠ Gt → f a c = Lt.
Proof.
  intros Ha Hb Hc Hab Hbc.
  assert (f a c ≠ Gt) as Hac by (apply (pc_trans D f Hf a b c); congruence).
  destruct (f a c) eqn:E; [|done|done]. exfalso.
  assert (f c a ≠ Gt) as Hca.
  { rewrite (pc_opp D f Hf a c), E by done. done. }
  pose proof (pc_trans D f Hf b c a Hb Hc Ha Hbc Hca) as Hba.
  rewrite (pc_opp D f Hf a b), Hab in Hba by done. by apply Hba.
Qed.

Lemma pc_eq_eq (a b c : A) :
  D a → D b → D c → f a b = Eq → f b c = Eq → f a c = Eq.
Proof.
  intros Ha Hb Hc Hab Hbc.
  assert (f a c ≠ Gt) as Hac by (apply (pc_trans D f Hf a b c); congruence).
  assert (f c a ≠ Gt) as Hca.
  { apply (pc_trans D f Hf c b a); try done.
    - rewrite (pc_opp D f Hf b c), Hbc by done. done.
    - rewrite (pc_opp D f Hf a b), Hab by done. done. }
  rewrite (pc_opp D f Hf a c) in Hca by done.
  destruct (f a c); simpl in *; congruence.
Qed.

Lemma pc_gt_gt (a b c : A) :
  D a → D b → D c → f a b = Gt → f b c = Gt → f a c = Gt.
Proof.
  intros Ha Hb Hc Hab Hbc.
  assert (f c b = Lt) as Hcb by (rewrite (pc_opp D f Hf b c), Hbc; done).
  assert (f b a = Lt) as Hba by (rewrite (pc_opp D f Hf a b), Hab; done).
  assert (f c a = Lt) as Hca by (apply (pc_lt_le c b a); congruence).
  rewrite (pc_opp D f Hf c a), Hca by done. done.
Qed.
End preorder_facts.

Lemma preorder_cmp_opp {A} (D : A → Prop) (f : A → A → comparison) :
  preorder_cmp D f → preorder_cmp D (λ a b, CompOpp (f a b)).
Proof.
  intros Hf. split.
  - intros a b Ha Hb. by rewrite (pc_opp D f Hf a b).
  - intros a b c Ha Hb Hc Hab Hbc.
    rewrite <- (pc_opp D f Hf) in * by done.
    apply (pc_trans D f Hf c b a); done.
Qed.

Lemma preorder_cmp_lex {A} (D1 D2 : A → Prop) (f g : A → A → comparison) :
  preorder_cmp D1 f → preorder_cmp D2 g →
  preorder_cmp (λ a, D1 a ∧ D2 a)
    (λ a b, match f a b with Eq => g a b | r => r end).
Proof.
  intros Hf Hg. split.
  - intros a b [Ha1 Ha2] [Hb1 Hb2].
    rewrite (pc_opp D1 f Hf a b), (pc_opp D2 g Hg a b) by done.
    by destruct (f a b).
  - intros a b c [Ha1 Ha2] [Hb1 Hb2] [Hc1 Hc2] Hab Hbc.
    destruct (f a b) eqn:Eab; [| |done].
    + destruct (f b c) eqn:Ebc; [| |done].
      * rewrite (pc_eq_eq D1 f Hf a b c) by done.
        by apply (pc_trans D2 g Hg a b c).
      * rewrite (pc_le_lt D1 f Hf a b c) by (done || congruence). done.
    + rewrite (pc_lt_le D1 f Hf a b c); try done.
      by destruct (f b c).
Qed.

Lemma string_compare_preorder : preorder_cmp (λ _ : string, True) String.compare.
Proof.
  split.
  - intros a b _ _. apply String.compare_antisym.
  - intros a b c _ _ _ Hab Hbc Hac.
    assert (String.compare c a = Lt) as Hca.
    { rewrite String.compare_antisym, Hac. done. }
    apply OrderedTypeEx.String_as_OT.cmp_lt in Hca.
    destruct (String.compare a b) eqn:Eab; [| |done].
    + apply OrderedTypeEx.String_as_OT.cmp_eq in Eab. subst b.
      rewrite String.compare_antisym in Hbc.
      apply OrderedTypeEx.String_as_OT.cmp_lt in Hca.
      unfold OrderedTypeEx.String_as_OT.cmp in Hca. rewrite Hca in Hbc. done.
    + apply OrderedTypeEx.String_as_OT.cmp_lt in Eab.
      pose proof (OrderedTypeEx.String_as_OT.lt_trans _ _ _ Hca Eab) as Hcb.
      apply OrderedTypeEx.String_as_OT.cmp_lt in Hcb.
      unfold OrderedTypeEx.String_as_OT.cmp in Hcb.
      rewrite String.compare_antisym, Hcb in Hbc. done.
Qed.

Lemma cell_typed_inv (colType : string) (v : Prim) :
  cell_typed colType v →
  (colType = "text" ∧ ∃ s, v = PStr s) ∨
  (colType ≠ "text" ∧ ∃ x, ToNumber v = Some x).
Proof.
  intros [H|[[->| ->] H]]; [by left|right..]; done.
Qed.

Lemma cell_compare_num (a b : Prim) (x y : Z) :
  ToNumber a = Some x → ToNumber b = Some y → cell_compare a b = (x ?= y)%Z.
Proof.
  intros Hx Hy. unfold cell_compare. rewrite Hx, Hy.
  by destruct a, b.
Qed.

Lemma cell_compare_preorder (colType : string) :
  preorder_cmp (cell_typed colType) cell_compare.
Proof.
  split.
  - intros a b Ha%cell_typed_inv Hb%cell_typed_inv.
    destruct Ha as [[Ht [s1 ->]]|[Hn [x Hx]]], Hb as [[Ht' [s2 ->]]|[Hn' [y Hy]]];
      try done.
    + apply String.compare_antisym.
    + rewrite (cell_compare_num a b x y), (cell_compare_num b a y x) by done.
      apply Z.compare_antisym.
  - intros a b c Ha%cell_typed_inv Hb%cell_typed_inv Hc%cell_typed_inv.
    destruct Ha as [[Ht [s1 ->]]|[Hn [x Hx]]], Hb as [[Ht' [s2 ->]]|[Hn' [y Hy]]],
      Hc as [[Ht'' [s3 ->]]|[Hn'' [z Hz]]]; try done.
    + by apply (pc_trans _ _ string_compare_preorder).
    + rewrite (cell_compare_num a b x y), (cell_compare_num b c y z),
        (cell_compare_num a c x z) by done.
      rewrite !Z.compare_gt_iff. lia.
Qed.

Lemma preorder_cmp_pullback {A B} (D : B → Prop) (D' : A → Prop)
    (f : B → B → comparison) (g : A → B) :
  (∀ a, D' a → D (g a)) → preorder_cmp D f →
  preorder_cmp D' (λ a b, f (g a) (g b)).
Proof.
  intros Hg Hf. split.
  - intros a b Ha Hb. apply (pc_opp D f Hf); auto.
  - intros a b c Ha Hb Hc. apply (pc_trans D f Hf); auto.
Qed.

Lemma key_compare_preorder (s : Schema) (key : string * bool) :
  preorder_cmp (key_typed s key) (key_compare s key).
Proof.
  destruct (columnMetadata s !! key.1) as [m|] eqn:Hm.
  - assert (preorder_cmp (key_typed s key)
              (λ a b, cell_compare (row_get a (columnIndex s key.1))
                                   (row_get b (columnIndex s key.1)))) as H.
    { apply (preorder_cmp_pullback (cell_typed (type m))).
      - intros a (m' & Hm' & Ha). by simplify_eq.
      - apply cell_compare_preorder. }
    unfold key_compare. destruct key.2; [exact H|].
    by apply preorder_cmp_opp.
  - split.
    + intros a b (m & Hm' & _). congruence.
    + intros a b c (m & Hm' & _). congruence.
Qed.

Lemma row_compare_preorder (s : Schema) (keys : list (string * bool)) :
  preorder_cmp (row_typed s keys) (row_compare s keys).
Proof.
  induction keys as [|key keys IH].
  - split; intros; done.
  - pose proof (preorder_cmp_lex _ _ _ _ (key_compare_preorder s key) IH) as H.
    split.
    + intros a b Ha%Forall_cons Hb%Forall_cons. by apply (pc_opp _ _ H).
    + intros a b c Ha%Forall_cons Hb%Forall_cons Hc%Forall_cons.
      by apply (pc_trans _ _ H).
Qed.

Lemma strcmp_strings (s1 s2 : string) :
  ∃ v, strcmp (PStr s1) (PStr s2) = PNum v ∧ (v ?= 0)%Z = String.compare s1 s2.
Proof.
  unfold strcmp, js_gt, js_lt, js_compare_lt, String.ltb.
  rewrite (String.compare_antisym s1 s2).
  destruct (String.compare s2 s1); simpl; eauto.
Qed.

Lemma numcmp_numbers (a b : Prim) (x y : Z) :
  ToNumber a = Some x → ToNumber b = Some y →
  ∃ v, numcmp a b = PNum v ∧ (v ?= 0)%Z = (x ?= y)%Z.
Proof.
  intros Hx Hy. unfold numcmp, js_sub. rewrite Hx, Hy.
  eexists. split; [done|]. symmetry. apply Z.compare_sub.
Qed.

Lemma lookup_cmpFn_typed (colType : string) (va vb : Prim) :
  cell_typed colType va → cell_typed colType vb →
  ∃ v, lookup_cmpFn colType va vb = Ok (PNum v) ∧
       (v ?= 0)%Z = cell_compare va vb.
Proof.
  intros Ha Hb. pose proof (cell_typed_inv _ _ Ha) as Ha'.
  pose proof (cell_typed_inv _ _ Hb) as Hb'.
  destruct Ha' as [[Ht [s1 ->]]|[Hn [x Hx]]], Hb' as [[Ht' [s2 ->]]|[Hn' [y Hy]]];
    try done.
  - subst colType. destruct (strcmp_strings s1 s2) as (v & Hv & Hc).
    exists v. split; [|done]. unfold lookup_cmpFn. simpl. by rewrite Hv.
  - destruct (numcmp_numbers va vb x y Hx Hy) as (v & Hv & Hc).
    exists v. split.
    + unfold lookup_cmpFn, cmpFnMap. rewrite decide_False by done.
      destruct Ha as [[? ?]|[[->| ->] _]]; [done|..]; simpl; by rewrite Hv.
    + by rewrite (cell_compare_num va vb x y).
Qed.

Lemma compileSortFunc_typed (s : Schema) (keys : list (string * bool)) :
  keys_known s keys →
  ∃ rsf, compileSortFunc s keys = Ok rsf ∧
    ∀ a b, row_typed s keys a → row_typed s keys b →
      ∃ v, rsf a b = Ok (PNum v) ∧ (v ?= 0)%Z = row_compare s keys a b.
Proof.
  induction keys as [|[colId asc] keys IH]; intros Hk.
  - eexists. split; [done|]. intros a b _ _. by exists 0%Z.
  - apply Forall_cons in Hk as [[m Hm] Hk]. simpl in Hm.
    destruct (IH Hk) as (rsf' & Hc & Hr). clear IH.
    eexists. split.
    { simpl. rewrite Hc. simpl. unfold columnType. rewrite Hm. simpl. reflexivity. }
    intros a b Ha Hb.
    apply Forall_cons in Ha as [(ma & Hma & Hta) Ha].
    apply Forall_cons in Hb as [(mb & Hmb & Htb) Hb].
    simpl in *. rewrite Hm in Hma, Hmb.
    injection Hma as <-. injection Hmb as <-.
    destruct (Hr a b Ha Hb) as (w & Hw & Hcw).
    set (va := row_get a (columnIndex s colId)) in *.
    set (vb := row_get b (columnIndex s colId)) in *.
    assert (∃ v, (if asc then lookup_cmpFn (type m)
                  else reverseArgs (lookup_cmpFn (type m))) va vb = Ok (PNum v) ∧
                 (v ?= 0)%Z = key_compare s (colId, asc) a b) as (v & Hv & Hcv).
    { unfold key_compare. simpl. fold va vb. destruct asc.
      - by apply lookup_cmpFn_typed.
      - destruct (lookup_cmpFn_typed (type m) vb va Htb Hta) as (v & Hv & Hcv).
        exists v. split; [done|]. rewrite Hcv.
        apply (pc_opp _ _ (cell_compare_preorder (type m))); done. }
    unfold mkRowCompFn. fold va vb. rewrite Hv. simpl.
    rewrite <- Hcv. unfold strict_eq.
    destruct (decide (v = 0%Z)) as [->|Hne].
    + rewrite bool_decide_eq_true_2 by done. simpl. eauto.
    + rewrite bool_decide_eq_false_2 by congruence.
      exists v. split; [done|].
      destruct (v ?= 0)%Z eqn:E; [|done..].
      apply Z.compare_eq in E. done.
Qed.

Section consistent_facts.
Context (cmp : RowCmpFn) (l : list Row).
Hypothesis Hcons : consistent_comparator cmp l.

Lemma consistent_preorder : preorder_cmp (λ a, a ∈ l) (order_of cmp).
Proof.
  destruct Hcons as [Htot Hrefl Hsym Heq Hlt Hgt].
  assert (∀ a b, a ∈ l → b ∈ l → order_of cmp b a = CompOpp (order_of cmp a b))
    as Hopp.
  { intros a b Ha Hb. destruct (order_of cmp a b) eqn:Eab; simpl.
    - by apply Hsym.
    - destruct (order_of cmp b a) eqn:Eba; [|..|done].
      + apply Hsym in Eba; congruence.
      + pose proof (Hlt a b a Ha Hb Ha Eab Eba). rewrite Hrefl in H; done.
    - destruct (order_of cmp b a) eqn:Eba; [|done|].
      + apply Hsym in Eba; congruence.
      + pose proof (Hgt a b a Ha Hb Ha Eab Eba). rewrite Hrefl in H; done. }
  split; [exact Hopp|].
  intros a b c Ha Hb Hc Hab Hbc Hac.
  assert (order_of cmp c a = Lt) as Hca by (rewrite (Hopp a c), Hac; done).
  destruct (order_of cmp a b) eqn:Eab; [| |done];
    destruct (order_of cmp b c) eqn:Ebc; try done.
  - rewrite (Heq a b c) in Hac; done.
  - pose proof (Hlt b c a Hb Hc Ha Ebc Hca) as Hba.
    rewrite (Hsym a b) in Hba; done.
  - pose proof (Hlt c a b Hc Ha Hb Hca Eab) as Hcb.
    rewrite (Hsym b c) in Hcb; done.
  - rewrite (Hlt a b c) in Hac; done.
Qed.

Let ord := order_of cmp.

Lemma order_of_le (x y : Row) (v : Prim) :
  cmp x y = Ok v → (cmp_value v <=? 0)%Z = true ↔ not_after ord x y.
Proof.
  intros Hv. unfold not_after, ord, order_of. rewrite Hv.
  rewrite Z.leb_le, <- Z.compare_le_iff. done.
Qed.

Lemma insert_row_spec (x : Row) (s : list Row) :
  x ∈ l → s ⊆ l →
  ∃ r, insert_row cmp x s = Ok r ∧
       x :: s ≡ₚ r ∧
       (StronglySorted (not_after ord) s → StronglySorted (not_after ord) r) ∧
       (∀ x0, x0 ∈ l →
          filter (λ y, ord x0 y = Eq) r = filter (λ y, ord x0 y = Eq) (x :: s)).
Proof.
  assert (preorder_cmp (λ a, a ∈ l) ord) as Hpre by apply consistent_preorder.
  intros Hx. induction s as [|y s IH]; intros Hs.
  - exists [x]. repeat split; try done. intros _. repeat constructor.
  - assert (y ∈ l) as Hy by set_solver.
    assert (s ⊆ l) as Hs' by set_solver.
    destruct (cc_total cmp l Hcons x y Hx Hy) as [v Hv].
    simpl. rewrite Hv. simpl.
    destruct (cmp_value v <=? 0)%Z eqn:E.
    + apply (order_of_le x y v Hv) in E.
      eexists. split; [done|]. split; [done|]. split; [|done].
      intros Hsorted. constructor; [done|].
      constructor; [done|].
      apply StronglySorted_inv in Hsorted as [_ Hall].
      rewrite Forall_forall in Hall |- *. intros z Hz.
      apply (pc_trans _ _ Hpre x y z); try done; [set_solver|].
      by apply Hall.
    + assert (ord x y = Gt) as Hgt.
      { destruct (ord x y) eqn:E'; [| |done]; exfalso;
          assert (not_after ord x y) as Hle by (unfold not_after; congruence);
          apply (order_of_le x y v Hv) in Hle; congruence. }
      destruct (IH Hs') as (r & Hr & Hperm & Hsort & Hfilt).
      rewrite Hr. simpl. eexists. split; [done|]. split; [|split].
      * rewrite <- Hperm. apply perm_swap.
      * intros Hsorted. apply StronglySorted_inv in Hsorted as [Hsorted Hall].
        constructor; [by apply Hsort|].
        rewrite <- Hperm. constructor; [|done].
        unfold not_after.
        rewrite (pc_opp _ _ Hpre x y), Hgt by done. done.
      * intros x0 Hx0. rewrite filter_cons, (Hfilt x0 Hx0).
        rewrite !(filter_cons _ x), !(filter_cons _ y).
        destruct (decide (ord x0 y = Eq)) as [Ey|Ey]; [|done].
        destruct (decide (ord x0 x = Eq)) as [Ex|Ex]; [|done].
        exfalso. assert (ord x x0 = Eq) as Ex'.
        { rewrite (pc_opp _ _ Hpre x0 x), Ex by done. done. }
        pose proof (pc_eq_eq _ _ Hpre x x0 y Hx Hx0 Hy Ex' Ey). congruence.
Qed.

Lemma insertion_sort_spec (l0 : list Row) :
  l0 ⊆ l →
  ∃ r, insertion_sort cmp l0 = Ok r ∧
       l0 ≡ₚ r ∧
       StronglySorted (not_after ord) r ∧
       (∀ x0, x0 ∈ l →
          filter (λ y, ord x0 y = Eq) r = filter (λ y, ord x0 y = Eq) l0).
Proof.
  induction l0 as [|x l0 IH]; intros Hsub.
  - exists []. repeat split; try done. constructor.
  - destruct IH as (r' & Hr' & Hperm' & Hsort' & Hfilt'); [set_solver|].
    destruct (insert_row_spec x r') as (r & Hr & Hperm & Hsort & Hfilt).
    { set_solver. }
    { intros z Hz. apply Hsub. rewrite <- Hperm' in Hz. set_solver. }
    exists r. simpl. rewrite Hr'. simpl. split; [done|]. split; [|split].
    + by rewrite <- Hperm, <- Hperm'.
    + by apply Hsort.
    + intros x0 Hx0. rewrite (Hfilt x0 Hx0), !filter_cons, (Hfilt' x0 Hx0). done.
Qed.
End consistent_facts.

Lemma StronglySorted_lookup (R : Row → Row → Prop) (l : list Row) (i j : nat) (a b : Row) :
  StronglySorted R l → (i < j)%nat → l !! i = Some a → l !! j = Some b → R a b.
Proof.
  intros Hs. revert i j. induction Hs as [|x l Hs IH Hall]; intros i j Hij Hi Hj.
  - done.
  - destruct j as [|j]; [lia|]. destruct i as [|i]; simpl in *.
    + simplify_eq. rewrite Forall_forall in Hall. apply Hall.
      by eapply list_elem_of_lookup_2.
    + apply (IH i j); [lia|done..].
Qed.

Lemma insertion_sort_contract : sort_contract insertion_sort.
Proof.
  intros cmp l Hcons.
  destruct (insertion_sort_spec cmp l Hcons l) as (r & Hr & Hperm & Hsort & Hfilt);
    [done|].
  exists r. split; [done|]. split; [done|]. split; [|done].
  intros i j a b Hij Hi Hj.
  by apply (StronglySorted_lookup (not_after (order_of cmp)) r i j).
Qed.

Lemma compiled_consistent (s : Schema) (keys : list (string * bool))
    (rsf : RowCmpFn) (rows : list Row) :
  (∀ a b, row_typed s keys a → row_typed s keys b →
     ∃ v, rsf a b = Ok (PNum v) ∧ (v ?= 0)%Z = row_compare s keys a b) →
  Forall (row_typed s keys) rows →
  consistent_comparator rsf rows ∧
  (∀ a b, a ∈ rows → b ∈ rows → order_of rsf a b = row_compare s keys a b).
Proof.
  intros Hrsf Hrows. rewrite Forall_forall in Hrows.
  assert (∀ a b, a ∈ rows → b ∈ rows → order_of rsf a b = row_compare s keys a b)
    as Hord.
  { intros a b Ha Hb. destruct (Hrsf a b) as (v & Hv & Hc); [auto..|].
    unfold order_of. by rewrite Hv. }
  pose proof (row_compare_preorder s keys) as Hpre.
  split; [|exact Hord]. split.
  - intros a b Ha Hb. destruct (Hrsf a b) as (v & Hv & _); eauto.
  - intros a Ha. rewrite Hord by done. apply (pc_refl _ _ Hpre). auto.
  - intros a b Ha Hb. rewrite !Hord by done. intros E.
    rewrite (pc_opp _ _ Hpre a b), E by auto. done.
  - intros a b c Ha Hb Hc. rewrite !Hord by done.
    apply (pc_eq_eq _ _ Hpre); auto.
  - intros a b c Ha Hb Hc. rewrite !Hord by done. intros Hab Hbc.
    apply (pc_lt_le _ _ Hpre a b c); auto. congruence.
  - intros a b c Ha Hb Hc. rewrite !Hord by done.
    apply (pc_gt_gt _ _ Hpre); auto.
Qed.

Lemma filter_ext_elem (P Q : Row → Prop) `{!∀ x, Decision (P x)}
    `{!∀ x, Decision (Q x)} (l : list Row) :
  (∀ x, x ∈ l → P x ↔ Q x) → filter P l = filter Q l.
Proof.
  induction l as [|x l IH]; intros Hext; [done|].
  rewrite !filter_cons, IH by (intros; apply Hext; set_solver).
  destruct (decide (P x)) as [HP|HP], (decide (Q x)) as [HQ|HQ]; try done.
  - exfalso. apply HQ, Hext; [set_solver|done].
  - exfalso. apply HP, Hext; [set_solver|done].
Qed.

Lemma stable_sort_of_ext (ord ord' : Row → Row → comparison) (l l' : list Row) :
  (∀ a b, a ∈ l → b ∈ l → ord a b = ord' a b) →
  stable_sort_of ord l l' → stable_sort_of ord' l l'.
Proof.
  intros Hext (Hperm & Hsorted & Hstable).
  split; [done|]. split.
  - intros i j a b Hij Hi Hj. rewrite <- Hext.
    + by apply (Hsorted i j).
    + rewrite Hperm. by eapply list_elem_of_lookup_2.
    + rewrite Hperm. by eapply list_elem_of_lookup_2.
  - intros x Hx.
    rewrite <- (filter_ext_elem (λ y, ord x y = Eq) (λ y, ord' x y = Eq) l').
    + rewrite (Hstable x Hx). apply filter_ext_elem.
      intros y Hy. by rewrite Hext.
    + intros y Hy. rewrite Hext; [done..|]. by rewrite Hperm.
Qed.



Lemma project_all_columns_identity_witness :
  table_wf example_groupBy_input ∧
  projectImpl ["k"; "v"] [example_groupBy_input] = Ok example_groupBy_input.
Proof.
  assert (table_wf example_groupBy_input) as Hwf.
  { split; [split|].
    - simpl. repeat (apply NoDup_cons_2; [set_solver|]). apply NoDup_nil_2.
    - intros c Hc. apply list_elem_of_In in Hc. simpl in Hc.
      destruct Hc as [<-|[<-|[]]]; vm_compute; eauto.
    - repeat constructor. }
  split; [exact Hwf|].
  exact (project_all_columns_identity example_groupBy_input Hwf).
Defined.

(** ** Value numbering *)

Lemma QueryExp_ind' (P : QueryExp → Prop) :
  (∀ operator valArgs tableArgs,
     Forall P tableArgs → P (mkQueryExp operator valArgs tableArgs)) →
  ∀ q, P q.
Proof.
  intros H. fix IH 1. intros [o vs ts]. apply H.
  induction ts as [|t ts IHts]; constructor; [apply IH|exact IHts].
Qed.

Lemma buildCSEMap_unfold (operator : string) (valArgs : list JsVal)
    (tableArgs : list QueryExp) (ev : CSEEvaluator) :
  buildCSEMap (mkQueryExp operator valArgs tableArgs) ev =
  let '(tableNums, ev1) := buildCSEMap_list tableArgs ev in
  let k := expKey operator tableNums valArgs in
  match invMap ev1 !! k with
  | Some valNum => (valNum, ev1)
  | None =>
      (length (valExps ev1),
       mkCSEEvaluator (<[k := length (valExps ev1)]> (invMap ev1))
         (valExps ev1 ++ [mkNumberedExp (mkQueryExp operator valArgs tableArgs) tableNums])
         (promises ev1))
  end.
Proof. reflexivity. Qed.

Global Instance cse_le_preorder : PreOrder cse_le.
Proof.
  split.
  - intros ev. by repeat split.
  - intros e1 e2 e3 (H1 & H2 & H3) (H1' & H2' & H3'). repeat split.
    + by trans (invMap e2).
    + by trans (valExps e2).
    + congruence.
Qed.

Lemma numbered_mono (ev ev' : CSEEvaluator) (q : QueryExp) (n : nat) :
  cse_le ev ev' → numbered ev q n → numbered ev' q n.
Proof.
  intros Hle. revert n. induction q as [o vs ts IH] using QueryExp_ind'.
  intros n Hn. inversion Hn as [? ? ? ns ? Hts Hk]; subst.
  apply (numbered_intro _ _ _ _ ns).
  - clear Hk Hn. revert ns Hts. induction IH as [|t ts Ht _ IHts]; intros ns Hts.
    + inversion Hts; subst. constructor.
    + inversion Hts; subst. constructor; [by apply Ht|by apply IHts].
  - destruct Hle as (Hinv & _). by eapply lookup_weaken.
Qed.


Lemma numbered_lt (ev : CSEEvaluator) (q : QueryExp) (n : nat) :
  cse_wf ev → numbered ev q n → (n < length (valExps ev))%nat.
Proof.
  intros Hwf Hn. inversion Hn as [? ? ? ns ? _ Hk]; subst.
  destruct (wf_invMap ev Hwf _ _ Hk) as (ne & Hne & _).
  by eapply lookup_lt_Some.
Qed.

Lemma cse_wf_record (ev : CSEEvaluator) (q : QueryExp) (ns : list nat) :
  cse_wf ev →
  Forall (λ c, c < length (valExps ev))%nat ns →
  invMap ev !! expKey (operator q) ns (valArgs q) = None →
  let ev' := mkCSEEvaluator
               (<[expKey (operator q) ns (valArgs q) := length (valExps ev)]> (invMap ev))
               (valExps ev ++ [mkNumberedExp q ns]) (promises ev) in
  cse_le ev ev' ∧ cse_wf ev'.
Proof.
  intros Hwf Hns Hk ev'. split.
  - repeat split; simpl.
    + by apply insert_subseteq.
    + by apply prefix_app_r.
  - split; simpl.
    + intros k n Hkn. destruct (decide (expKey (operator q) ns (valArgs q) = k)) as [<-|Hne].
      * rewrite lookup_insert_eq in Hkn. injection Hkn as <-.
        exists (mkNumberedExp q ns). split; [|done].
        by apply list_lookup_middle.
      * rewrite lookup_insert_ne in Hkn by done.
        destruct (wf_invMap ev Hwf _ _ Hkn) as (ne & Hne' & Hkey).
        exists ne. split; [|done]. by apply lookup_app_l_Some.
    + intros n ne Hn. apply lookup_app_Some in Hn as [Hn|[Hlen Hn]].
      * by apply (wf_valExps ev Hwf).
      * apply list_lookup_singleton_Some in Hn as [Hn <-]. simpl.
        eapply Forall_impl; [exact Hns|]. simpl. intros c Hc. lia.
Qed.

Lemma buildCSEMap_spec (q : QueryExp) :
  ∀ ev n ev', cse_wf ev → buildCSEMap q ev = (n, ev') →
    cse_le ev ev' ∧ cse_wf ev' ∧ numbered ev' q n.
Proof.
  induction q as [o vs ts IH] using QueryExp_ind'.
  assert (∀ ev ns ev', cse_wf ev → buildCSEMap_list ts ev = (ns, ev') →
            cse_le ev ev' ∧ cse_wf ev' ∧ Forall2 (numbered ev') ts ns) as Hlist.
  { induction IH as [|t ts Ht _ IHts]; intros ev ns ev' Hwf Hb; simpl in Hb.
    - simplify_eq. split; [reflexivity|]. split; [done|]. constructor.
    - destruct (buildCSEMap t ev) as [n1 ev1] eqn:E1.
      destruct (buildCSEMap_list ts ev1) as [ns2 ev2] eqn:E2. simplify_eq.
      destruct (Ht _ _ _ Hwf E1) as (Hle1 & Hwf1 & Hn1).
      destruct (IHts _ _ _ Hwf1 E2) as (Hle2 & Hwf2 & Hn2).
      split; [by trans ev1|]. split; [done|].
      constructor; [by eapply numbered_mono|done]. }
  intros ev n ev' Hwf Hb. rewrite buildCSEMap_unfold in Hb.
  destruct (buildCSEMap_list ts ev) as [ns ev1] eqn:E1.
  destruct (Hlist _ _ _ Hwf E1) as (Hle1 & Hwf1 & Hns). simpl in Hb.
  destruct (invMap ev1 !! expKey o ns vs) as [valNum|] eqn:Ek; simplify_eq.
  - split; [done|]. split; [done|]. by econstructor.
  - destruct (cse_wf_record ev1 (mkQueryExp o vs ts) ns Hwf1) as [Hle' Hwf']; [|done|].
    { eapply Forall2_Forall_r; [exact Hns|]. apply Forall_forall.
      intros t _ c Hc. by eapply numbered_lt. }
    simpl in *. split; [by trans ev1|]. split; [done|].
    econstructor.
    + eapply Forall2_impl; [exact Hns|]. intros t c. by apply numbered_mono.
    + simpl. by rewrite lookup_insert_eq.
Qed.

Lemma buildCSEMap_log_unfold (operator : string) (valArgs : list JsVal)
    (tableArgs : list QueryExp) (ev : CSEEvaluator) :
  buildCSEMap_log (mkQueryExp operator valArgs tableArgs) ev =
  let '(tableNums, ev1, log) := buildCSEMap_log_list tableArgs ev in
  let k := expKey operator tableNums valArgs in
  let query := mkQueryExp operator valArgs tableArgs in
  match invMap ev1 !! k with
  | Some valNum => (valNum, ev1, log ++ [(query, valNum)])
  | None =>
      (length (valExps ev1),
       mkCSEEvaluator (<[k := length (valExps ev1)]> (invMap ev1))
         (valExps ev1 ++ [mkNumberedExp query tableNums]) (promises ev1),
       log ++ [(query, length (valExps ev1))])
  end.
Proof. reflexivity. Qed.

Lemma buildCSEMap_log_erase (q : QueryExp) (ev : CSEEvaluator) :
  (buildCSEMap_log q ev).1 = buildCSEMap q ev.
Proof.
  revert ev. induction q as [o vs ts IH] using QueryExp_ind'. intros ev.
  assert (∀ ev, (buildCSEMap_log_list ts ev).1 = buildCSEMap_list ts ev) as Hlist.
  { clear ev. induction IH as [|t ts Ht _ IHts]; intros ev; simpl; [done|].
    specialize (Ht ev). destruct (buildCSEMap_log t ev) as [[n1 ev1] log1].
    simpl in Ht. rewrite <- Ht.
    specialize (IHts ev1). destruct (buildCSEMap_log_list ts ev1) as [[ns ev2] log2].
    simpl in IHts. by rewrite <- IHts. }
  rewrite buildCSEMap_log_unfold, buildCSEMap_unfold.
  specialize (Hlist ev). destruct (buildCSEMap_log_list ts ev) as [[ns ev1] log].
  simpl in Hlist. rewrite <- Hlist. simpl.
  by destruct (invMap ev1 !! expKey o ns vs).
Qed.

Lemma buildCSEMap_log_numbered (q : QueryExp) :
  ∀ ev n ev' log, cse_wf ev → buildCSEMap_log q ev = (n, ev', log) →
    ∀ e m, (e, m) ∈ log → numbered ev' e m.
Proof.
  induction q as [o vs ts IH] using QueryExp_ind'.
  assert (∀ ev ns ev' log, cse_wf ev → buildCSEMap_log_list ts ev = (ns, ev', log) →
            ∀ e m, (e, m) ∈ log → numbered ev' e m) as Hlist.
  { induction IH as [|t ts Ht _ IHts]; intros ev ns ev' log Hwf Hb e m Hin;
      simpl in Hb.
    - simplify_eq. by apply not_elem_of_nil in Hin.
    - destruct (buildCSEMap_log t ev) as [[n1 ev1] log1] eqn:E1.
      destruct (buildCSEMap_log_list ts ev1) as [[ns2 ev2] log2] eqn:E2.
      simplify_eq.
      assert (buildCSEMap t ev = (n1, ev1)) as Ee1.
      { by rewrite <- buildCSEMap_log_erase, E1. }
      destruct (buildCSEMap_spec t _ _ _ Hwf Ee1) as (Hle1 & Hwf1 & _).
      assert (cse_le ev1 ev') as Hle2.
      { assert ((buildCSEMap_log_list ts ev1).1 = (ns2, ev')) as Ee2 by (by rewrite E2).
        clear -Ee2 Hwf1. revert ev1 ns2 Hwf1 Ee2.
        induction ts as [|t' ts' IHt]; intros ev1 ns2 Hwf1 Ee2; simpl in Ee2.
        - by simplify_eq.
        - destruct (buildCSEMap_log t' ev1) as [[n' ev''] log'] eqn:E'.
          assert (buildCSEMap t' ev1 = (n', ev'')) as Ee.
          { by rewrite <- buildCSEMap_log_erase, E'. }
          destruct (buildCSEMap_spec t' _ _ _ Hwf1 Ee) as (Hle & Hwf' & _).
          destruct (buildCSEMap_log_list ts' ev'') as [[ns'' ev'''] log''] eqn:E''.
          simpl in Ee2. simplify_eq.
          trans ev''; [done|]. eapply (IHt ev''); [done|]. by rewrite E''. }
      apply elem_of_app in Hin as [Hin|Hin].
      + eapply numbered_mono; [exact Hle2|].
        eapply (Ht ev); [exact Hwf|exact E1|exact Hin].
      + eapply (IHts ev1); [exact Hwf1|exact E2|exact Hin]. }
  intros ev n ev' log Hwf Hb e m Hin.
  assert (buildCSEMap (mkQueryExp o vs ts) ev = (n, ev')) as Ee.
  { by rewrite <- buildCSEMap_log_erase, Hb. }
  destruct (buildCSEMap_spec _ _ _ _ Hwf Ee) as (Hle & Hwf' & Hn).
  rewrite buildCSEMap_log_unfold in Hb.
  destruct (buildCSEMap_log_list ts ev) as [[ns ev1] log1] eqn:E1.
  assert (cse_le ev1 ev' ∧ log = log1 ++ [(mkQueryExp o vs ts, n)]) as [Hle1 ->].
  { simpl in Hb. destruct (invMap ev1 !! expKey o ns vs) eqn:Ek; simplify_eq.
    - done.
    - split; [|done]. repeat split; simpl.
      + by apply insert_subseteq.
      + by apply prefix_app_r. }
  apply elem_of_app in Hin as [Hin|Hin].
  - eapply numbered_mono; [exact Hle1|].
    eapply (Hlist ev); [exact Hwf|exact E1|exact Hin].
  - apply list_elem_of_singleton in Hin. by simplify_eq.
Qed.

Lemma buildCSEMap_log_root (q : QueryExp) (ev : CSEEvaluator) :
  (q, (buildCSEMap_log q ev).1.1) ∈ (buildCSEMap_log q ev).2.
Proof.
  destruct q as [o vs ts]. rewrite buildCSEMap_log_unfold.
  destruct (buildCSEMap_log_list ts ev) as [[ns ev1] log1]. simpl.
  destruct (invMap ev1 !! expKey o ns vs); simpl; set_solver.
Qed.

Lemma buildCSEMap_log_subexp (q e : QueryExp) :
  subexp e q → ∀ ev, ∃ m, (e, m) ∈ (buildCSEMap_log q ev).2.
Proof.
  induction 1 as [|o vs ts t Ht Hsub IH]; intros ev.
  - eexists. apply buildCSEMap_log_root.
  - assert (∃ m, (e, m) ∈ (buildCSEMap_log_list ts ev).2) as [m Hm].
    { clear -Ht IH. revert ev. induction ts as [|t' ts IHts]; intros ev.
      - by apply not_elem_of_nil in Ht.
      - simpl. apply elem_of_cons in Ht as [<-|Ht].
        + destruct (IH ev) as [m Hm].
          destruct (buildCSEMap_log t ev) as [[n1 ev1] log1].
          destruct (buildCSEMap_log_list ts ev1) as [[ns ev2] log2].
          exists m. simpl in *. set_solver.
        + destruct (buildCSEMap_log t' ev) as [[n1 ev1] log1].
          destruct (IHts Ht ev1) as [m Hm].
          destruct (buildCSEMap_log_list ts ev1) as [[ns ev2] log2].
          exists m. simpl in *. set_solver. }
    exists m. rewrite buildCSEMap_log_unfold.
    destruct (buildCSEMap_log_list ts ev) as [[ns ev1] log1]. simpl in *.
    destruct (invMap ev1 !! expKey o ns vs); simpl; set_solver.
Qed.

Lemma new_CSEEvaluator_wf : cse_wf new_CSEEvaluator.
Proof. split; intros ? ? H; simpl in H; by simplify_map_eq. Qed.

(** ** Memoized evaluation *)

Global Instance eval_le_preorder : PreOrder eval_le.
Proof.
  split.
  - intros st. by split.
  - intros s1 s2 s3 [A1 A2 A3 A4 A5] [B1 B2 B3 B4 B5]. split.
    + congruence.
    + congruence.
    + by trans (promises s2.1).
    + by trans (promiseHeap s2.2).
    + by trans (tableCache s2.2).
Qed.

Lemma prefix_lookup_lt {A} (l1 l2 : list A) (i : nat) :
  l1 `prefix_of` l2 → (i < length l1)%nat → l2 !! i = l1 !! i.
Proof. intros [k ->] Hi. by apply lookup_app_l. Qed.

Lemma eval_inv_store (len0 : nat) (ev : CSEEvaluator) (w w' : World)
    (tableId h : nat) (numExp : NumberedExp) (subs : list nat) :
  eval_inv len0 (ev, w) →
  promises ev !! tableId = None →
  valExps ev !! tableId = Some numExp →
  Forall2 (λ c p, promises ev !! c = Some p) (tableNums numExp) subs →
  world_wf w' →
  promiseHeap w `prefix_of` promiseHeap w' →
  (h < length (promiseHeap w'))%nat →
  (tableNums numExp ≠ [] →
     (len0 ≤ h)%nat ∧
     promiseHeap w' !! h = Some (PAllThen tableId subs (exp numExp))) →
  (∀ h' n subs' e, (length (promiseHeap w) ≤ h')%nat →
     promiseHeap w' !! h' = Some (PAllThen n subs' e) → n = tableId ∧ h' = h) →
  eval_inv len0 (set_promise tableId h ev, w').
Proof.
  intros [Hval Hw Hlen Hprom Hcre] Hnone Hne Hsubs Hw' Hpre Hh Hnode Hnew.
  simpl in *.
  assert (∀ c p, promises ev !! c = Some p →
            <[tableId := h]> (promises ev) !! c = Some p) as Hkeep.
  { intros c p Hc. rewrite lookup_insert_ne; [done|]. congruence. }
  split; simpl.
  - exact Hval.
  - exact Hw'.
  - apply prefix_length in Hpre. lia.
  - intros n h0 Hn. destruct (decide (tableId = n)) as [<-|Hneq].
    + rewrite lookup_insert_eq in Hn. injection Hn as <-.
      split; [done|]. exists numExp, subs. split; [done|]. split; [|done].
      eapply Forall2_impl; [exact Hsubs|]. auto.
    + rewrite lookup_insert_ne in Hn by done.
      destruct (Hprom n h0 Hn) as (Hlt & ne0 & subs0 & Hne0 & Hch & Hnd).
      split; [apply prefix_length in Hpre; lia|].
      exists ne0, subs0. split; [done|]. split.
      * eapply Forall2_impl; [exact Hch|]. auto.
      * intros Hint. destruct (Hnd Hint) as [Hl Hlook]. split; [done|].
        by rewrite (prefix_lookup_lt _ _ _ Hpre).
  - intros h' n subs' e Hl Hlook.
    destruct (decide (h' < length (promiseHeap w))%nat) as [Hlt|Hge].
    + rewrite (prefix_lookup_lt _ _ _ Hpre) in Hlook by done.
      apply Hkeep. by eapply Hcre.
    + destruct (Hnew h' n subs' e) as [-> ->]; [lia|done|].
      by rewrite lookup_insert_eq.
Qed.

Lemma world_wf_alloc (nd : PromiseNode) (w : World) :
  world_wf w →
  (∀ n subs e, nd = PAllThen n subs e →
     Forall (λ p, p < length (promiseHeap w))%nat subs) →
  world_wf (alloc nd w).2.
Proof.
  intros [Hc Hh] Hnd. split; simpl.
  - intros k h Hk. rewrite length_app. simpl. specialize (Hc k h Hk). lia.
  - intros h n subs e Hl. apply lookup_app_Some in Hl as [Hl|[Hlen Hl]].
    + by eapply Hh.
    + apply list_lookup_singleton_Some in Hl as [Hl ->].
      assert (h = length (promiseHeap w)) as -> by lia. by eapply Hnd.
Qed.

Lemma tableRefImpl_spec (tableName : JsVal) (w w' : World) (h : nat) :
  world_wf w → tableRefImpl tableName w = (h, w') →
  world_wf w' ∧
  promiseHeap w `prefix_of` promiseHeap w' ∧
  tableCache w ⊆ tableCache w' ∧
  (h < length (promiseHeap w'))%nat ∧
  (∀ h' n subs e, (length (promiseHeap w) ≤ h')%nat →
     promiseHeap w' !! h' ≠ Some (PAllThen n subs e)).
Proof.
  intros Hw. unfold tableRefImpl.
  destruct (tableCache w !! JsVal_toString tableName) as [tcp|] eqn:Ek.
  - intros [= <- <-]. split; [done|]. split; [done|]. split; [done|].
    split; [by eapply (wf_cache w Hw)|].
    intros h' n subs e Hl Hlook. apply lookup_lt_Some in Hlook. lia.
  - simpl. intros [= <- <-]. simpl.
    pose proof (world_wf_alloc (PLoad (JsVal_toString tableName)) w Hw) as Hw1.
    split; [|split; [|split; [|split]]].
    + destruct Hw1 as [Hc Hh]; [done|]. split; simpl in *.
      * intros k h Hk. destruct (decide (JsVal_toString tableName = k)) as [<-|Hne].
        -- rewrite lookup_insert_eq in Hk. injection Hk as <-.
           rewrite length_app. simpl. lia.
        -- rewrite lookup_insert_ne in Hk by done. by eapply Hc.
      * exact Hh.
    + by apply prefix_app_r.
    + by apply insert_subseteq.
    + rewrite length_app. simpl. lia.
    + intros h' n subs e Hl Hlook.
      apply lookup_app_Some in Hlook as [Hlook|[_ Hlook]].
      * apply lookup_lt_Some in Hlook. lia.
      * by apply list_lookup_singleton_Some in Hlook as [_ ?].
Qed.

Lemma evalTable_unfold (fuel tableId : nat) (st : EvalState) :
  evalTable (S fuel) tableId st =
  match promises st.1 !! tableId with
  | Some resp => Some (Ok resp, st)
  | None =>
      match valExps st.1 !! tableId with
      | None => Some (Throw TypeError, st)
      | Some numExp =>
          eval_bind
            (if bool_decide (0 < length (tableNums numExp))%nat then
               eval_bind (eval_map (evalTable fuel) (tableNums numExp))
                 (λ subTables,
                    new_promise (PAllThen tableId subTables (exp numExp)))
             else call_evalBaseExp (exp numExp))
            (store_promise tableId) st
      end
  end.
Proof. reflexivity. Qed.

Lemma eval_map_cons {A B} (f : A → Eval B) (x : A) (l : list A) (st : EvalState) :
  eval_map f (x :: l) st =
  eval_bind (f x) (λ y, eval_bind (eval_map f l) (λ ys, eval_ret (y :: ys))) st.
Proof. reflexivity. Qed.

Section evalTable_facts.
Context (len0 : nat).

(** What a call of [evalTable] for [tableId] guarantees. *)
Let post (tableId : nat) (st : EvalState) (r : Res nat) (st' : EvalState) : Prop :=
  eval_inv len0 st' ∧ eval_le st st' ∧
  (∀ m, (tableId < m)%nat → promises st'.1 !! m = promises st.1 !! m) ∧
  (∀ p, r = Ok p → promises st'.1 !! tableId = Some p).

Lemma eval_map_spec (fuel bound : nat) :
  (∀ c st, (c < bound)%nat → eval_inv len0 st →
     ∃ r st', evalTable fuel c st = Some (r, st') ∧ post c st r st') →
  ∀ cs st, Forall (λ c, c < bound)%nat cs → eval_inv len0 st →
    ∃ r st', eval_map (evalTable fuel) cs st = Some (r, st') ∧
      eval_inv len0 st' ∧ eval_le st st' ∧
      (∀ m, (bound ≤ m)%nat → promises st'.1 !! m = promises st.1 !! m) ∧
      (∀ ps, r = Ok ps → Forall2 (λ c p, promises st'.1 !! c = Some p) cs ps).
Proof.
  intros IH cs. induction cs as [|c cs IHcs]; intros st Hcs Hinv.
  - exists (Ok []), st. split; [done|]. split; [done|]. split; [done|].
    split; [done|]. intros ps [= <-]. constructor.
  - apply Forall_cons in Hcs as [Hc Hcs].
    destruct (IH c st Hc Hinv) as (r1 & st1 & E1 & Hinv1 & Hle1 & Hfr1 & Hok1).
    rewrite eval_map_cons. unfold eval_bind at 1. rewrite E1.
    destruct r1 as [p|e].
    + destruct (IHcs st1 Hcs Hinv1) as (r2 & st2 & E2 & Hinv2 & Hle2 & Hfr2 & Hok2).
      unfold eval_bind. rewrite E2. destruct r2 as [ps|e].
      * exists (Ok (p :: ps)), st2. split; [done|]. split; [done|].
        split; [by trans st1|]. split.
        -- intros m Hm. rewrite Hfr2 by done. apply Hfr1. lia.
        -- intros ps' [= <-]. constructor; [|by apply Hok2].
           eapply lookup_weaken; [by apply Hok1|]. apply (le_promises _ _ Hle2).
      * exists (Throw e), st2. split; [done|]. split; [done|].
        split; [by trans st1|]. split; [|done].
        intros m Hm. rewrite Hfr2 by done. apply Hfr1. lia.
    + exists (Throw e), st1. split; [done|]. split; [done|]. split; [done|].
      split; [|done]. intros m Hm. apply Hfr1. lia.
Qed.

Lemma evalTable_spec (fuel : nat) :
  ∀ tableId st, (tableId < fuel)%nat → eval_inv len0 st →
    ∃ r st', evalTable fuel tableId st = Some (r, st') ∧ post tableId st r st'.
Proof.
  induction fuel as [|fuel IH]; intros tableId st Hfuel Hinv; [lia|].
  rewrite evalTable_unfold.
  destruct (promises st.1 !! tableId) as [resp|] eqn:Ep.
  { exists (Ok resp), st. split; [done|]. split; [done|]. split; [done|].
    split; [done|]. by intros p [= <-]. }
  destruct (valExps st.1 !! tableId) as [numExp|] eqn:Ev.
  2:{ exists (Throw TypeError), st. split; [done|]. split; [done|].
      split; [done|]. split; done. }
  pose proof (inv_valExps _ _ Hinv _ _ Ev) as Hchildren.
  unfold eval_bind at 1.
  destruct (bool_decide (0 < length (tableNums numExp))%nat) eqn:Eint.
  - (* interior node *)
    apply bool_decide_eq_true in Eint.
    destruct (eval_map_spec fuel tableId) with (cs := tableNums numExp) (st := st)
      as (r1 & st1 & E1 & Hinv1 & Hle1 & Hfr1 & Hok1); [|done|done|].
    { intros c st0 Hc Hinv0. apply IH; [lia|done]. }
    unfold eval_bind. rewrite E1. destruct r1 as [subs|e].
    2:{ exists (Throw e), st1. split; [done|]. split; [done|]. split; [done|].
        split; [|done]. intros m Hm. apply Hfr1. lia. }
    destruct st1 as [ev1 w1]. simpl in *.
    assert (promises ev1 !! tableId = None) as Ep1.
    { rewrite (Hfr1 tableId) by lia. done. }
    assert (valExps ev1 !! tableId = Some numExp) as Ev1.
    { pose proof (le_valExps _ _ Hle1) as Hv. simpl in Hv. by rewrite Hv. }
    specialize (Hok1 subs eq_refl).
    eexists (Ok _), _. split; [reflexivity|]. split; [|split; [|split]].
    + apply (eval_inv_store len0 ev1 w1 _ tableId _ numExp subs); try done.
      * apply world_wf_alloc; [apply (inv_world _ _ Hinv1)|].
        intros n subs' e [= _ <- _].
        eapply Forall2_Forall_r; [exact Hok1|]. apply Forall_forall.
        intros c _ p Hp. by apply (inv_promises _ _ Hinv1) in Hp as [? _].
      * simpl. by apply prefix_app_r.
      * simpl. rewrite length_app. simpl. lia.
      * intros _. split; [apply (inv_len _ _ Hinv1)|].
        simpl. by apply list_lookup_middle.
      * simpl. intros h' n subs' e Hl Hlook.
        apply lookup_app_Some in Hlook as [Hlook|[_ Hlook]].
        -- apply lookup_lt_Some in Hlook. lia.
        -- apply list_lookup_singleton_Some in Hlook as [Hh' [= <- <- <-]].
           split; [done|]. lia.
    + trans (ev1, w1); [done|]. split; simpl; try done.
      * by apply insert_subseteq.
      * by apply prefix_app_r.
    + intros m Hm. simpl. rewrite lookup_insert_ne by lia. apply Hfr1. lia.
    + intros p [= <-]. simpl. by rewrite lookup_insert_eq.
  - (* leaf *)
    apply bool_decide_eq_false in Eint.
    assert (tableNums numExp = []) as Hleaf.
    { destruct (tableNums numExp); [done|]. simpl in Eint. lia. }
    unfold call_evalBaseExp, evalBaseExp.
    destruct (decide (operator (exp numExp) = "table")) as [Hop|Hop].
    2:{ eexists (Throw _), st. split; [reflexivity|]. split; [done|].
        split; [done|]. split; done. }
    destruct (tableRefImpl (default (JPrim PUndefined) (head (valArgs (exp numExp)))) st.2)
      as [h w1] eqn:Et.
    destruct (tableRefImpl_spec _ _ _ _ (inv_world _ _ Hinv) Et)
      as (Hw1 & Hpre & Hcache & Hh & Hnew).
    destruct st as [ev w]. simpl in *.
    eexists (Ok _), _. split; [reflexivity|]. split; [|split; [|split]].
    + apply (eval_inv_store len0 ev w w1 tableId h numExp []); try done.
      * rewrite Hleaf. constructor.
      * intros h' n subs' e Hl Hlook. by destruct (Hnew h' n subs' e Hl).
    + split; simpl; try done. by apply insert_subseteq.
    + intros m Hm. simpl. rewrite lookup_insert_ne by lia. done.
    + intros p [= <-]. simpl. by rewrite lookup_insert_eq.
Qed.
End evalTable_facts.

(** ** Signatures determine the child numbers *)

Lemma split_at_char (c : ascii) (a a' r r' : string) :
  occurs c a = false → occurs c a' = false →
  a +:+ String c r = a' +:+ String c r' → a = a' ∧ r = r'.
Proof.
  revert a'. induction a as [|x a IH]; intros [|x' a'] Ha Ha' E; simpl in *.
  - by injection E as ->.
  - injection E as -> _. by rewrite Ascii.eqb_refl in Ha'.
  - injection E as -> _. by rewrite Ascii.eqb_refl in Ha.
  - injection E as -> E.
    destruct (Ascii.eqb x' c); [done|].
    destruct (IH a' Ha Ha' E) as [-> ->]. done.
Qed.

Lemma all_digits_occurs (c : ascii) (s : string) :
  is_digit c = false → all_digits s = true → occurs c s = false.
Proof.
  intros Hc. induction s as [|a s IH]; simpl; [done|].
  intros [Ha Hs]%andb_true_iff. rewrite (IH Hs).
  destruct (Ascii.eqb_spec a c) as [->|_]; [congruence|done].
Qed.

Lemma pretty_N_char_digit (x : N) : is_digit (pretty_N_char x) = true.
Proof. unfold pretty_N_char. by repeat case_match. Qed.

Lemma pretty_N_go_digits (x : N) (s : string) :
  all_digits s = true → all_digits (pretty_N_go x s) = true.
Proof.
  revert s. induction (N.lt_wf_0 x) as [x _ IH]; intros s Hs.
  destruct (decide (x = 0)%N) as [->|Hx]; [by rewrite pretty_N_go_0|].
  rewrite pretty_N_go_step by lia. apply IH.
  - apply N.div_lt; lia.
  - simpl. by rewrite pretty_N_char_digit.
Qed.

Lemma pretty_N_go_nonempty (x : N) (s : string) :
  s ≠ "" → pretty_N_go x s ≠ "".
Proof.
  revert s. induction (N.lt_wf_0 x) as [x _ IH]; intros s Hs.
  destruct (decide (x = 0)%N) as [->|Hx]; [by rewrite pretty_N_go_0|].
  rewrite pretty_N_go_step by lia. apply IH; [apply N.div_lt; lia|done].
Qed.

Lemma pretty_nat_digits (n : nat) :
  all_digits (pretty n) = true ∧ pretty n ≠ "".
Proof.
  unfold pretty, pretty_nat, pretty, pretty_N.
  destruct (decide (N.of_nat n = 0)%N) as [_|Hn]; [done|]. split.
  - by apply pretty_N_go_digits.
  - rewrite pretty_N_go_step by lia. by apply pretty_N_go_nonempty.
Qed.

Lemma occurs_app (c : ascii) (a b : string) :
  occurs c (a +:+ b) = occurs c a || occurs c b.
Proof. induction a as [|x a IH]; simpl; [done|]. by destruct (Ascii.eqb x c). Qed.






(** ** Every recorded expression comes from the query *)




(** ** Settling *)

Section settle_facts.
Context (fetch : Fetch) (M : OpImplMap).






End settle_facts.




(** ** Every subexpression is requested *)







Lemma empty_World_wf : world_wf empty_World.
Proof. split; intros; simpl in *; by simplify_map_eq. Qed.


(** ** Literal arguments that are functions *)

(** C2: two [extend] nodes over the same table that differ only in their
    generator function receive the same value number: [JSON.stringify]
    writes every function as [null], so their signatures coincide, and
    only the first node is recorded. *)
Theorem distinct_generators_share_value_number :
  let q1 := extend_query "c" "integer" (JFun 1 "row => row.v + 1") (table_query "t") in
  let q2 := extend_query "c" "integer" (JFun 2 "row => row.v * 2") (table_query "t") in
  q1 ≠ q2 ∧
  expKey (operator q1) [0%nat] (valArgs q1) = expKey (operator q2) [0%nat] (valArgs q2) ∧
  ∃ rootId ev log,
    buildCSEMap_log example_two_generators new_CSEEvaluator = (rootId, ev, log) ∧
    (q1, 1%nat) ∈ log ∧ (q2, 1%nat) ∈ log ∧
    length (valExps ev) = 3%nat ∧
    exp <$> valExps ev !! 1%nat = Some q1 ∧
    tableNums <$> valExps ev !! rootId = Some [1; 1]%nat.
Proof.
  intros q1 q2. split; [done|]. split; [reflexivity|].
  eexists _, _, _. split; [reflexivity|].
  split; [|split; [|split; [|split]]]; try reflexivity.
  - apply list_elem_of_In. vm_compute. auto 10.
  - apply list_elem_of_In. vm_compute. auto 10.
Qed.

(** ** Load failures *)

Lemma loadTable_rejected (fetch : Fetch) (tableName : string) (error : JsError) :
  fetch tableName = Rejected error → loadTable fetch tableName = Fulfilled None.
Proof. intros H. unfold loadTable. by rewrite H. Qed.

(** C9: when the fetch of a table is rejected, the promise [loadTable]
    returns is fulfilled with [undefined], and that is what the caller of
    the top-level evaluation of a reference to this table observes. *)
Theorem failed_load_fulfils_undefined :
  example_fetch "nope" = Rejected (Error "404") ∧
  loadTable example_fetch "nope" = Fulfilled None ∧
  observe example_fetch project_concat_OpImplMap
    (localEvalQuery (table_query "nope") empty_World) = Some (Ok (Fulfilled None)).
Proof. repeat split. Qed.

(** * Further properties of the operators *)

(** ** project: errors and composition *)





Lemma index_of_Some (c : string) (cols : list string) :
  c ∈ cols → ∃ i, index_of c cols = Some i ∧ cols !! i = Some c.
Proof.
  induction cols as [|x cols IH]; intros Hc; [by apply not_elem_of_nil in Hc|].
  simpl. destruct (decide (x = c)) as [->|Hne].
  - by exists 0%nat.
  - destruct IH as (i & Hi & Hl); [set_solver|]. exists (S i). by rewrite Hi.
Qed.

Lemma index_of_None (c : string) (cols : list string) :
  c ∉ cols → index_of c cols = None.
Proof.
  induction cols as [|x cols IH]; intros Hc; [done|]. simpl.
  rewrite decide_False by set_solver. rewrite IH by set_solver. done.
Qed.

(** X2: projecting onto [cols1] and then onto columns [cols2] taken from
    [cols1] is projecting onto [cols2] at once. *)
Theorem project_project (cols1 cols2 : list string) (t : TableRep) :
  (∀ c, c ∈ cols1 → is_Some (columnMetadata (schema t) !! c)) →
  cols2 ⊆ cols1 →
  (t1 ← projectImpl cols1 [t]; projectImpl cols2 [t1]) = projectImpl cols2 [t].
Proof.
  intros Hmd Hsub. unfold projectImpl. simpl.
  rewrite (calcProjectionPermutation_ok (schema t) cols1) by done. simpl.
  rewrite (calcProjectionPermutation_ok (schema t) cols2) by (intros; apply Hmd; auto).
  rewrite calcProjectionPermutation_ok by (simpl; intros; apply Hmd; auto).
  simpl. do 2 f_equal. rewrite <- list_fmap_compose.
  apply list_fmap_ext. intros _ r _.
  unfold compose, permute.
  apply list_eq. intros j. rewrite !list_lookup_fmap.
  destruct (cols2 !! j) as [c|] eqn:Ec; [|done].
  cbn [fmap option_fmap option_map]. f_equal.
  change (columnIndex (mkSchema cols1 (columnMetadata (schema t))) c)
    with (index_of c cols1).
  destruct (index_of_Some c cols1) as (i & Hidx & Hi).
  { apply Hsub. by eapply list_elem_of_lookup_2. }
  rewrite Hidx. cbn [row_get].
  rewrite (list_lookup_fmap (row_get r) _ i), (list_lookup_fmap _ cols1 i), Hi. done.
Qed.

Lemma project_project_witness :
  (t1 ← projectImpl ["v"; "k"] [example_groupBy_input]; projectImpl ["k"] [t1])
  = projectImpl ["k"] [example_groupBy_input].
Proof.
  apply (project_project ["v"; "k"] ["k"] example_groupBy_input).
  - intros c Hc. apply list_elem_of_In in Hc. simpl in Hc.
    destruct Hc as [<-|[<-|[]]]; vm_compute; eauto.
  - set_solver.
Defined.

(** X3: [projectImpl] hands the whole metadata mapping on, so a column
    that an earlier projection dropped still passes the check: projecting
    onto it succeeds and fills the column with [undefined]. *)
Theorem project_dropped_column (c : string) (t : TableRep) :
  c ∉ columns (schema t) →
  is_Some (columnMetadata (schema t) !! c) →
  projectImpl [c] [t] =
  Ok (mkTableRep (mkSchema [c] (columnMetadata (schema t)))
        ((λ _, [PUndefined]) <$> rowData t)).
Proof.
  intros Hc Hmd. unfold projectImpl. simpl.
  rewrite calcProjectionPermutation_ok
    by (intros c' ->%list_elem_of_singleton; done).
  simpl. unfold columnIndex. by rewrite index_of_None.
Qed.

Lemma project_dropped_column_witness :
  (t1 ← projectImpl ["k"] [example_groupBy_input]; projectImpl ["v"] [t1]) =
  Ok (mkTableRep (mkSchema ["v"] (columnMetadata (schema example_groupBy_input)))
        [[PUndefined]; [PUndefined]; [PUndefined]]).
Proof.
  assert (projectImpl ["k"] [example_groupBy_input] =
          Ok (mkTableRep (mkSchema ["k"] (columnMetadata (schema example_groupBy_input)))
                [[PStr "x"]; [PStr "x"]; [PStr "y"]])) as -> by reflexivity.
  simpl.
  rewrite (project_dropped_column "v"); [reflexivity| |].
  - simpl. set_solver.
  - vm_compute. eauto.
Defined.

(** ** filter: composition and compilation *)

Lemma mapM_res_app {A B} (f : A → Res B) (l1 l2 : list A) :
  mapM_res f (l1 ++ l2) =
  (ys1 ← mapM_res f l1; ys2 ← mapM_res f l2; Ok (ys1 ++ ys2)).
Proof.
  induction l1 as [|x l1 IH]; simpl.
  - by destruct (mapM_res f l2).
  - destruct (f x) as [y|e]; [simpl|done]. rewrite IH.
    destruct (mapM_res f l1) as [ys1|e]; [simpl|done].
    by destruct (mapM_res f l2).
Qed.

Lemma compileSubExp_and (s : Schema) (args : list SubExp) :
  compileSubExp s (SFilterExp "AND" args) = compileAndExp s args.
Proof.
  unfold compileAndExp. simpl. f_equal.
  induction args as [|a args IH]; [done|]. simpl. by rewrite IH.
Qed.

Lemma and_pred_app (l1 l2 : list RowPred) (row : Row) :
  and_pred (l1 ++ l2) row = and_pred l1 row && and_pred l2 row.
Proof. unfold and_pred. apply forallb_app. Qed.

(** X4: filtering by the conjunction of two argument lists is filtering
    by the first and then filtering the result by the second, errors
    included. *)
Theorem filter_and_sequential (a b : list SubExp) (ts : list TableRep) :
  filterImpl (mkFilterExp "AND" (a ++ b)) ts =
  (t1 ← filterImpl (mkFilterExp "AND" a) ts;
   filterImpl (mkFilterExp "AND" b) [t1]).
Proof.
  destruct ts as [|t ts]; [done|].
  unfold filterImpl, compileFilterExp, compileExp, compileAndExp. simpl.
  rewrite mapM_res_app.
  destruct (mapM_res (compileSubExp (schema t)) a) as [pa|e]; [simpl|done].
  destruct (mapM_res (compileSubExp (schema t)) b) as [pb|e]; [simpl|done].
  f_equal. f_equal. rewrite list_filter_filter. apply list_filter_iff.
  intros row. rewrite and_pred_app, andb_true_iff. tauto.
Qed.

(** X5: a nested [AND] is the same filter as its arguments spliced into
    the enclosing [AND]. *)
Theorem filter_nested_and_flattens (inner rest : list SubExp) (ts : list TableRep) :
  filterImpl (mkFilterExp "AND" (SFilterExp "AND" inner :: rest)) ts =
  filterImpl (mkFilterExp "AND" (inner ++ rest)) ts.
Proof.
  destruct ts as [|t ts]; [done|].
  unfold filterImpl, compileFilterExp, compileExp. simpl first_table. simpl op.
  simpl opArgs. cbn [mbind Res_bind]. rewrite !decide_True by done.
  unfold compileAndExp. rewrite mapM_res_app.
  change (mapM_res (compileSubExp (schema t)) (SFilterExp "AND" inner :: rest))
    with (y ← compileSubExp (schema t) (SFilterExp "AND" inner);
          ys ← mapM_res (compileSubExp (schema t)) rest; Ok (y :: ys)).
  rewrite compileSubExp_and. unfold compileAndExp.
  destruct (mapM_res (compileSubExp (schema t)) inner) as [pa|e]; [simpl|done].
  destruct (mapM_res (compileSubExp (schema t)) rest) as [pb|e]; [simpl|done].
  f_equal. f_equal. apply list_filter_iff.
  intros row. change (and_pred (and_pred pa :: pb) row)
    with (and_pred pa row && and_pred pb row).
  by rewrite and_pred_app.
Qed.

Lemma SubExp_ind' (P : SubExp → Prop) :
  (∀ o lhs rhs, P (SRelExp o lhs rhs)) →
  (∀ o args, Forall P args → P (SFilterExp o args)) →
  (∀ json, P (SUnknown json)) →
  ∀ se, P se.
Proof.
  intros Hrel Hfil Hunk. fix IH 1. intros [o lhs rhs|o args|json].
  - apply Hrel.
  - apply Hfil. induction args as [|a args IHargs]; constructor; [apply IH|done].
  - apply Hunk.
Qed.

Lemma compilable_and (s : Schema) (o : string) (args : list SubExp) :
  compilable s (SFilterExp o args) =
  bool_decide (o = "AND") && forallb (compilable s) args.
Proof.
  reflexivity.
Qed.

Lemma compileAccessor_ok (s : Schema) (vexp : ValExp) :
  (∃ f, compileAccessor s vexp = Ok f) ↔ known_valexp s vexp = true.
Proof.
  destruct vexp as [c|v]; simpl.
  - rewrite bool_decide_eq_true. destruct (columnIndex s c) as [i|].
    + split; eauto.
    + split; [by intros [f Hf]|by intros [i Hi]].
  - split; eauto.
Qed.

Lemma mapM_res_is_ok {A B} (f : A → Res B) (l : list A) :
  (∃ ys, mapM_res f l = Ok ys) ↔ Forall (λ x, ∃ y, f x = Ok y) l.
Proof.
  induction l as [|x l IH]; simpl.
  - split; eauto.
  - rewrite Forall_cons, <- IH. split.
    + intros [ys Hys]. destruct (f x) as [y|e]; [|done]. simpl in Hys.
      destruct (mapM_res f l) as [ys'|e]; [|done]. eauto.
    + intros [[y ->] [ys ->]]. simpl. eauto.
Qed.

Lemma compileSubExp_ok (s : Schema) (se : SubExp) :
  (∃ p, compileSubExp s se = Ok p) ↔ compilable s se = true.
Proof.
  induction se as [o lhs rhs|o args IH|json] using SubExp_ind'.
  - simpl. unfold compileRelOp. rewrite andb_true_iff, <- !compileAccessor_ok.
    split.
    + intros [p Hp]. destruct (compileAccessor s lhs); [|done].
      destruct (compileAccessor s rhs); [|done]. eauto.
    + intros [[f ->] [g ->]]. simpl. eauto.
  - rewrite compilable_and, andb_true_iff, bool_decide_eq_true.
    destruct (decide (o = "AND")) as [->|Hne].
    + rewrite compileSubExp_and. unfold compileAndExp.
      rewrite forallb_forall.
      assert ((∃ ys, mapM_res (compileSubExp s) args = Ok ys) ↔
              ∀ a, In a args → compilable s a = true) as <-.
      { rewrite mapM_res_is_ok, !Forall_forall.
        rewrite Forall_forall in IH. split.
        - intros H a Ha%list_elem_of_In. apply IH; auto.
        - intros H a Ha. apply IH; [done|]. apply H. by apply list_elem_of_In. }
      split.
      * intros [p Hp]. split; [done|].
        destruct (mapM_res (compileSubExp s) args); [eauto|done].
      * intros [_ [ys ->]]. simpl. eauto.
    + simpl. rewrite decide_False by done. unfold compileOrExp.
      split; [by intros [p Hp]|by intros [? _]].
  - simpl. split; [by intros [p Hp]|done].
Qed.

(** X6: when a filter can be evaluated at all.  A filter over a non-empty
    table list succeeds exactly when its operator is [AND] and every
    argument, at any depth, is a comparison between known columns and
    constants or again such an [AND]; otherwise it throws. *)
Theorem filter_succeeds_iff (fexp : FilterExp) (t : TableRep) (ts : list TableRep) :
  (∃ out, filterImpl fexp (t :: ts) = Ok out) ↔
  op fexp = "AND" ∧ forallb (compilable (schema t)) (opArgs fexp) = true.
Proof.
  destruct fexp as [o args].
  pose proof (compileSubExp_ok (schema t) (SFilterExp o args)) as H.
  rewrite compilable_and, andb_true_iff, bool_decide_eq_true in H.
  simpl op. simpl opArgs. rewrite <- H.
  unfold filterImpl, compileFilterExp, compileExp. simpl first_table.
  simpl op. simpl opArgs. cbn [mbind Res_bind].
  destruct (decide (o = "AND")) as [->|Hne].
  - rewrite compileSubExp_and.
    destruct (compileAndExp (schema t) args) as [p|e]; split; eauto;
      by intros [? ?].
  - simpl. rewrite decide_False by done. unfold compileOrExp.
    split; by intros [? ?].
Qed.

Lemma mapM_res_Permutation {A B} (f : A → Res B) (l l' : list A) (ys : list B) :
  l ≡ₚ l' → mapM_res f l = Ok ys →
  ∃ ys', mapM_res f l' = Ok ys' ∧ ys ≡ₚ ys'.
Proof.
  intros Hp. revert ys. induction Hp as [|x l l' Hp IH|x y l|l l' l'' Hp1 IH1 Hp2 IH2];
    intros ys Hys.
  - exists []. by simplify_eq/=.
  - simpl in *. destruct (f x) as [z|e]; [|done]. simpl in *.
    destruct (mapM_res f l) as [zs|e] eqn:E; [|done]. simpl in Hys.
    injection Hys as <-. destruct (IH zs eq_refl) as (zs' & -> & Hzs).
    simpl. eexists. split; [done|]. by constructor.
  - simpl in *. destruct (f y) as [zy|e]; [|done]. simpl in *.
    destruct (f x) as [zx|e]; [|done]. simpl in *.
    destruct (mapM_res f l) as [zs|e]; [|done]. simpl in *.
    injection Hys as <-. eexists. split; [done|]. apply perm_swap.
  - destruct (IH1 ys Hys) as (ys' & Hys' & Hp').
    destruct (IH2 ys' Hys') as (ys'' & Hys'' & Hp'').
    exists ys''. split; [done|]. by etrans.
Qed.

Lemma and_pred_Permutation (ps ps' : list RowPred) (row : Row) :
  ps ≡ₚ ps' → and_pred ps row = and_pred ps' row.
Proof.
  intros Hp. unfold and_pred. apply eq_true_iff_eq.
  rewrite !forallb_forall. split; intros H p Hin%list_elem_of_In;
    apply H, list_elem_of_In; [by rewrite Hp|by rewrite <- Hp].
Qed.

(** X7: the order of the arguments of an [AND] does not matter for the
    result of a filter that succeeds. *)
Theorem filter_and_permutation (args args' : list SubExp)
    (ts : list TableRep) (out : TableRep) :
  args ≡ₚ args' →
  filterImpl (mkFilterExp "AND" args) ts = Ok out →
  filterImpl (mkFilterExp "AND" args') ts = Ok out.
Proof.
  intros Hp. destruct ts as [|t ts]; [done|].
  unfold filterImpl, compileFilterExp, compileExp, compileAndExp. simpl.
  destruct (mapM_res (compileSubExp (schema t)) args) as [ps|e] eqn:E; [|done].
  destruct (mapM_res_Permutation _ _ _ _ Hp E) as (ps' & -> & Hps).
  simpl. intros [= <-]. do 2 f_equal. apply list_filter_iff.
  intros row. by rewrite (and_pred_Permutation ps ps' row Hps).
Qed.

Lemma filter_and_permutation_witness :
  let a := SRelExp GT (ColRef "v") (ConstVal (PNum 1)) in
  let b := SRelExp EQ (ColRef "k") (ConstVal (PStr "x")) in
  filterImpl (mkFilterExp "AND" [b; a]) [example_groupBy_input] =
  Ok (mkTableRep (schema example_groupBy_input) [[PStr "x"; PNum 2]]).
Proof.
  intros a b.
  apply (filter_and_permutation [a; b] [b; a] [example_groupBy_input]).
  - apply perm_swap.
  - vm_compute. reflexivity.
Defined.

(** X8: filtering is idempotent: filtering the result again by the same
    expression changes nothing. *)
Theorem filter_idempotent (fexp : FilterExp) (ts : list TableRep) :
  (t1 ← filterImpl fexp ts; filterImpl fexp [t1]) = filterImpl fexp ts.
Proof.
  destruct ts as [|t ts]; [done|].
  unfold filterImpl. simpl first_table. cbn [mbind Res_bind].
  destruct (compileFilterExp (schema t) fexp) as [p|e] eqn:E; [|done].
  simpl. rewrite E. simpl. do 2 f_equal.
  rewrite list_filter_filter. apply list_filter_iff. intros row. tauto.
Qed.

Lemma relOpFnMap_Z (o : RelOp) (x y : Z) :
  relOpFnMap o (PNum x) (PNum y) = relop_Z o x y.
Proof.
  destruct o; simpl; unfold strict_eq, js_gt, js_ge, js_le, js_lt; simpl.
  - destruct (Z.eqb_spec x y) as [->|Hne].
    + by rewrite bool_decide_eq_true_2.
    + rewrite bool_decide_eq_false_2; [done|]. by intros [= ->].
  - by destruct (y <? x).
  - rewrite Z.leb_antisym. by destruct (x <? y).
  - rewrite Z.leb_antisym. by destruct (y <? x).
  - by destruct (x <? y).
Qed.

(** X9: comparing an integer column with an integer constant.  When
    every cell of the column is an integer, [NaN] or missing, the filter
    keeps exactly the rows whose cell is an integer in the stated relation
    to the constant; a row whose cell is [NaN] or missing is dropped
    whatever the operator. *)
Theorem filter_integer_comparison (o : RelOp) (c : string) (k : Z) (i : nat)
    (t : TableRep) (ts : list TableRep) :
  columnIndex (schema t) c = Some i →
  (∀ row, row ∈ rowData t →
     (∃ x, row !! i = Some (PNum x)) ∨ row !! i = Some PNaN ∨
     row !! i = Some PUndefined ∨ row !! i = None) →
  ∃ out,
    filterImpl (mkFilterExp "AND" [SRelExp o (ColRef c) (ConstVal (PNum k))])
               (t :: ts) = Ok out ∧
    schema out = schema t ∧
    sublist (rowData out) (rowData t) ∧
    ∀ row, row ∈ rowData out ↔
           row ∈ rowData t ∧ ∃ x, row !! i = Some (PNum x) ∧ relop_Z o x k = true.
Proof.
  intros Hidx Hcells.
  unfold filterImpl, compileFilterExp, compileExp, compileAndExp. simpl.
  unfold compileRelOp. simpl. rewrite Hidx. simpl.
  eexists. split; [done|]. simpl. split_and!; [done|apply sublist_filter|].
  intros row. rewrite list_elem_of_filter. unfold and_pred. simpl.
  rewrite andb_true_r.
  split.
  - intros [Hp Hin]. split; [done|].
    destruct (Hcells row Hin) as [[x Hx]|[Hx|[Hx|Hx]]]; rewrite Hx in Hp; simpl in Hp.
    + exists x. by rewrite relOpFnMap_Z in Hp.
    + by destruct o.
    + by destruct o.
    + by destruct o.
  - intros [Hin (x & Hx & Hrel)]. split; [|done].
    rewrite Hx. simpl. by rewrite relOpFnMap_Z.
Qed.

Lemma filter_integer_comparison_witness :
  ∃ out,
    filterImpl (mkFilterExp "AND" [SRelExp GE (ColRef "v") (ConstVal (PNum 2))])
               [example_groupBy_input] = Ok out ∧
    schema out = schema example_groupBy_input ∧
    sublist (rowData out) (rowData example_groupBy_input) ∧
    ∀ row, row ∈ rowData out ↔
           row ∈ rowData example_groupBy_input ∧
           ∃ x, row !! 1%nat = Some (PNum x) ∧ relop_Z GE x 2 = true.
Proof.
  apply (filter_integer_comparison GE "v" 2 1 example_groupBy_input []).
  - reflexivity.
  - intros row Hin. left. apply list_elem_of_In in Hin. simpl in Hin.
    destruct Hin as [<-|[<-|[<-|[]]]]; eexists; reflexivity.
Defined.

(** ** groupBy: aggregator lookup, degenerate keys, key encoding *)

Lemma groupByImpl_rows (cols aggs : list string) (t : TableRep)
    (ts : list TableRep) (accs0 : list AggAcc) :
  (∀ c, c ∈ cols ++ aggs → is_Some (columnMetadata (schema t) !! c)) →
  mkAggAccs (schema t) aggs = Ok accs0 →
  groupByImpl cols aggs (t :: ts) =
  Ok (mkTableRep (mkSchema (cols ++ aggs) (columnMetadata (schema t)))
        (groupBy_spec_rows (columnIndex (schema t) <$> cols)
           (columnIndex (schema t) <$> aggs) accs0 (rowData t))).
Proof.
  intros Hmd Haccs. unfold groupByImpl. simpl.
  rewrite !calcProjectionPermutation_ok by (intros c Hc; apply Hmd; set_solver).
  simpl. rewrite (groupBy_fold_pure _ _ _ _ _ Haccs). simpl.
  do 2 f_equal. apply (groupBy_fold_rows _ _ accs0).
Qed.




Lemma first_occurrences_const (k : string) (l : list string) :
  (∀ k', k' ∈ l → k' = k) → first_occurrences (k :: l) = [k].
Proof.
  intros H. simpl. f_equal.
  assert (∀ k', k' ∈ first_occurrences l → k' = k) as H'.
  { intros k' Hk'. apply H. by apply first_occurrences_elem. }
  induction (first_occurrences l) as [|y l' IH]; [done|].
  rewrite filter_cons_False; [|intros Hne; apply Hne, H'; set_solver].
  apply IH. intros k' Hk'. apply H'. set_solver.
Qed.

Lemma groupBy_spec_rows_single (kp ap : list (option nat)) (accs0 : list AggAcc)
    (r0 : Row) (rest : list Row) :
  (∀ r, r ∈ rest → row_key kp r = row_key kp r0) →
  groupBy_spec_rows kp ap accs0 (r0 :: rest) =
  [permute r0 kp ++
   (finalize <$> foldl (λ accs r, feed (permute r ap) accs) accs0 (r0 :: rest))].
Proof.
  intros Hk. unfold groupBy_spec_rows. rewrite fmap_cons.
  rewrite first_occurrences_const
    by (intros k' (r & -> & Hr)%list_elem_of_fmap; auto).
  simpl. unfold group_output.
  assert (group_members kp (r0 :: rest) (row_key kp r0) = r0 :: rest) as ->.
  { unfold group_members.
    assert (∀ r, r ∈ r0 :: rest → row_key kp r = row_key kp r0) as Hall
      by (intros r [->|Hr]%elem_of_cons; auto).
    induction (r0 :: rest) as [|r l IH]; [done|].
    rewrite filter_cons_True by (apply Hall; set_solver).
    f_equal. apply IH. intros r' Hr'. apply Hall. set_solver. }
  done.
Qed.

(** X11: grouping by no key columns aggregates a non-empty table into a
    single row holding the finalized aggregators fed with every row in
    input order. *)
Theorem groupBy_no_keys_single_row (aggs : list string) (t : TableRep)
    (ts : list TableRep) (accs0 : list AggAcc) :
  (∀ c, c ∈ aggs → is_Some (columnMetadata (schema t) !! c)) →
  mkAggAccs (schema t) aggs = Ok accs0 →
  rowData t ≠ [] →
  groupByImpl [] aggs (t :: ts) =
  Ok (mkTableRep (mkSchema aggs (columnMetadata (schema t)))
        [finalize <$>
           foldl (λ accs r, feed (permute r (columnIndex (schema t) <$> aggs)) accs)
                 accs0 (rowData t)]).
Proof.
  intros Hmd Haccs Hne. rewrite (groupByImpl_rows [] aggs t ts accs0) by done.
  destruct (rowData t) as [|r0 rest]; [done|].
  by rewrite groupBy_spec_rows_single.
Qed.

Lemma groupBy_no_keys_single_row_witness :
  groupByImpl [] ["v"] [example_groupBy_input] =
  Ok (mkTableRep (mkSchema ["v"] (columnMetadata (schema example_groupBy_input)))
        [[PNum 8]]).
Proof.
  rewrite (groupBy_no_keys_single_row ["v"] example_groupBy_input []
             [AccSum SumAgg.new]).
  - vm_compute. reflexivity.
  - intros c ->%list_elem_of_singleton. vm_compute. eauto.
  - reflexivity.
  - discriminate.
Defined.

Lemma key_string_fmap (keyData : Row) :
  key_string keyData =
  "[" +:+ join "," ((λ p, default "null" (stringify_prim p)) <$> keyData) +:+ "]".
Proof.
  unfold key_string, stringify_array. simpl. do 3 f_equal.
  induction keyData as [|p k IH]; [done|]. simpl. f_equal. exact IH.
Qed.

(** X12: the encoded key writes [null], [undefined] and [NaN] alike.
    When the key cells of every row agree with those of the first row up
    to exchanging these three values, the whole table is one group: one
    output row, which carries the key values of the first row. *)
Theorem groupBy_null_like_keys_merge (cols aggs : list string) (t : TableRep)
    (ts : list TableRep) (accs0 : list AggAcc) (r0 : Row) (rest : list Row) :
  (∀ c, c ∈ cols ++ aggs → is_Some (columnMetadata (schema t) !! c)) →
  mkAggAccs (schema t) aggs = Ok accs0 →
  rowData t = r0 :: rest →
  (∀ r, r ∈ rest →
     Forall2 (λ a b, a = b ∨ (a ∈ [PNull; PUndefined; PNaN] ∧
                              b ∈ [PNull; PUndefined; PNaN]))
       (permute r (columnIndex (schema t) <$> cols))
       (permute r0 (columnIndex (schema t) <$> cols))) →
  groupByImpl cols aggs (t :: ts) =
  Ok (mkTableRep (mkSchema (cols ++ aggs) (columnMetadata (schema t)))
        [permute r0 (columnIndex (schema t) <$> cols) ++
         (finalize <$>
            foldl (λ accs r, feed (permute r (columnIndex (schema t) <$> aggs)) accs)
                  accs0 (r0 :: rest))]).
Proof.
  intros Hmd Haccs Hrows Hkeys.
  rewrite (groupByImpl_rows cols aggs t ts accs0), Hrows by done.
  rewrite groupBy_spec_rows_single; [done|].
  intros r Hr. unfold row_key. rewrite !key_string_fmap. do 3 f_equal.
  pose proof (Hkeys r Hr) as HF. clear Hkeys.
  induction HF as [|a b ka kb Hab _ IH]; [done|].
  rewrite !fmap_cons, IH. f_equal.
  destruct Hab as [->|[Ha Hb]]; [done|].
  apply list_elem_of_In in Ha, Hb. simpl in Ha, Hb.
  destruct Ha as [<-|[<-|[<-|[]]]], Hb as [<-|[<-|[<-|[]]]]; done.
Qed.

Lemma groupBy_null_like_keys_merge_witness :
  let md : gmap string ColumnMetadata :=
    <["k" := mkColumnMetadata "text" None]>
      (<["v" := mkColumnMetadata "integer" None]> ∅) in
  groupByImpl ["k"] ["v"]
    [mkTableRep (mkSchema ["k"; "v"] md) [[PNull; PNum 1]; [PNaN; PNum 2]; [PUndefined; PNum 4]]] =
  Ok (mkTableRep (mkSchema ["k"; "v"] md) [[PNull; PNum 7]]).
Proof.
  intros md.
  rewrite (groupBy_null_like_keys_merge ["k"] ["v"]
             (mkTableRep (mkSchema ["k"; "v"] md)
                [[PNull; PNum 1]; [PNaN; PNum 2]; [PUndefined; PNum 4]]) []
             [AccSum SumAgg.new] [PNull; PNum 1]
             [[PNaN; PNum 2]; [PUndefined; PNum 4]]).
  - vm_compute. reflexivity.
  - intros c Hc. apply list_elem_of_In in Hc. simpl in Hc.
    destruct Hc as [<-|[<-|[]]]; vm_compute; eauto.
  - reflexivity.
  - reflexivity.
  - intros r Hr. apply list_elem_of_In in Hr. simpl in Hr.
    destruct Hr as [<-|[<-|[]]]; vm_compute.
    + constructor; [|constructor]. right. split; set_solver.
    + constructor; [|constructor]. right. split; set_solver.
Defined.

Lemma pretty_N_digits (x : N) : all_digits (pretty x) = true ∧ pretty x ≠ "".
Proof.
  rewrite <- (N2Nat.id x). apply (pretty_nat_digits (N.to_nat x)).
Qed.

Lemma occurs_String (c a : ascii) (s : string) :
  occurs c (String a s) = if Ascii.eqb a c then true else occurs c s.
Proof. reflexivity. Qed.

Lemma pretty_Z_chars (c : ascii) (z : Z) :
  is_digit c = false → c ≠ "-"%char →
  occurs c (pretty z) = false ∧ pretty z ≠ "".
Proof.
  intros Hd Hm. destruct z as [|p|p]; unfold pretty, pretty_Z.
  - split; [|done]. rewrite occurs_String.
    destruct (Ascii.eqb_spec "0" c) as [<-|]; [by vm_compute in Hd|done].
  - destruct (pretty_N_digits (Npos p)) as [H1 H2]. split; [|done].
    by apply all_digits_occurs.
  - destruct (pretty_N_digits (Npos p)) as [H1 H2]. split; [|done].
    change ("-" +:+ ?x) with (String "-" x). rewrite occurs_String.
    destruct (Ascii.eqb_spec "-" c) as [<-|]; [done|].
    by apply all_digits_occurs.
Qed.

Lemma join_comma_occurs (c : ascii) (l : list string) :
  c ≠ ","%char → Forall (λ x, occurs c x = false) l →
  occurs c (join "," l) = false.
Proof.
  intros Hc. induction 1 as [|x l Hx Hl IH]; [done|].
  destruct l as [|y l]; [done|].
  change (join "," (x :: y :: l)) with (x +:+ "," +:+ join "," (y :: l)).
  rewrite !occurs_app, IH, Hx. change (occurs c ",") with
    (if Ascii.eqb "," c then true else false).
  destruct (Ascii.eqb_spec "," c) as [<-|]; done.
Qed.

Lemma join_comma_inj_free (l l' : list string) :
  Forall (λ x, occurs ","%char x = false ∧ x ≠ "") l →
  Forall (λ x, occurs ","%char x = false ∧ x ≠ "") l' →
  join "," l = join "," l' → l = l'.
Proof.
  intros Hl. revert l'. induction Hl as [|x l [Ox Hxne] Hl IH]; intros l' Hl' E.
  - destruct Hl' as [|x' l' [Ox' Hxne'] Hl']; [done|].
    destruct l'; simpl in E; [done|]. by destruct x'.
  - destruct Hl' as [|x' l' [Ox' Hxne'] Hl'].
    { destruct l; simpl in E; [done|]. by destruct x. }
    destruct l as [|y l], l' as [|y' l'].
    + simpl in E. by subst.
    + exfalso. change (join "," (x' :: y' :: l')) with (x' +:+ "," +:+ join "," (y' :: l')) in E.
      simpl in E. rewrite E, occurs_app in Ox. simpl in Ox.
      by rewrite orb_true_r in Ox.
    + exfalso. change (join "," (x :: y :: l)) with (x +:+ "," +:+ join "," (y :: l)) in E.
      simpl in E. rewrite <- E, occurs_app in Ox'. simpl in Ox'.
      by rewrite orb_true_r in Ox'.
    + change (join "," (x :: y :: l)) with (x +:+ "," +:+ join "," (y :: l)) in E.
      change (join "," (x' :: y' :: l')) with (x' +:+ "," +:+ join "," (y' :: l')) in E.
      destruct (split_at_char ","%char x x' _ _ Ox Ox' E) as [-> E'].
      f_equal. by apply IH.
Qed.

Lemma key_string_integers (ns : list Z) :
  key_string (PNum <$> ns) = "[" +:+ join "," (pretty <$> ns) +:+ "]".
Proof. rewrite key_string_fmap, <- list_fmap_compose. done. Qed.

Lemma key_string_integers_inj (ns ns' : list Z) :
  key_string (PNum <$> ns) = key_string (PNum <$> ns') → ns = ns'.
Proof.
  rewrite !key_string_integers. intros E. simpl in E. injection E as E.
  assert (∀ l : list Z, Forall (λ x, occurs "]"%char x = false) (pretty <$> l)) as Hb.
  { intros l. apply Forall_fmap, Forall_forall. intros z _.
    by apply pretty_Z_chars. }
  assert (∀ l : list Z,
            Forall (λ x, occurs ","%char x = false ∧ x ≠ "") (pretty <$> l)) as Hc.
  { intros l. apply Forall_fmap, Forall_forall. intros z _.
    by apply pretty_Z_chars. }
  apply (split_at_char "]"%char) in E as [E _];
    [|by apply join_comma_occurs..].
  apply join_comma_inj_free in E; [|done..].
  revert E. apply (inj (fmap pretty)).
Qed.

Lemma integer_cells (k : Row) :
  Forall (λ v, ∃ n, v = PNum n) k → ∃ ns, k = PNum <$> ns.
Proof.
  induction 1 as [|v k [n ->] _ [ns ->]]; [by exists []|by exists (n :: ns)].
Qed.

(** X13: on a table whose key cells are all integers there is exactly one
    output row per distinct tuple of key values: the key parts of the
    output rows are pairwise different and are the key tuples of the
    input rows. *)
Theorem groupBy_integer_keys (cols aggs : list string) (t : TableRep)
    (ts : list TableRep) (accs0 : list AggAcc) :
  (∀ c, c ∈ cols ++ aggs → is_Some (columnMetadata (schema t) !! c)) →
  mkAggAccs (schema t) aggs = Ok accs0 →
  (∀ r, r ∈ rowData t →
     Forall (λ v, ∃ n, v = PNum n) (permute r (columnIndex (schema t) <$> cols))) →
  ∃ out,
    groupByImpl cols aggs (t :: ts) = Ok out ∧
    NoDup (take (length cols) <$> rowData out) ∧
    ∀ kv, kv ∈ take (length cols) <$> rowData out ↔
          ∃ r, r ∈ rowData t ∧ permute r (columnIndex (schema t) <$> cols) = kv.
Proof.
  intros Hmd Haccs Hint. eexists. split; [by apply groupByImpl_rows|].
  simpl. set (kp := columnIndex (schema t) <$> cols).
  set (ap := columnIndex (schema t) <$> aggs).
  set (rows := rowData t). fold kp rows in Hint.
  set (keys := row_key kp <$> rows).
  set (g := λ k, permute (default [] (head (group_members kp rows k))) kp).
  assert (take (length cols) <$> groupBy_spec_rows kp ap accs0 rows =
          g <$> first_occurrences keys) as ->.
  { unfold groupBy_spec_rows. rewrite <- list_fmap_compose.
    apply list_fmap_ext. intros _ k _. simpl. unfold group_output.
    apply take_app_length'. unfold g, permute, kp. by rewrite !length_fmap. }
  assert (∀ k, k ∈ keys → ∃ r, r ∈ rows ∧ row_key kp r = k ∧ g k = permute r kp)
    as Hg.
  { intros k Hk. destruct (group_members_cons kp rows k Hk) as (r & rs & E).
    assert (r ∈ group_members kp rows k) as Hr by (rewrite E; set_solver).
    apply list_elem_of_filter in Hr as [Hkey Hr].
    exists r. split_and!; [done..|]. unfold g. by rewrite E. }
  assert (∀ k, k ∈ keys → key_string (g k) = k) as Hkey.
  { intros k Hk. destruct (Hg k Hk) as (r & _ & <- & ->). done. }
  split.
  - apply NoDup_fmap_2_strong; [|apply first_occurrences_NoDup].
    intros k1 k2 Hk1 Hk2 E.
    apply (proj1 (first_occurrences_elem _ _)) in Hk1, Hk2.
    etrans; [symmetry; apply (Hkey k1 Hk1)|]. rewrite E. apply (Hkey k2 Hk2).
  - intros kv. rewrite list_elem_of_fmap. split.
    + intros (k & -> & Hk). apply (proj1 (first_occurrences_elem _ _)) in Hk.
      destruct (Hg k Hk) as (r & Hr & _ & ->). eauto.
    + intros (r & Hr & <-). exists (row_key kp r).
      assert (row_key kp r ∈ keys) as Hk
        by (apply list_elem_of_fmap; eauto).
      split; [|by apply first_occurrences_elem].
      destruct (Hg _ Hk) as (r' & Hr' & Hkk & ->).
      destruct (integer_cells _ (Hint r Hr)) as [ns Ens].
      destruct (integer_cells _ (Hint r' Hr')) as [ns' Ens'].
      unfold row_key in Hkk. rewrite Ens, Ens' in Hkk |- *.
      by rewrite (key_string_integers_inj _ _ Hkk).
Qed.

Lemma groupBy_integer_keys_witness :
  ∃ out,
    groupByImpl ["v"] [] [example_groupBy_input] = Ok out ∧
    NoDup (take 1 <$> rowData out) ∧
    ∀ kv, kv ∈ take 1 <$> rowData out ↔
          ∃ r, r ∈ rowData example_groupBy_input ∧
               permute r (columnIndex (schema example_groupBy_input) <$> ["v"]) = kv.
Proof.
  apply (groupBy_integer_keys ["v"] [] example_groupBy_input [] []).
  - intros c Hc. apply list_elem_of_In in Hc. simpl in Hc.
    destruct Hc as [<-|[]]; vm_compute; eauto.
  - reflexivity.
  - intros r Hr. apply list_elem_of_In in Hr. simpl in Hr.
    destruct Hr as [<-|[<-|[<-|[]]]]; repeat constructor; eexists; reflexivity.
Defined.

(** ** The accumulators *)



Lemma SumAgg_fold_NaN (vals : list Prim) :
  Forall (λ v, ∀ s, v ≠ PStr s) vals →
  foldl (λ acc v, SumAgg.mplus v acc) (SumAgg.mk PNaN) vals = SumAgg.mk PNaN.
Proof.
  induction 1 as [|v vals Hv _ IH]; [done|]. simpl.
  assert (SumAgg.mplus v (SumAgg.mk PNaN) = SumAgg.mk PNaN) as ->; [|done].
  unfold SumAgg.mplus. destruct v; try done. by destruct (Hv s).
Qed.

(** X15: only [null] is skipped.  A cell that is [undefined] (a missing
    cell) or [NaN] turns the sum of a column without strings into [NaN],
    whatever else the column holds. *)
Theorem SumAgg_undefined_gives_NaN (vals : list Prim) :
  Forall (λ v, ∀ s, v ≠ PStr s) vals →
  PUndefined ∈ vals ∨ PNaN ∈ vals →
  SumAgg.finalize (foldl (λ acc v, SumAgg.mplus v acc) SumAgg.new vals) = PNaN.
Proof.
  intros Hns Hin.
  assert (∀ acc, (∀ s, SumAgg.sum acc ≠ PStr s) →
            SumAgg.finalize (foldl (λ acc v, SumAgg.mplus v acc) acc vals) = PNaN)
    as H; [|by apply H].
  induction Hns as [|v vals Hv Hns IH]; intros acc Hacc.
  - destruct Hin as [Hin|Hin]; by apply not_elem_of_nil in Hin.
  - simpl.
    destruct (decide (v = PUndefined ∨ v = PNaN)) as [Hv'|Hv'].
    + assert (SumAgg.mplus v acc = SumAgg.mk PNaN) as ->.
      { destruct acc as [s]. simpl in Hacc. unfold SumAgg.mplus.
        destruct Hv' as [-> | ->]; simpl; destruct s; try done;
          by destruct (Hacc s). }
      by rewrite SumAgg_fold_NaN.
    + apply IH.
      * destruct Hin as [[<-|Hin]%elem_of_cons|[<-|Hin]%elem_of_cons];
          [destruct Hv'; by left|by left|destruct Hv'; by right|by right].
      * intros s. destruct acc as [a]. simpl in Hacc. unfold SumAgg.mplus.
        destruct (strict_ne v PNull); [|apply Hacc]. simpl.
        destruct a, v; simpl; try done;
          try (by destruct (Hacc s0)); try (by destruct (Hv s0));
          try (by destruct (Hacc s1)); by repeat case_match.
Qed.

Lemma SumAgg_undefined_gives_NaN_witness :
  SumAgg.finalize
    (foldl (λ acc v, SumAgg.mplus v acc) SumAgg.new [PNum 1; PUndefined; PNum 2])
  = PNaN.
Proof.
  apply (SumAgg_undefined_gives_NaN [PNum 1; PUndefined; PNum 2]).
  - repeat constructor; done.
  - left. set_solver.
Defined.

Lemma UniqAgg_fold_null (vals : list Prim) :
  Forall (λ x, x ≠ PNull ∧ x ≠ PNaN) vals →
  foldl (λ acc v, UniqAgg.mplus v acc) (UniqAgg.mk false PNull) vals =
  UniqAgg.mk false PNull.
Proof.
  induction 1 as [|x vals [Hn Hnan] _ IH]; [done|]. simpl.
  assert (UniqAgg.mplus x (UniqAgg.mk false PNull) = UniqAgg.mk false PNull) as ->;
    [|done].
  unfold UniqAgg.mplus. simpl. by destruct x.
Qed.

(** X16: on values that are neither [null] nor [NaN], the agreement
    aggregator finishes with the common value when all values are equal
    and with [null] as soon as two of them differ. *)
Theorem UniqAgg_agreement (v : Prim) (vals : list Prim) :
  Forall (λ x, x ≠ PNull ∧ x ≠ PNaN) (v :: vals) →
  UniqAgg.run (v :: vals) = if bool_decide (Forall (eq v) vals) then v else PNull.
Proof.
  intros [[Hv Hvn] Hvals]%Forall_cons. unfold UniqAgg.run. simpl.
  assert (UniqAgg.mplus v UniqAgg.new = UniqAgg.mk false v) as ->.
  { unfold UniqAgg.mplus, UniqAgg.new. simpl. by destruct v. }
  induction Hvals as [|x vals [Hx Hxn] Hvals IH]; [done|]. simpl.
  destruct (decide (v = x)) as [<-|Hne].
  - assert (UniqAgg.mplus v (UniqAgg.mk false v) = UniqAgg.mk false v) as ->.
    { unfold UniqAgg.mplus, strict_ne, strict_eq. simpl.
      destruct v; try done; by rewrite bool_decide_eq_true_2. }
    rewrite IH.
    rewrite (bool_decide_ext (Forall (eq v) (v :: vals)) (Forall (eq v) vals));
      [done|]. rewrite Forall_cons. tauto.
  - assert (UniqAgg.mplus x (UniqAgg.mk false v) = UniqAgg.mk false PNull) as ->.
    { unfold UniqAgg.mplus, strict_ne, strict_eq. simpl.
      destruct v, x; try done; by rewrite bool_decide_eq_false_2. }
    rewrite UniqAgg_fold_null by done. simpl.
    rewrite bool_decide_eq_false_2; [done|].
    intros [? _]%Forall_cons. done.
Qed.

Lemma UniqAgg_agreement_witness :
  UniqAgg.run [PStr "a"; PStr "a"; PStr "b"; PStr "a"] = PNull.
Proof.
  rewrite (UniqAgg_agreement (PStr "a") [PStr "a"; PStr "b"; PStr "a"]).
  - reflexivity.
  - repeat constructor; done.
Defined.

(** ** extend: the new column and the old ones *)






(** ** concat: the rows in argument order *)

Lemma concat_fold (compatCheck : Schema → Schema → Res unit) (s : Schema)
    (rows : list Row) (ts : list TableRep) :
  (∀ tbl, tbl ∈ ts → compatCheck s (schema tbl) = Ok ()) →
  foldM_res (λ res tbl,
               _ ← compatCheck (schema res) (schema tbl);
               Ok (mkTableRep (schema res) (rowData res ++ rowData tbl)))
            (mkTableRep s rows) ts =
  Ok (mkTableRep s (rows ++ concat (rowData <$> ts))).
Proof.
  revert rows. induction ts as [|tbl ts IH]; intros rows Hok; simpl.
  - by rewrite app_nil_r.
  - rewrite Hok by set_solver. simpl. rewrite IH by (intros; apply Hok; set_solver).
    by rewrite app_assoc.
Qed.

(** X18: when every further table passes the compatibility check against
    the first table's schema, [concatImpl] returns the first table's
    schema with the rows of all tables, table after table in argument
    order; the check always compares with the first schema. *)
Theorem concat_rows_in_order (compatCheck : Schema → Schema → Res unit)
    (t : TableRep) (ts : list TableRep) :
  (∀ tbl, tbl ∈ ts → compatCheck (schema t) (schema tbl) = Ok ()) →
  concatImpl compatCheck (t :: ts) =
  Ok (mkTableRep (schema t) (concat (rowData <$> t :: ts))).
Proof. intros Hok. unfold concatImpl. simpl. by apply concat_fold. Qed.

Lemma concat_rows_in_order_witness :
  concatImpl compatCheck [example_groupBy_input; example_groupBy_input] =
  Ok (mkTableRep (schema example_groupBy_input)
        (rowData example_groupBy_input ++ rowData example_groupBy_input)).
Proof.
  rewrite (concat_rows_in_order compatCheck example_groupBy_input
             [example_groupBy_input]).
  - reflexivity.
  - intros tbl ->%list_elem_of_singleton. reflexivity.
Defined.

(** X19: the first table that fails the compatibility check aborts the
    concatenation with the check's exception; tables after it are not
    looked at. *)
Theorem concat_first_incompatible (compatCheck : Schema → Schema → Res unit)
    (t bad : TableRep) (ts1 ts2 : list TableRep) (e : JsError) :
  (∀ tbl, tbl ∈ ts1 → compatCheck (schema t) (schema tbl) = Ok ()) →
  compatCheck (schema t) (schema bad) = Throw e →
  concatImpl compatCheck (t :: ts1 ++ bad :: ts2) = Throw e.
Proof.
  intros Hok Hbad. unfold concatImpl. simpl.
  generalize (rowData t). induction ts1 as [|tbl ts1 IH]; intros rows; simpl.
  - by rewrite Hbad.
  - rewrite Hok by set_solver. simpl. apply IH. intros; apply Hok; set_solver.
Qed.

Lemma concat_first_incompatible_witness :
  concatImpl compatCheck
    [example_groupBy_input; example_groupBy_input; example_extend_input;
     example_groupBy_input] = Throw (Error "incompatible schema").
Proof.
  apply (concat_first_incompatible compatCheck example_groupBy_input
           example_extend_input [example_groupBy_input] [example_groupBy_input]).
  - intros tbl ->%list_elem_of_singleton. reflexivity.
  - reflexivity.
Defined.

(** ** sort: degenerate keys, unknown keys, determinacy *)




Lemma stable_sort_all_equal (ord : Row → Row → comparison) (l l' : list Row) :
  (∀ a b, ord a b = Eq) → stable_sort_of ord l l' → l' = l.
Proof.
  intros Heq (Hperm & _ & Hstable). destruct l as [|x l].
  - by apply Permutation_nil_l in Hperm.
  - specialize (Hstable x ltac:(set_solver)).
    assert (∀ k : list Row, filter (λ y, ord x y = Eq) k = k) as Hall.
    { intros k. induction k as [|y k IH]; [done|].
      rewrite filter_cons_True by apply Heq. by rewrite IH. }
    by rewrite !Hall in Hstable.
Qed.

(** X21: sorting by no keys is a plain copy.  For an engine sort that
    meets the language's contract, [sortImpl] with an empty key list puts
    the input rows, in their input order, into a new array. *)
Theorem sort_no_keys_copy
    (Array_sort : RowCmpFn → list Row → Res (list Row))
    (h : ArrayHeap) (t : TableRef) (ts : list TableRef) (rows : list Row) :
  sort_contract Array_sort →
  h !! ref_rowData t = Some rows →
  sortImpl Array_sort [] h (t :: ts) =
  Ok (h ++ [rows], mkTableRef (ref_schema t) (length h)).
Proof.
  intros Hsort Hrows. unfold sortImpl. simpl. rewrite Hrows. simpl.
  destruct (Hsort (λ _ _, Ok (PNum 0)) rows) as (rows' & -> & Hstable).
  { split; try done. intros a b _ _. by eexists. }
  apply stable_sort_all_equal in Hstable as ->; [|done]. simpl.
  do 2 f_equal.
  rewrite insert_app_r_alt by done. by rewrite Nat.sub_diag.
Qed.

Lemma sort_no_keys_copy_witness :
  sortImpl insertion_sort [] [example_sort_rows] [mkTableRef example_sort_schema 0] =
  Ok ([example_sort_rows; example_sort_rows], mkTableRef example_sort_schema 1).
Proof.
  apply (sort_no_keys_copy insertion_sort [example_sort_rows]
           (mkTableRef example_sort_schema 0) [] example_sort_rows).
  - exact insertion_sort_contract.
  - reflexivity.
Defined.

Lemma sorted_stable_unique (ord : Row → Row → comparison) (D : Row → Prop) :
  preorder_cmp D ord →
  ∀ l1 l2 : list Row,
    (∀ a, a ∈ l1 → D a) →
    l1 ≡ₚ l2 →
    (∀ i j a b, (i < j)%nat → l1 !! i = Some a → l1 !! j = Some b → ord a b ≠ Gt) →
    (∀ i j a b, (i < j)%nat → l2 !! i = Some a → l2 !! j = Some b → ord a b ≠ Gt) →
    (∀ x, x ∈ l1 → filter (λ y, ord x y = Eq) l1 = filter (λ y, ord x y = Eq) l2) →
    l1 = l2.
Proof.
  intros Hpre. induction l1 as [|a l1 IH]; intros l2 HD Hperm Hs1 Hs2 Hfil.
  - by apply Permutation_nil_l in Hperm.
  - destruct l2 as [|b l2]; [by apply Permutation_nil_r in Hperm|].
    assert (D a) as Da by (apply HD; set_solver).
    assert (D b) as Db by (apply HD; rewrite Hperm; set_solver).
    assert (∀ x, x ∈ a :: l1 → ord a x ≠ Gt) as Hamin.
    { intros x [->|Hx]%elem_of_cons.
      - by rewrite (pc_refl D ord Hpre).
      - apply list_elem_of_lookup in Hx as [j Hj].
        apply (Hs1 0%nat (S j)); [lia|done..]. }
    assert (∀ x, x ∈ b :: l2 → ord b x ≠ Gt) as Hbmin.
    { intros x [->|Hx]%elem_of_cons.
      - by rewrite (pc_refl D ord Hpre).
      - apply list_elem_of_lookup in Hx as [j Hj].
        apply (Hs2 0%nat (S j)); [lia|done..]. }
    assert (ord a b = Eq) as Hab.
    { pose proof (Hamin b ltac:(rewrite Hperm; set_solver)) as H1.
      pose proof (Hbmin a ltac:(rewrite <- Hperm; set_solver)) as H2.
      rewrite (pc_opp D ord Hpre a b Da Db) in H2.
      destruct (ord a b); simpl in *; congruence. }
    assert (a = b) as <-.
    { pose proof (Hfil a ltac:(set_solver)) as H.
      rewrite !filter_cons_True in H
        by (done || by rewrite (pc_refl D ord Hpre)).
      congruence. }
    f_equal. apply IH.
    + intros x Hx. apply HD. set_solver.
    + by apply Permutation_cons_inv in Hperm.
    + intros i j x y Hij Hi Hj. by apply (Hs1 (S i) (S j)); [lia|..].
    + intros i j x y Hij Hi Hj. by apply (Hs2 (S i) (S j)); [lia|..].
    + intros x Hx. pose proof (Hfil x ltac:(set_solver)) as H.
      rewrite !filter_cons in H.
      destruct (decide (ord x a = Eq)); [congruence|done].
Qed.

Lemma stable_sort_unique (ord : Row → Row → comparison) (l l1 l2 : list Row) :
  preorder_cmp (λ a, a ∈ l) ord →
  stable_sort_of ord l l1 → stable_sort_of ord l l2 → l1 = l2.
Proof.
  intros Hpre (Hp1 & Hs1 & Hf1) (Hp2 & Hs2 & Hf2).
  apply (sorted_stable_unique ord (λ a, a ∈ l) Hpre); try done.
  - intros a Ha. by rewrite Hp1.
  - by rewrite <- Hp1.
  - intros x Hx. rewrite <- Hp1 in Hx. by rewrite Hf1, Hf2.
Qed.

Lemma stable_sort_sorted (ord : Row → Row → comparison) (l l' : list Row) :
  stable_sort_of ord l l' → stable_sort_of ord l' l'.
Proof.
  intros (Hp & Hs & Hf). split; [done|]. split; [done|]. done.
Qed.

Lemma sortImpl_rows (Array_sort : RowCmpFn → list Row → Res (list Row))
    (keys : list (string * bool)) (h : ArrayHeap) (t : TableRef) (rows : list Row) :
  sort_contract Array_sort →
  h !! ref_rowData t = Some rows →
  keys_known (ref_schema t) keys →
  Forall (row_typed (ref_schema t) keys) rows →
  ∃ rows',
    sortImpl Array_sort keys h [t] =
      Ok (h ++ [rows'], mkTableRef (ref_schema t) (length h)) ∧
    stable_sort_of (row_compare (ref_schema t) keys) rows rows'.
Proof.
  intros Hsort Hrows Hkeys Htyped.
  destruct (compileSortFunc_typed _ _ Hkeys) as (rsf & Hc & Hrsf).
  destruct (compiled_consistent _ _ rsf rows Hrsf Htyped) as [Hcons Hord].
  destruct (Hsort rsf rows Hcons) as (rows' & Hsorted & Hstable).
  exists rows'. split.
  - unfold sortImpl. simpl. rewrite Hc. simpl. rewrite Hrows. simpl.
    rewrite Hsorted. simpl. do 2 f_equal.
    rewrite insert_app_r_alt by done. by rewrite Nat.sub_diag.
  - by apply (stable_sort_of_ext (order_of rsf)).
Qed.

Lemma row_compare_preorder_on (s : Schema) (keys : list (string * bool))
    (rows : list Row) :
  Forall (row_typed s keys) rows →
  preorder_cmp (λ a, a ∈ rows) (row_compare s keys).
Proof.
  intros Htyped. rewrite Forall_forall in Htyped.
  pose proof (row_compare_preorder s keys) as [Hopp Htrans].
  split.
  - intros a b Ha Hb. apply Hopp; auto.
  - intros a b c Ha Hb Hc. apply Htrans; auto.
Qed.



(** X23: sorting is idempotent.  Sorting the table that [sortImpl]
    returned again, by the same keys, allocates one more array holding
    the same rows in the same order. *)
Theorem sort_idempotent
    (Array_sort : RowCmpFn → list Row → Res (list Row))
    (keys : list (string * bool)) (h : ArrayHeap) (t : TableRef) (rows : list Row) :
  sort_contract Array_sort →
  h !! ref_rowData t = Some rows →
  keys_known (ref_schema t) keys →
  Forall (row_typed (ref_schema t) keys) rows →
  ∃ rows',
    sortImpl Array_sort keys h [t] =
      Ok (h ++ [rows'], mkTableRef (ref_schema t) (length h)) ∧
    sortImpl Array_sort keys (h ++ [rows']) [mkTableRef (ref_schema t) (length h)] =
      Ok (h ++ [rows'; rows'], mkTableRef (ref_schema t) (S (length h))).
Proof.
  intros Hsort Hrows Hkeys Htyped.
  destruct (sortImpl_rows Array_sort keys h t rows Hsort Hrows Hkeys Htyped)
    as (rows' & E1 & Hs1).
  exists rows'. split; [done|].
  assert (Forall (row_typed (ref_schema t) keys) rows') as Htyped'.
  { destruct Hs1 as (Hp & _). by rewrite <- Hp. }
  destruct (sortImpl_rows Array_sort keys (h ++ [rows'])
              (mkTableRef (ref_schema t) (length h)) rows' Hsort)
    as (rows'' & E2 & Hs2); [by apply list_lookup_middle|done..|].
  simpl in E2, Hs2. rewrite E2.
  rewrite (stable_sort_unique _ rows' rows'' rows'
             (row_compare_preorder_on _ _ _ Htyped') Hs2
             (stable_sort_sorted _ _ _ Hs1)).
  rewrite length_app, <- app_assoc. simpl. do 3 f_equal. lia.
Qed.

Lemma sort_idempotent_witness :
  ∃ rows',
    sortImpl insertion_sort example_sort_keys [example_sort_rows]
      [mkTableRef example_sort_schema 0] =
      Ok ([example_sort_rows; rows'], mkTableRef example_sort_schema 1) ∧
    sortImpl insertion_sort example_sort_keys [example_sort_rows; rows']
      [mkTableRef example_sort_schema 1] =
      Ok ([example_sort_rows; rows'; rows'], mkTableRef example_sort_schema 2).
Proof.
  apply (sort_idempotent insertion_sort example_sort_keys [example_sort_rows]
           (mkTableRef example_sort_schema 0) example_sort_rows).
  - exact insertion_sort_contract.
  - reflexivity.
  - repeat constructor; vm_compute; eauto.
  - repeat constructor; eexists; (split; [vm_compute; reflexivity|]);
      vm_compute; eauto.
Defined.

(** ** mapColumns: a schema-only transformation *)

Section map_columns.
Context (inSchema : Schema) (look : string → option ColumnMapInfo).

Let step (acc : option (list string * gmap string ColumnMetadata)) (c : string) :=
  acc ≫= mapColumn_step inSchema c (look c).

Lemma mapColumns_fold_None (cols : list string) : foldl step None cols = None.
Proof. by induction cols. Qed.

Lemma mapColumns_fold_ok (cols : list string)
    (outColumns : list string) (outMetadata : gmap string ColumnMetadata) :
  (∀ c, c ∈ cols → is_Some (look c) → is_Some (columnMetadata inSchema !! c)) →
  ∃ outMetadata',
    foldl step (Some (outColumns, outMetadata)) cols =
      Some (outColumns ++ ((λ c, mapped_id (look c) c) <$> cols), outMetadata') ∧
    (∀ k, is_Some (outMetadata' !! k) →
          is_Some (outMetadata !! k) ∨ k ∈ (λ c, mapped_id (look c) c) <$> cols).
Proof.
  revert outColumns outMetadata.
  induction cols as [|c cols IH]; intros outColumns outMetadata Hmd.
  - exists outMetadata. split; [by rewrite app_nil_r|]. by left.
  - cbn [foldl]. unfold step at 2. cbn [mbind option_bind]. unfold mapColumn_step.
    rewrite fmap_cons.
    destruct (look c) as [info|] eqn:El.
    + assert (mapped_id (Some info) c = default c (cm_id info)) as Hid by done.
      destruct (Hmd c) as [m Hm]; [set_solver|by rewrite El|]. rewrite Hm.
      destruct (IH (outColumns ++ [default c (cm_id info)])
                  (<[default c (cm_id info) := overlay m info]> outMetadata))
        as (md' & -> & Hdom); [intros; apply Hmd; set_solver|].
      exists md'. rewrite Hid. split; [by rewrite <- app_assoc|].
      intros k Hk. destruct (Hdom k Hk) as [Hin|Hin]; [|right; set_solver].
      destruct (decide (k = default c (cm_id info))) as [->|Hne].
      * right. set_solver.
      * rewrite lookup_insert_ne in Hin by done. by left.
    + assert (mapped_id None c = c) as Hid by done. rewrite Hid.
      destruct (columnMetadata inSchema !! c) as [m|] eqn:Em.
      * destruct (IH (outColumns ++ [c]) (<[c := m]> outMetadata))
          as (md' & -> & Hdom); [intros; apply Hmd; set_solver|].
        exists md'. split; [by rewrite <- app_assoc|].
        intros k Hk. destruct (Hdom k Hk) as [Hin|Hin]; [|right; set_solver].
        destruct (decide (k = c)) as [->|Hne].
        -- right. set_solver.
        -- rewrite lookup_insert_ne in Hin by done. by left.
      * destruct (IH (outColumns ++ [c]) (delete c outMetadata))
          as (md' & -> & Hdom); [intros; apply Hmd; set_solver|].
        exists md'. split; [by rewrite <- app_assoc|].
        intros k Hk. destruct (Hdom k Hk) as [Hin|Hin]; [|right; set_solver].
        left. destruct (decide (k = c)) as [->|Hne].
        -- rewrite lookup_delete_eq in Hin. by destruct Hin.
        -- by rewrite lookup_delete_ne in Hin.
Qed.

Lemma mapColumns_fold_error (cols1 cols2 : list string) (c : string)
    (acc : option (list string * gmap string ColumnMetadata)) :
  is_Some (look c) → columnMetadata inSchema !! c = None →
  foldl step acc (cols1 ++ c :: cols2) = None.
Proof.
  intros [info El] Hm. rewrite foldl_app. cbn [foldl].
  destruct (foldl step acc cols1) as [[oc om]|].
  - unfold step at 2. cbn [mbind option_bind]. unfold mapColumn_step. rewrite El, Hm.
    apply mapColumns_fold_None.
  - apply mapColumns_fold_None.
Qed.
Lemma mapColumns_fold_frame (cols : list string) :
  ∀ oc om oc' om',
    foldl step (Some (oc, om)) cols = Some (oc', om') →
    ∀ k, k ∉ (λ c, mapped_id (look c) c) <$> cols → om' !! k = om !! k.
Proof.
  induction cols as [|c cols IH]; intros oc om oc' om' Hfold k Hk.
  - by injection Hfold as <- <-.
  - cbn [foldl] in Hfold. unfold step at 2 in Hfold.
    cbn [mbind option_bind] in Hfold. unfold mapColumn_step in Hfold.
    rewrite fmap_cons, not_elem_of_cons in Hk. destruct Hk as [Hne Hk].
    destruct (look c) as [info|] eqn:El.
    + change (mapped_id (Some info) c) with (default c (cm_id info)) in Hne.
      destruct (columnMetadata inSchema !! c) as [m|];
        [|by rewrite mapColumns_fold_None in Hfold].
      rewrite (IH _ _ _ _ Hfold k Hk). by rewrite lookup_insert_ne.
    + change (mapped_id None c) with c in Hne.
      destruct (columnMetadata inSchema !! c) as [m|].
      * rewrite (IH _ _ _ _ Hfold k Hk). by rewrite lookup_insert_ne.
      * rewrite (IH _ _ _ _ Hfold k Hk). by rewrite lookup_delete_ne.
Qed.

Lemma mapColumns_fold_metadata (cols : list string) :
  NoDup ((λ c, mapped_id (look c) c) <$> cols) →
  ∀ oc om oc' om',
    foldl step (Some (oc, om)) cols = Some (oc', om') →
    ∀ c m, c ∈ cols → columnMetadata inSchema !! c = Some m →
      om' !! mapped_id (look c) c = Some (mapped_info (look c) m).
Proof.
  induction cols as [|c0 cols IH]; intros Hnd oc om oc' om' Hfold c m Hc Hm.
  - by apply not_elem_of_nil in Hc.
  - rewrite fmap_cons in Hnd. apply NoDup_cons in Hnd as [Hfresh Hnd].
    cbn [foldl] in Hfold. unfold step at 2 in Hfold.
    cbn [mbind option_bind] in Hfold. unfold mapColumn_step in Hfold.
    apply elem_of_cons in Hc as [->|Hc].
    + rewrite Hm in Hfold.
      destruct (look c0) as [info|] eqn:El.
      * rewrite (mapColumns_fold_frame _ _ _ _ _ Hfold) by done.
        change (mapped_id (Some info) c0) with (default c0 (cm_id info)).
        by rewrite lookup_insert_eq.
      * rewrite (mapColumns_fold_frame _ _ _ _ _ Hfold) by done.
        change (mapped_id None c0) with c0. by rewrite lookup_insert_eq.
    + destruct (look c0) as [info|] eqn:El.
      * destruct (columnMetadata inSchema !! c0) as [m0|];
          [|by rewrite mapColumns_fold_None in Hfold].
        by apply (IH Hnd _ _ _ _ Hfold).
      * destruct (columnMetadata inSchema !! c0) as [m0|];
          by apply (IH Hnd _ _ _ _ Hfold).
Qed.
End map_columns.

(** X24: [mapColumnsImpl] changes the schema only.  When every column
    the mapping mentions has a metadata entry, the result has the input's
    rows, untouched, and the input's columns in their order, each under
    the identifier the mapping gives it (its own when the mapping gives
    none); the metadata of the result has entries for result columns
    only, so entries of columns dropped earlier are gone.  When a
    mentioned column has no metadata entry, copying the entry throws a
    [SyntaxError]. *)
Theorem mapColumns_schema_only (cmap : gmap string ColumnMapInfo)
    (t : TableRep) (ts : list TableRep) :
  let mentioned_known :=
    Forall (λ c, is_Some (cmap !! c) → is_Some (columnMetadata (schema t) !! c))
           (columns (schema t)) in
  let outColumns := (λ c, mapped_id (cmap !! c) c) <$> columns (schema t) in
  (mentioned_known →
     ∃ outMetadata,
       mapColumnsImpl cmap (t :: ts) =
         Mapped (mkTableRep (mkSchema outColumns outMetadata) (rowData t)) ∧
       ∀ k, is_Some (outMetadata !! k) → k ∈ outColumns) ∧
  (¬ mentioned_known → mapColumnsImpl cmap (t :: ts) = MapSyntaxError).
Proof.
  intros mentioned_known outColumns. split.
  - intros Hk. unfold mentioned_known in Hk. rewrite Forall_forall in Hk.
    destruct (mapColumns_fold_ok (schema t) (λ c, cmap !! c) (columns (schema t))
                [] ∅ Hk) as (md' & Hfold & Hdom).
    exists md'. split.
    + unfold mapColumnsImpl. simpl. by rewrite Hfold.
    + intros k Hin. destruct (Hdom k Hin) as [H|H]; [|done].
      rewrite lookup_empty in H. by destruct H.
  - intros Hk. apply not_Forall_Exists in Hk; [|apply _].
    apply Exists_exists in Hk as (c & Hc & Hbad).
    apply list_elem_of_split in Hc as (cols1 & cols2 & Hcols).
    unfold compose in Hbad.
    assert (is_Some (cmap !! c) ∧ columnMetadata (schema t) !! c = None) as [Hm Hn].
    { destruct (cmap !! c) as [info|], (columnMetadata (schema t) !! c) as [m|].
      - exfalso. apply Hbad. intros _. by eexists.
      - split; [by eexists|done].
      - exfalso. apply Hbad. intros _. by eexists.
      - exfalso. apply Hbad. by intros [? ?]. }
    unfold mapColumnsImpl. simpl. rewrite Hcols.
    by rewrite (mapColumns_fold_error (schema t) (λ c, cmap !! c) cols1 cols2 c).
Qed.

Lemma mapColumns_schema_only_witness :
  let cmap : gmap string ColumnMapInfo :=
    {[ "k" := mkColumnMapInfo (Some "key") None (Some "Key") ]} in
  (∃ outMetadata,
     mapColumnsImpl cmap [example_groupBy_input] =
       Mapped (mkTableRep (mkSchema ["key"; "v"] outMetadata)
                 (rowData example_groupBy_input)) ∧
     ∀ k, is_Some (outMetadata !! k) → k ∈ ["key"; "v"]) ∧
  mapColumnsImpl {[ "x" := mkColumnMapInfo None (Some "text") None ]}
    [mkTableRep (mkSchema ["x"] ∅) []] = MapSyntaxError.
Proof.
  intros cmap. split.
  - apply (proj1 (mapColumns_schema_only cmap example_groupBy_input [])).
    repeat constructor; vm_compute; eauto.
  - apply (proj2 (mapColumns_schema_only
                    {[ "x" := mkColumnMapInfo None (Some "text") None ]}
                    (mkTableRep (mkSchema ["x"] ∅) []) [])).
    intros H. apply Forall_cons in H as [H _].
    destruct H as [m Hm]; [vm_compute; eauto|]. vm_compute in Hm. discriminate.
Defined.

(** X25: on a well-formed schema, a mapping that gives the columns
    pairwise different identifiers yields a well-formed schema again, in
    which every column carries its input metadata with the fields the
    mapping supplies written over it; a column the mapping does not
    mention keeps its metadata. *)
Theorem mapColumns_metadata (cmap : gmap string ColumnMapInfo)
    (t : TableRep) (ts : list TableRep) :
  schema_wf (schema t) →
  NoDup ((λ c, mapped_id (cmap !! c) c) <$> columns (schema t)) →
  ∃ out,
    mapColumnsImpl cmap (t :: ts) = Mapped out ∧
    schema_wf (schema out) ∧
    rowData out = rowData t ∧
    ∀ c m, c ∈ columns (schema t) → columnMetadata (schema t) !! c = Some m →
      columnMetadata (schema out) !! mapped_id (cmap !! c) c =
      Some (mapped_info (cmap !! c) m).
Proof.
  intros [Hnd Hmd] Hnd'.
  destruct (mapColumns_fold_ok (schema t) (λ c, cmap !! c) (columns (schema t)) [] ∅)
    as (md' & Hfold & Hdom); [intros c Hc _; by apply Hmd|].
  pose proof (mapColumns_fold_metadata (schema t) (λ c, cmap !! c) _ Hnd'
                _ _ _ _ Hfold) as Hmeta.
  eexists. split; [unfold mapColumnsImpl; simpl; by rewrite Hfold|].
  simpl. split; [|split; [done|exact Hmeta]].
  split; simpl; [done|].
  intros k (c & -> & Hc)%list_elem_of_fmap.
  destruct (Hmd c Hc) as [m Hm]. rewrite (Hmeta c m Hc Hm). by eexists.
Qed.

Lemma mapColumns_metadata_witness :
  ∃ out,
    mapColumnsImpl
      {[ "k" := mkColumnMapInfo (Some "v") None (Some "Key");
         "v" := mkColumnMapInfo (Some "k") (Some "real") None ]}
      [example_groupBy_input] = Mapped out ∧
    columns (schema out) = ["v"; "k"] ∧
    columnMetadata (schema out) !! "v" = Some (mkColumnMetadata "text" (Some "Key")) ∧
    columnMetadata (schema out) !! "k" = Some (mkColumnMetadata "real" None).
Proof.
  destruct (mapColumns_metadata
              {[ "k" := mkColumnMapInfo (Some "v") None (Some "Key");
                 "v" := mkColumnMapInfo (Some "k") (Some "real") None ]}
              example_groupBy_input [])
    as (out & Hout & _ & _ & Hmeta).
  - split.
    + simpl. repeat (apply NoDup_cons_2; [set_solver|]). apply NoDup_nil_2.
    + intros c Hc. apply list_elem_of_In in Hc. simpl in Hc.
      destruct Hc as [<-|[<-|[]]]; vm_compute; eauto.
  - vm_compute. repeat (apply NoDup_cons_2; [set_solver|]). apply NoDup_nil_2.
  - exists out. split; [exact Hout|].
    vm_compute in Hout. injection Hout as <-. repeat split.
Defined.

Lemma mapColumns_fold_by_index (inSchema : Schema)
    (cmapId cmapIdx : gmap string ColumnMapInfo) (cols : list string) :
  ∀ (off : nat) acc,
    (∀ i c, cols !! i = Some c → cmapId !! c = cmapIdx !! pretty (off + i)%nat) →
    foldl (λ acc inColumnId,
             acc ≫= mapColumn_step inSchema inColumnId (cmapId !! inColumnId))
          acc cols =
    foldl (λ acc (ic : nat * string),
             acc ≫= mapColumn_step inSchema ic.2 (cmapIdx !! pretty ic.1))
          acc (imap (λ i c, ((off + i)%nat, c)) cols).
Proof.
  induction cols as [|c cols IH]; intros off acc Hk; [done|].
  cbn [foldl imap]. rewrite (Hk 0%nat c eq_refl). cbn [fst snd].
  rewrite (IH (S off)).
  - f_equal. apply imap_ext. intros i x _. simpl. f_equal. lia.
  - intros i x Hi. rewrite (Hk (S i) x Hi). do 2 f_equal. lia.
Qed.

(** X26: the two variants agree.  When the mapping keyed by position
    gives the column at each position what the mapping keyed by
    identifier gives that column, [mapColumnsByIndexImpl] and
    [mapColumnsImpl] return the same result, errors included. *)
Theorem mapColumnsByIndex_agrees (cmapId cmapIdx : gmap string ColumnMapInfo)
    (ts : list TableRep) :
  (∀ t i c, head ts = Some t → columns (schema t) !! i = Some c →
     cmapId !! c = cmapIdx !! pretty i) →
  mapColumnsByIndexImpl cmapIdx ts = mapColumnsImpl cmapId ts.
Proof.
  intros Hk. destruct ts as [|t ts]; [done|].
  unfold mapColumnsByIndexImpl, mapColumnsImpl. simpl. f_equal.
  symmetry. apply (mapColumns_fold_by_index (schema t) cmapId cmapIdx _ 0%nat).
  intros i c Hi. by apply (Hk t).
Qed.

Lemma mapColumnsByIndex_agrees_witness :
  mapColumnsByIndexImpl {[ "1" := mkColumnMapInfo (Some "value") None None ]}
    [example_groupBy_input] =
  mapColumnsImpl {[ "v" := mkColumnMapInfo (Some "value") None None ]}
    [example_groupBy_input].
Proof.
  apply (mapColumnsByIndex_agrees
           {[ "v" := mkColumnMapInfo (Some "value") None None ]}
           {[ "1" := mkColumnMapInfo (Some "value") None None ]}
           [example_groupBy_input]).
  intros t i c [= <-] Hi.
  destruct i as [|[|i]]; simpl in Hi; [| |done]; injection Hi as <-; reflexivity.
Defined.

(** ** The evaluator: renumbering and the table cache *)

Lemma buildCSEMap_numbered (q : QueryExp) :
  ∀ ev n, numbered ev q n → buildCSEMap q ev = (n, ev).
Proof.
  induction q as [o vs ts IH] using QueryExp_ind'. intros ev n Hn.
  inversion Hn as [? ? ? ns ? Hts Hk]; subst.
  rewrite buildCSEMap_unfold.
  assert (buildCSEMap_list ts ev = (ns, ev)) as ->.
  { clear Hk Hn. revert ns Hts. induction IH as [|t ts Ht _ IHts]; intros ns Hts.
    - by inversion Hts.
    - inversion Hts as [|? n1 ? ns1 H1 H2]; subst. simpl.
      rewrite (Ht _ _ H1). by rewrite (IHts _ H2). }
  simpl. by rewrite Hk.
Qed.

(** X27: numbering is stable.  Once a query was numbered, numbering it
    again, or numbering any of its subexpressions, changes nothing in the
    evaluator and adds no entry; the query gets the number it had. *)
Theorem buildCSEMap_stable (q : QueryExp) (ev ev' : CSEEvaluator) (n : nat) :
  cse_wf ev →
  buildCSEMap q ev = (n, ev') →
  buildCSEMap q ev' = (n, ev') ∧
  ∀ e, subexp e q → ∃ m, buildCSEMap e ev' = (m, ev').
Proof.
  intros Hwf Hb.
  destruct (buildCSEMap_spec q _ _ _ Hwf Hb) as (_ & _ & Hn).
  split; [by apply buildCSEMap_numbered|].
  intros e Hsub.
  destruct (buildCSEMap_log q ev) as [[n0 ev0] log] eqn:Elog.
  assert (buildCSEMap q ev = (n0, ev0)) as Hb'
    by (by rewrite <- buildCSEMap_log_erase, Elog).
  rewrite Hb in Hb'. injection Hb' as <- <-.
  destruct (buildCSEMap_log_subexp q e Hsub ev) as [m Hm].
  rewrite Elog in Hm. simpl in Hm.
  exists m. apply buildCSEMap_numbered.
  by apply (buildCSEMap_log_numbered q ev n ev' log Hwf Elog).
Qed.

Lemma buildCSEMap_stable_witness :
  let ev' := (buildCSEMap example_diamond new_CSEEvaluator).2 in
  buildCSEMap example_diamond ev' = (2%nat, ev') ∧
  ∀ e, subexp e example_diamond → ∃ m, buildCSEMap e ev' = (m, ev').
Proof.
  intros ev'.
  apply (buildCSEMap_stable example_diamond new_CSEEvaluator ev' 2).
  - exact new_CSEEvaluator_wf.
  - reflexivity.
Defined.

Lemma cache_exact_alloc_all (n : nat) (subs : list nat) (e : QueryExp) (w : World) :
  cache_exact w → cache_exact (alloc (PAllThen n subs e) w).2.
Proof.
  intros Hc k h. simpl. rewrite (Hc k h). split.
  - intros Hh. by apply lookup_app_l_Some.
  - intros Hh. apply lookup_app_Some in Hh as [Hh|[_ Hh]]; [done|].
    by apply list_lookup_singleton_Some in Hh as [_ Hh].
Qed.

Lemma cache_exact_tableRefImpl (tableName : JsVal) (w : World) :
  cache_exact w → cache_exact (tableRefImpl tableName w).2.
Proof.
  intros Hc. unfold tableRefImpl.
  destruct (tableCache w !! JsVal_toString tableName) as [tcp|] eqn:Ek; [done|].
  simpl. intros k h. simpl.
  destruct (decide (JsVal_toString tableName = k)) as [<-|Hne].
  - rewrite lookup_insert_eq. split.
    + intros [= <-]. by apply list_lookup_middle.
    + intros Hh. apply lookup_app_Some in Hh as [Hh|[Hlen Hh]].
      * apply Hc in Hh. congruence.
      * apply list_lookup_singleton_Some in Hh as [Hh _]. f_equal. lia.
  - rewrite lookup_insert_ne by done. rewrite (Hc k h). split.
    + intros Hh. by apply lookup_app_l_Some.
    + intros Hh. apply lookup_app_Some in Hh as [Hh|[_ Hh]]; [done|].
      apply list_lookup_singleton_Some in Hh as [_ Hh]. congruence.
Qed.

Lemma eval_map_world (P : World → Prop) (f : nat → Eval nat) :
  (∀ c st r st', P st.2 → f c st = Some (r, st') → P st'.2) →
  ∀ cs st r st', P st.2 → eval_map f cs st = Some (r, st') → P st'.2.
Proof.
  intros Hf cs. induction cs as [|c cs IH]; intros st r st' HP E.
  - by injection E as <- <-.
  - rewrite eval_map_cons in E. unfold eval_bind at 1 in E.
    destruct (f c st) as [[[p|e] st1]|] eqn:E1; [| |done].
    + pose proof (Hf _ _ _ _ HP E1) as HP1.
      unfold eval_bind at 1 in E.
      destruct (eval_map f cs st1) as [[[ps|e] st2]|] eqn:E2; [| |done].
      * injection E as <- <-. by eapply IH.
      * injection E as <- <-. by eapply IH.
    + injection E as <- <-. by eapply Hf.
Qed.

Lemma evalTable_world (P : World → Prop) :
  (∀ n subs e w, P w → P (alloc (PAllThen n subs e) w).2) →
  (∀ tableName w, P w → P (tableRefImpl tableName w).2) →
  ∀ fuel tableId st r st',
    P st.2 → evalTable fuel tableId st = Some (r, st') → P st'.2.
Proof.
  intros Halloc Href. induction fuel as [|fuel IH]; intros tableId st r st' HP E;
    [done|].
  rewrite evalTable_unfold in E.
  destruct (promises st.1 !! tableId) as [resp|]; [by injection E as <- <-|].
  destruct (valExps st.1 !! tableId) as [numExp|]; [|by injection E as <- <-].
  unfold eval_bind at 1 in E.
  destruct (bool_decide (0 < length (tableNums numExp))%nat).
  - unfold eval_bind at 1 in E.
    destruct (eval_map (evalTable fuel) (tableNums numExp) st)
      as [[[ps|e] st1]|] eqn:E1; [| |done].
    + pose proof (eval_map_world P (evalTable fuel) IH _ _ _ _ HP E1) as HP1.
      unfold new_promise, store_promise in E. simpl in E.
      injection E as <- <-. simpl. by apply Halloc.
    + injection E as <- <-.
      by apply (eval_map_world P (evalTable fuel) IH _ _ _ _ HP E1).
  - unfold call_evalBaseExp, evalBaseExp in E.
    destruct (decide (operator (exp numExp) = "table")).
    + simpl in E.
      destruct (tableRefImpl _ st.2) as [h w1] eqn:Er. simpl in E.
      injection E as <- <-. simpl.
      pose proof (Href (default (JPrim PUndefined) (head (valArgs (exp numExp))))
                    st.2 HP) as H. by rewrite Er in H.
    + simpl in E. by injection E as <- <-.
Qed.

(** X28: a table is loaded at most once over the life of the module.
    Starting from a state in which the cache holds exactly the load
    promises created so far, evaluating any query returns, only appends
    to the promises and only adds to the cache, and the cache is again
    exact: no table name has two load promises, however often queries
    refer to it. *)
Theorem tables_loaded_once (query : QueryExp) (w : World) :
  world_wf w → cache_exact w →
  ∃ r st,
    localEvalQuery query w = Some (r, st) ∧
    cache_exact st.2 ∧
    promiseHeap w `prefix_of` promiseHeap st.2 ∧
    tableCache w ⊆ tableCache st.2 ∧
    ∀ h1 h2 k, promiseHeap st.2 !! h1 = Some (PLoad k) →
               promiseHeap st.2 !! h2 = Some (PLoad k) → h1 = h2.
Proof.
  intros Hw Hc. unfold localEvalQuery.
  destruct (buildCSEMap query new_CSEEvaluator) as [rootId ev] eqn:Ee.
  destruct (buildCSEMap_spec query _ _ _ new_CSEEvaluator_wf Ee) as (Hle & Hwf & Hroot).
  set (len0 := length (promiseHeap w)).
  assert (eval_inv len0 (ev, w)) as Hinv0.
  { destruct Hle as (_ & _ & Hp). simpl in Hp. split; simpl.
    - apply (wf_valExps ev Hwf).
    - done.
    - done.
    - intros n h Hn. rewrite <- Hp in Hn. by simplify_map_eq.
    - intros h n subs e Hl Hlook. apply lookup_lt_Some in Hlook. unfold len0 in Hl. lia. }
  destruct (evalTable_spec len0 (length (valExps ev)) rootId (ev, w))
    as (r & st & Eeval & Hinv & Hle' & _); [by eapply numbered_lt|done|].
  exists r, st. split; [done|].
  assert (cache_exact st.2) as Hc'.
  { apply (evalTable_world cache_exact) in Eeval; [done| | |done].
    - intros. by apply cache_exact_alloc_all.
    - intros. by apply cache_exact_tableRefImpl. }
  split; [done|]. split; [apply (le_heap _ _ Hle')|].
  split; [apply (le_cache _ _ Hle')|].
  intros h1 h2 k H1 H2. apply Hc' in H1, H2. congruence.
Qed.

Lemma empty_World_cache_exact : cache_exact empty_World.
Proof. intros k h. simpl. split; intros H; by simplify_map_eq. Qed.

Lemma tables_loaded_once_witness :
  ∃ r st,
    localEvalQuery example_diamond empty_World = Some (r, st) ∧
    cache_exact st.2 ∧ promiseHeap st.2 !! 0%nat = Some (PLoad "t").
Proof.
  destruct (tables_loaded_once example_diamond empty_World)
    as (r & st & Heval & Hc & _).
  - exact empty_World_wf.
  - exact empty_World_cache_exact.
  - exists r, st. split; [exact Heval|]. split; [exact Hc|].
    vm_compute in Heval. injection Heval as <- <-. reflexivity.
Defined.

(** * Properties of the filter editor *)

Lemma fe_row_key_inj (i j : nat) :
  "fe-row-" +:+ pretty i = "fe-row-" +:+ pretty j → i = j.
Proof. intros H. simpl in H. injection H as H. by apply (inj pretty). Qed.

Lemma renderFilterRows_snoc (o : string) (l : list Slot) (x : Slot) :
  renderFilterRows (mkFilterEditorState o (l ++ [x])) =
  renderFilterRows (mkFilterEditorState o l) ++
  match x with
  | SlotHole => []
  | _ => [("fe-row-" +:+ pretty (length l), x)]
  end.
Proof.
  unfold renderFilterRows. simpl. rewrite imap_app, omap_app. f_equal.
  simpl. rewrite Nat.add_0_r. by destruct x.
Qed.

Lemma renderFilterRows_delete (o : string) (l : list Slot) (idx : nat) :
  renderFilterRows (mkFilterEditorState o (<[idx := SlotHole]> l)) =
  filter (λ kr, kr.1 ≠ "fe-row-" +:+ pretty idx)
         (renderFilterRows (mkFilterEditorState o l)).
Proof.
  induction l as [|x l IH] using rev_ind; [done|].
  assert (idx ≥ length l →
          filter (λ kr : string * Slot, kr.1 ≠ "fe-row-" +:+ pretty idx)
                 (renderFilterRows (mkFilterEditorState o l)) =
          renderFilterRows (mkFilterEditorState o l))%nat as Hkeep.
  { intros Hge. rewrite <- IH. by rewrite list_insert_ge by lia. }
  rewrite (renderFilterRows_snoc o l x), filter_app.
  destruct (decide (idx < length l)%nat) as [Hlt|Hge].
  - rewrite insert_app_l by done. rewrite renderFilterRows_snoc, IH.
    rewrite length_insert. f_equal.
    destruct x; [done| |]; rewrite filter_cons_True; try done;
      simpl; intros E%fe_row_key_inj; lia.
  - rewrite Hkeep by lia.
    destruct (decide (idx = length l)) as [->|Hne].
    + rewrite insert_app_r_alt by lia. rewrite Nat.sub_diag. simpl.
      rewrite renderFilterRows_snoc. f_equal.
      destruct x; [done| |]; by rewrite filter_cons_False by (simpl; tauto).
    + rewrite list_insert_ge by (rewrite length_app; simpl; lia).
      rewrite renderFilterRows_snoc. f_equal.
      destruct x; [done| |]; rewrite filter_cons_True; try done;
        simpl; intros E%fe_row_key_inj; lia.
Qed.

(** X29: the React keys of the rows are stable.  Deleting a row removes
    exactly the row shown under that row's key, every other row keeps its
    key and its content; a row added afterwards gets the key of the next
    index, which no row, shown or deleted, has had. *)
Theorem FilterEditor_row_keys_stable (s : FilterEditorState) (idx : nat) :
  renderFilterRows (handleDeleteRow idx s) =
    filter (λ kr, kr.1 ≠ "fe-row-" +:+ pretty idx) (renderFilterRows s) ∧
  length (state_opArgs (handleDeleteRow idx s)) = length (state_opArgs s) ∧
  renderFilterRows (handleAddRow s) =
    renderFilterRows s ++
    [("fe-row-" +:+ pretty (length (state_opArgs s)), SlotNull)].
Proof.
  destruct s as [o l]. split; [|split].
  - apply renderFilterRows_delete.
  - simpl. apply length_insert.
  - apply (renderFilterRows_snoc o l SlotNull).
Qed.

Lemma handleApply_snoc (o : string) (l : list Slot) (x : Slot) :
  opArgs (handleApply (mkFilterEditorState o (l ++ [x]))) =
  opArgs (handleApply (mkFilterEditorState o l)) ++
  match x with SlotExp re => [re] | _ => [] end.
Proof. simpl. rewrite omap_app. f_equal. by destruct x. Qed.

(** X30: what [Apply] sends.  The expression handed to [onApply] has the
    operator selected and, as arguments, exactly the filled-in rows on
    display, in display order.  Applying an editor opened on an
    expression, without edits, hands that expression back; applying a
    newly opened empty editor gives a filter that [filterImpl] evaluates
    to the table itself. *)
Theorem FilterEditor_apply (s : FilterEditorState) (fe : FilterExp)
    (t : TableRep) (ts : list TableRep) :
  op (handleApply s) = state_op s ∧
  opArgs (handleApply s) =
    omap (λ kr : string * Slot,
            match kr.2 with SlotExp re => Some re | _ => None end)
         (renderFilterRows s) ∧
  handleApply (FilterEditor_new (Some fe)) = fe ∧
  filterImpl (handleApply (FilterEditor_new None)) (t :: ts) = Ok t.
Proof.
  split; [done|]. split; [|split].
  - destruct s as [o l]. induction l as [|x l IH] using rev_ind; [done|].
    rewrite handleApply_snoc, renderFilterRows_snoc, omap_app, IH. f_equal.
    by destruct x.
  - destruct fe as [o args]. unfold handleApply, FilterEditor_new. simpl.
    f_equal. induction args as [|a args IH]; [done|]. simpl. f_equal. exact IH.
  - unfold filterImpl. simpl. destruct t as [sch rows]. simpl. do 2 f_equal.
    induction rows as [|r rows IH]; [done|].
    rewrite filter_cons_True by done. by rewrite IH.
Qed.
